(** * A shallow embedding of the S-expression runtime of [core.c]

    The C program manipulates heap objects through pointers, mutates
    pairs and environment frames in place, reads characters from the
    standard input and writes characters to the standard output.  The
    embedding keeps all of this explicit: a [State] holds the object
    heap, the store of environment frames and the two character
    streams, and every C function becomes a function in a small
    state-and-error monad.  Loops and recursion of the C code are
    bounded by a fuel argument. *)

From Stdlib Require Import ZArith Ascii String List Lia.
From stdpp Require Import base list gmap strings.

Local Open Scope string_scope.
Local Open Scope Z_scope.
Local Open Scope list_scope.

(** ** Pointers *)

(** An [Object *] is an address; address [0] is the null pointer and
    address [S i] designates cell [i] of the heap.  The two predefined
    atoms [Nil] and [True] of the C file are static objects: they
    occupy the first two cells of every heap. *)

Definition ptr := nat.
Definition NULL : ptr := 0%nat.
Definition Nil : ptr := 1%nat.
Definition True' : ptr := 2%nat.

(** An [Env *] is an address into the store of frames, with the same
    convention for the null pointer. *)

Definition envptr := nat.
Definition ENULL : envptr := 0%nat.

(** ** Objects *)

(** The addresses of the C functions stored in primitive objects. *)

Inductive Primitive : Set :=
| P_and | P_car | P_cdr | P_cons | P_define | P_defun | P_eq | P_gt
| P_if | P_lt | P_lambda | P_minus | P_multi | P_obj_eq | P_or | P_plus
| P_println | P_progn | P_setcar | P_quote | P_while.

(** Modelled from the spec: [core.h], which declares [Object],
    [ObjectType] and [Env], is not part of the sources.  An object is
    a tag together with the fields the C code reads and writes under
    this tag: [value], [name], [car]/[cdr], [function],
    [params]/[body]. *)

Inductive Object : Type :=
| O_INT (value : Z)
| O_SYMBOL (name : string)
| O_CONS (car cdr : ptr)
| O_NIL
| O_TRUE
| O_PRIMITIVE (function : Primitive)
| O_FUNCTION (params body : ptr).

Inductive ObjectType : Set :=
| OT_INT | OT_SYMBOL | OT_CONS | OT_NIL | OT_TRUE | OT_PRIMITIVE | OT_FUNCTION.

Definition type_of (o : Object) : ObjectType :=
  match o with
  | O_INT _ => OT_INT
  | O_SYMBOL _ => OT_SYMBOL
  | O_CONS _ _ => OT_CONS
  | O_NIL => OT_NIL
  | O_TRUE => OT_TRUE
  | O_PRIMITIVE _ => OT_PRIMITIVE
  | O_FUNCTION _ _ => OT_FUNCTION
  end.

Definition ObjectType_eqb (a b : ObjectType) : bool :=
  match a, b with
  | OT_INT, OT_INT | OT_SYMBOL, OT_SYMBOL | OT_CONS, OT_CONS
  | OT_NIL, OT_NIL | OT_TRUE, OT_TRUE | OT_PRIMITIVE, OT_PRIMITIVE
  | OT_FUNCTION, OT_FUNCTION => true
  | _, _ => false
  end.

(** ** Environments *)

(** Modelled from the spec: the hash table ([ht_create], [ht_insert],
    [ht_lookup]) is not part of the sources.  Following the spec's
    environment contract it is a finite map from symbol names to
    values, and inserting a name that is already present overwrites
    its value. *)

Record Env : Type := mkEnv { ht : gmap string ptr; parent : envptr }.

(** ** The state of the process *)

Record State : Type := mkState {
  heap : list Object;
  frames : list Env;
  stdin : list ascii;
  stdout : list ascii
}.

Definition initial_state (input : list ascii) : State :=
  {| heap := [O_NIL; O_TRUE]; frames := []; stdin := input; stdout := [] |}.

(** ** The monad *)

(** A computation ends in one of four ways: it returns a value and a
    new state; it calls [err] (or reports an undefined symbol), which
    prints a message and exits; it runs into behaviour the C standard
    leaves undefined (null or dangling dereference, read of a field
    the object's tag does not carry, read of an uninitialised local);
    or the fuel of the model is exhausted. *)

Inductive result (A : Type) : Type :=
| Ok (a : A) (s : State)
| Error (msg : string)
| Crash
| OutOfFuel.

Arguments Ok {A} a s.
Arguments Error {A} msg.
Arguments Crash {A}.
Arguments OutOfFuel {A}.

Definition M (A : Type) : Type := State -> result A.

Definition ret {A} (a : A) : M A := fun s => Ok a s.

Definition bind {A B} (m : M A) (k : A -> M B) : M B :=
  fun s => match m s with
           | Ok a s' => k a s'
           | Error msg => Error msg
           | Crash => Crash
           | OutOfFuel => OutOfFuel
           end.

Notation "'let*' x ':=' m 'in' k" := (bind m (fun x => k))
  (at level 10, x name, m at level 100, k at level 200).

Definition err {A} (msg : string) : M A := fun _ => Error msg.
Definition crash {A} : M A := fun _ => Crash.
Definition out_of_fuel {A} : M A := fun _ => OutOfFuel.

(** ** Heap operations *)

Definition with_heap (s : State) (h : list Object) : State :=
  mkState h (frames s) (stdin s) (stdout s).

Definition with_frames (s : State) (f : list Env) : State :=
  mkState (heap s) f (stdin s) (stdout s).

Definition with_stdin (s : State) (i : list ascii) : State :=
  mkState (heap s) (frames s) i (stdout s).

Definition with_stdout (s : State) (o : list ascii) : State :=
  mkState (heap s) (frames s) (stdin s) o.

(** The object a pointer designates, if any. *)
Definition obj_at (s : State) (p : ptr) : option Object :=
  match p with
  | O => None
  | S i => heap s !! i
  end.

Definition deref (p : ptr) : M Object :=
  fun s => match obj_at s p with
           | Some o => Ok o s
           | None => Crash
           end.

Definition store (p : ptr) (o : Object) : M unit :=
  fun s => match obj_at s p with
           | Some _ => Ok tt (with_heap s (<[pred p := o]> (heap s)))
           | None => Crash
           end.

(** [new_object] followed by the initialisation of the fields. *)
Definition new_object (o : Object) : M ptr :=
  fun s => Ok (S (length (heap s))) (with_heap s (heap s ++ [o])).

Definition get_type (p : ptr) : M ObjectType :=
  let* o := deref p in ret (type_of o).

Definition get_car (p : ptr) : M ptr :=
  let* o := deref p in
  match o with O_CONS a _ => ret a | _ => crash end.

Definition get_cdr (p : ptr) : M ptr :=
  let* o := deref p in
  match o with O_CONS _ d => ret d | _ => crash end.

Definition get_value (p : ptr) : M Z :=
  let* o := deref p in
  match o with O_INT v => ret v | _ => crash end.

Definition get_name (p : ptr) : M string :=
  let* o := deref p in
  match o with O_SYMBOL n => ret n | _ => crash end.

Definition get_body (p : ptr) : M ptr :=
  let* o := deref p in
  match o with O_FUNCTION _ b => ret b | _ => crash end.

Definition set_car (p v : ptr) : M unit :=
  let* o := deref p in
  match o with O_CONS _ d => store p (O_CONS v d) | _ => crash end.

Definition set_cdr (p v : ptr) : M unit :=
  let* o := deref p in
  match o with O_CONS a _ => store p (O_CONS a v) | _ => crash end.

Definition cons (car cdr : ptr) : M ptr := new_object (O_CONS car cdr).

(** ** Machine integers *)

(** [int] is a 32-bit two's complement integer; arithmetic wraps. *)

Definition wrap (z : Z) : Z := (z + 2147483648) mod 4294967296 - 2147483648.

(** ** HELPERS *)

Fixpoint count_from (fuel : nat) (list : ptr) (cnt : Z) : M Z :=
  match fuel with
  | O => out_of_fuel
  | S n =>
      let* o := deref list in
      match o with
      | O_CONS _ d => count_from n d (cnt + 1)
      | _ => ret (if (list =? Nil)%nat then cnt else -1)
      end
  end.

Definition count (fuel : nat) (list : ptr) : M Z := count_from fuel list 0.

(** ** ENV *)

(** The frame an environment pointer designates, if any. *)
Definition frame_at (s : State) (e : envptr) : option Env :=
  match e with
  | O => None
  | S i => frames s !! i
  end.

Definition env_get (e : envptr) : M Env :=
  fun s => match frame_at s e with
           | Some f => Ok f s
           | None => Crash
           end.

Definition env_put (e : envptr) (f : Env) : M unit :=
  fun s => match frame_at s e with
           | Some _ => Ok tt (with_frames s (<[pred e := f]> (frames s)))
           | None => Crash
           end.

Definition env_create : M envptr :=
  fun s => Ok (S (length (frames s))) (with_frames s (frames s ++ [mkEnv ∅ ENULL])).

Definition set_parent (e p : envptr) : M unit :=
  let* f := env_get e in env_put e (mkEnv (ht f) p).

(** [ht_insert(env->ht, name, value)] *)
Definition ht_insert (e : envptr) (name : string) (value : ptr) : M unit :=
  let* f := env_get e in env_put e (mkEnv (<[name := value]> (ht f)) (parent f)).

Fixpoint env_lookup (fuel : nat) (env : envptr) (name : string) : M ptr :=
  match fuel with
  | O => out_of_fuel
  | S n =>
      let* f := env_get env in
      match ht f !! name with
      | None =>
          if (parent f =? ENULL)%nat
          then err ("Undefined symbol: " +:+ name)
          else env_lookup n (parent f) name
      | Some data => ret data
      end
  end.

Definition add_primitive (env : envptr) (name : string) (fn : Primitive) : M unit :=
  let* o := new_object (O_PRIMITIVE fn) in
  ht_insert env name o.

(** ** EVAL *)

(** The functions below call back into [eval]; the evaluator is passed
    as the argument [ev] and the knot is tied in [eval] itself. *)

Definition evaluator : Type := envptr -> ptr -> M ptr.

Fixpoint eval_args_loop (fuel : nat) (ev : evaluator) (env : envptr)
    (o first last : ptr) : M ptr :=
  match fuel with
  | O => out_of_fuel
  | S n =>
      if (o =? Nil)%nat then ret first
      else
        let* a := get_car o in
        let* v := ev env a in
        let* c := cons v Nil in
        let* _ := (if (first =? Nil)%nat then ret tt else set_cdr last c) in
        let* d := get_cdr o in
        eval_args_loop n ev env d (if (first =? Nil)%nat then c else first) c
  end.

Definition eval_args (fuel : nat) (ev : evaluator) (env : envptr) (o : ptr) : M ptr :=
  eval_args_loop fuel ev env o Nil Nil.

(** The local [last] of [progn] is not initialised: it is [None] until
    the first assignment, and returning it in that state is a read of
    an indeterminate value. *)
Fixpoint progn_loop (fuel : nat) (ev : evaluator) (env : envptr)
    (args : ptr) (last : option ptr) : M ptr :=
  match fuel with
  | O => out_of_fuel
  | S n =>
      if (args =? Nil)%nat
      then match last with Some v => ret v | None => crash end
      else
        let* a := get_car args in
        let* v := ev env a in
        let* d := get_cdr args in
        progn_loop n ev env d (Some v)
  end.

Definition progn (fuel : nat) (ev : evaluator) (env : envptr) (args : ptr) : M ptr :=
  progn_loop fuel ev env args None.

(** The binding loop of [apply] reads [args->car] and [args->cdr]
    without a test on [args], which is [Nil] once the arguments have
    run out.  [Nil] and [True] are the static objects
    [&(Object) { OT_NIL }] and [&(Object) { OT_TRUE }]: the initialiser
    gives the tag only, the other fields are zero, and both reads yield
    the null pointer.  A read through the null pointer itself ends the
    run. *)
Definition field_car (p : ptr) : M ptr :=
  let* o := deref p in
  match o with
  | O_CONS a _ => ret a
  | O_NIL | O_TRUE => ret NULL
  | _ => crash
  end.

Definition field_cdr (p : ptr) : M ptr :=
  let* o := deref p in
  match o with
  | O_CONS _ d => ret d
  | O_NIL | O_TRUE => ret NULL
  | _ => crash
  end.

(** The binding loop of [apply]. *)
Fixpoint bind_params (fuel : nat) (env_child : envptr) (params args : ptr) : M unit :=
  match fuel with
  | O => out_of_fuel
  | S n =>
      let* t := get_type params in
      if ObjectType_eqb t OT_CONS then
        let* p := get_car params in
        let* name := get_name p in
        let* v := field_car args in
        let* _ := ht_insert env_child name v in
        let* params' := get_cdr params in
        let* args' := field_cdr args in
        bind_params n env_child params' args'
      else ret tt
  end.

(** ** Print *)

Definition printf (text : list ascii) : M unit :=
  fun s => Ok tt (with_stdout s (stdout s ++ text)).

Definition digit_char (d : Z) : ascii := ascii_of_N (Z.to_N (48 + d)).

Fixpoint dec_digits (fuel : nat) (n : Z) (acc : list ascii) : list ascii :=
  match fuel with
  | O => acc
  | S f =>
      let acc' := digit_char (n mod 10) :: acc in
      if n <? 10 then acc' else dec_digits f (n / 10) acc'
  end.

Definition dec_unsigned (n : Z) : list ascii :=
  dec_digits (S (Z.to_nat (Z.log2 n))) n [].

(** The text [printf("%d", v)] writes. *)
Definition dec (v : Z) : list ascii :=
  if v <? 0 then "-"%char :: dec_unsigned (- v) else dec_unsigned v.

Fixpoint print_elements (fuel : nat) (pr : ptr -> M unit) (o : ptr) : M unit :=
  match fuel with
  | O => out_of_fuel
  | S n =>
      let* a := get_car o in
      let* _ := pr a in
      let* d := get_cdr o in
      if (d =? Nil)%nat then ret tt
      else
        let* _ := printf (list_ascii_of_string " ") in
        print_elements n pr d
  end.

Fixpoint print (fuel : nat) (o : ptr) : M unit :=
  match fuel with
  | O => out_of_fuel
  | S n =>
      let* obj := deref o in
      match obj with
      | O_INT v => printf (dec v)
      | O_SYMBOL name => printf (list_ascii_of_string name)
      | O_CONS _ _ =>
          let* _ := printf (list_ascii_of_string "(") in
          let* _ := print_elements n (print n) o in
          printf (list_ascii_of_string ")")
      | O_NIL => printf (list_ascii_of_string "Nil")
      | O_TRUE => printf (list_ascii_of_string "True")
      | O_PRIMITIVE _ => printf (list_ascii_of_string "<primitive>")
      | O_FUNCTION _ _ => printf (list_ascii_of_string "<function>")
      end
  end.

(** ** Primitives *)

Fixpoint check_params (fuel : nat) (p : ptr) : M unit :=
  match fuel with
  | O => out_of_fuel
  | S n =>
      let* t := get_type p in
      if ObjectType_eqb t OT_CONS then
        let* a := get_car p in
        let* ta := get_type a in
        if negb (ObjectType_eqb ta OT_SYMBOL)
        then err "function parameter must be a symbol"
        else
          let* d := get_cdr p in
          check_params n d
      else ret tt
  end.

Definition create_function (fuel : nat) (params body : ptr) : M ptr :=
  let* _ := check_params fuel params in
  new_object (O_FUNCTION params body).

Fixpoint primitive_and (fuel : nat) (ev : evaluator) (env : envptr) (args : ptr) : M ptr :=
  match fuel with
  | O => out_of_fuel
  | S n =>
      if (args =? Nil)%nat then ret True'
      else
        let* a := get_car args in
        let* v := ev env a in
        if (v =? Nil)%nat then ret Nil
        else
          let* d := get_cdr args in
          primitive_and n ev env d
  end.

Fixpoint primitive_or (fuel : nat) (ev : evaluator) (env : envptr) (args : ptr) : M ptr :=
  match fuel with
  | O => out_of_fuel
  | S n =>
      if (args =? Nil)%nat then ret Nil
      else
        let* a := get_car args in
        let* v := ev env a in
        if negb (v =? Nil)%nat then ret True'
        else
          let* d := get_cdr args in
          primitive_or n ev env d
  end.

Definition primitive_car (fuel : nat) (ev : evaluator) (env : envptr) (args : ptr) : M ptr :=
  let* args := eval_args fuel ev env args in
  let* a := get_car args in
  let* t := get_type a in
  if negb (ObjectType_eqb t OT_CONS)
  then err "car accepts single list argument only"
  else
    let* d := get_cdr args in
    if negb (d =? Nil)%nat
    then err "car accepts single list argument only"
    else get_car a.

Definition primitive_cdr (fuel : nat) (ev : evaluator) (env : envptr) (args : ptr) : M ptr :=
  let* args := eval_args fuel ev env args in
  let* a := get_car args in
  let* t := get_type a in
  if negb (ObjectType_eqb t OT_CONS)
  then err "cdr accepts single list argument only"
  else
    let* d := get_cdr args in
    if negb (d =? Nil)%nat
    then err "cdr accepts single list argument only"
    else get_cdr a.

Definition primitive_cons (fuel : nat) (ev : evaluator) (env : envptr) (args : ptr) : M ptr :=
  let* cnt := count fuel args in
  if negb (cnt =? 2) then err "cons accepts two arguments only"
  else
    let* args := eval_args fuel ev env args in
    let* d := get_cdr args in
    let* v := get_car d in
    let* _ := set_cdr args v in
    ret args.

Definition primitive_define (fuel : nat) (ev : evaluator) (env : envptr) (args : ptr) : M ptr :=
  let* cnt := count fuel args in
  if negb (cnt =? 2)
  then err "define accepts two arguments only, with first one being a symbol"
  else
    let* a := get_car args in
    let* t := get_type a in
    if negb (ObjectType_eqb t OT_SYMBOL)
    then err "define accepts two arguments only, with first one being a symbol"
    else
      let* d := get_cdr args in
      let* e := get_car d in
      let* value := ev env e in
      let* a' := get_car args in
      let* name := get_name a' in
      let* _ := ht_insert env name value in
      ret value.

(** The three integer comparisons share their shape; [msg1], [msg2]
    are the two messages of the C function and [cmp] its test. *)
Definition compare_ints (msg1 msg2 : string) (cmp : Z -> Z -> bool)
    (fuel : nat) (ev : evaluator) (env : envptr) (args : ptr) : M ptr :=
  let* cnt := count fuel args in
  if negb (cnt =? 2) then err msg1
  else
    let* args := eval_args fuel ev env args in
    let* a := get_car args in
    let* ta := get_type a in
    if negb (ObjectType_eqb ta OT_INT) then err msg2
    else
      let* d := get_cdr args in
      let* b := get_car d in
      let* tb := get_type b in
      if negb (ObjectType_eqb tb OT_INT) then err msg2
      else
        let* x := get_value a in
        let* y := get_value b in
        ret (if cmp x y then True' else Nil).

Definition primitive_eq : nat -> evaluator -> envptr -> ptr -> M ptr :=
  compare_ints "= accepts two arguments only" "= accepts integers only" Z.eqb.

Definition primitive_gt : nat -> evaluator -> envptr -> ptr -> M ptr :=
  compare_ints "> accepts two arguments only" "> accepts integers only" Z.gtb.

Definition primitive_lt : nat -> evaluator -> envptr -> ptr -> M ptr :=
  compare_ints "< accepts two arguments only" "< accepts integers only" Z.ltb.

Definition primitive_if (fuel : nat) (ev : evaluator) (env : envptr) (args : ptr) : M ptr :=
  let* cnt := count fuel args in
  if negb (cnt =? 2) && negb (cnt =? 3)
  then err "if needs two or three arguments"
  else
    let* a := get_car args in
    let* c := ev env a in
    if negb (c =? Nil)%nat then
      let* d := get_cdr args in
      let* b := get_car d in
      ev env b
    else if cnt =? 2 then ret Nil
    else
      let* d := get_cdr args in
      let* dd := get_cdr d in
      let* b := get_car dd in
      ev env b.

Definition primitive_lambda (fuel : nat) (ev : evaluator) (env : envptr) (args : ptr) : M ptr :=
  let* params := get_car args in
  let* body := get_cdr args in
  create_function fuel params body.

(** In [primitive_minus] and [primitive_multi] the accumulator is an
    uninitialised local until the first argument has been seen. *)
Fixpoint minus_loop (fuel : nat) (args : ptr) (diff : option Z) (first : bool)
    : M (option Z) :=
  match fuel with
  | O => out_of_fuel
  | S n =>
      if (args =? Nil)%nat then ret diff
      else
        let* a := get_car args in
        let* t := get_type a in
        if negb (ObjectType_eqb t OT_INT) then err "+ accepts only integers"
        else
          let* v := get_value a in
          let* d := get_cdr args in
          if first then
            if (d =? Nil)%nat then ret (Some (wrap (- v)))
            else minus_loop n d (Some v) false
          else
            match diff with
            | Some x => minus_loop n d (Some (wrap (x - v))) false
            | None => crash
            end
  end.

Definition primitive_minus (fuel : nat) (ev : evaluator) (env : envptr) (args : ptr) : M ptr :=
  let* args := eval_args fuel ev env args in
  let* diff := minus_loop fuel args None true in
  match diff with
  | Some v => new_object (O_INT v)
  | None => crash
  end.

Fixpoint multi_loop (fuel : nat) (args : ptr) (total : option Z) (first : bool)
    : M (option Z) :=
  match fuel with
  | O => out_of_fuel
  | S n =>
      if (args =? Nil)%nat then ret total
      else
        let* a := get_car args in
        let* t := get_type a in
        if negb (ObjectType_eqb t OT_INT) then err "* accepts only integers"
        else
          let* v := get_value a in
          let* d := get_cdr args in
          if first then multi_loop n d (Some v) false
          else
            match total with
            | Some x => multi_loop n d (Some (wrap (x * v))) false
            | None => crash
            end
  end.

Definition primitive_multi (fuel : nat) (ev : evaluator) (env : envptr) (args : ptr) : M ptr :=
  let* cnt := count fuel args in
  if cnt <? 2 then err "* accepts at least two arguments"
  else
    let* args := eval_args fuel ev env args in
    let* total := multi_loop fuel args None true in
    match total with
    | Some v => new_object (O_INT v)
    | None => crash
    end.

Definition primitive_obj_eq (fuel : nat) (ev : evaluator) (env : envptr) (args : ptr) : M ptr :=
  let* cnt := count fuel args in
  if negb (cnt =? 2) then err "eq accepts two arguments only"
  else
    let* args := eval_args fuel ev env args in
    let* a := get_car args in
    let* d := get_cdr args in
    let* b := get_car d in
    ret (if (a =? b)%nat then True' else Nil).

Fixpoint plus_loop (fuel : nat) (args : ptr) (sum : Z) : M Z :=
  match fuel with
  | O => out_of_fuel
  | S n =>
      if (args =? Nil)%nat then ret sum
      else
        let* a := get_car args in
        let* t := get_type a in
        if negb (ObjectType_eqb t OT_INT) then err "+ accepts only integers"
        else
          let* v := get_value a in
          let* d := get_cdr args in
          plus_loop n d (wrap (sum + v))
  end.

Definition primitive_plus (fuel : nat) (ev : evaluator) (env : envptr) (args : ptr) : M ptr :=
  let* args := eval_args fuel ev env args in
  let* sum := plus_loop fuel args 0 in
  new_object (O_INT sum).

Definition primitive_println (fuel : nat) (ev : evaluator) (env : envptr) (args : ptr) : M ptr :=
  let* cnt := count fuel args in
  if negb (cnt =? 1) then err "println takes one argument only"
  else
    let* a := get_car args in
    let* v := ev env a in
    let* _ := print fuel v in
    let* _ := printf ["010"%char] in
    ret Nil.

Definition primitive_progn (fuel : nat) (ev : evaluator) (env : envptr) (args : ptr) : M ptr :=
  progn fuel ev env args.

Definition primitive_setcar (fuel : nat) (ev : evaluator) (env : envptr) (args : ptr) : M ptr :=
  let* args := eval_args fuel ev env args in
  let* cnt := count fuel args in
  if negb (cnt =? 2)
  then err "setcar accepts two arguments only, with first being a cons cell"
  else
    let* a := get_car args in
    let* t := get_type a in
    if negb (ObjectType_eqb t OT_CONS)
    then err "setcar accepts two arguments only, with first being a cons cell"
    else
      let* d := get_cdr args in
      let* v := get_car d in
      let* _ := set_car a v in
      ret a.

Definition primitive_quote (fuel : nat) (ev : evaluator) (env : envptr) (args : ptr) : M ptr :=
  let* cnt := count fuel args in
  if negb (cnt =? 1) then err "quote accepts one argument only"
  else get_car args.

Fixpoint while_loop (fuel : nat) (ev : evaluator) (env : envptr) (args : ptr) : M unit :=
  match fuel with
  | O => out_of_fuel
  | S n =>
      let* c := get_car args in
      let* v := ev env c in
      if (v =? Nil)%nat then ret tt
      else
        let* d := get_cdr args in
        let* _ := eval_args n ev env d in
        while_loop n ev env args
  end.

Definition primitive_while (fuel : nat) (ev : evaluator) (env : envptr) (args : ptr) : M ptr :=
  let* cnt := count fuel args in
  if cnt <? 2 then err "while needs at least two arguments"
  else
    let* _ := while_loop fuel ev env args in
    ret Nil.

(** *** Composite primitives *)

Definition primitive_defun (fuel : nat) (ev : evaluator) (env : envptr) (args : ptr) : M ptr :=
  let* rest := get_cdr args in
  let* fn := primitive_lambda fuel ev env rest in
  let* c := cons fn Nil in
  let* _ := set_cdr args c in
  primitive_define fuel ev env args.

(** The call [o->function(env, args)] through the function pointer. *)
Definition call_primitive (fn : Primitive) : nat -> evaluator -> envptr -> ptr -> M ptr :=
  match fn with
  | P_and => primitive_and
  | P_car => primitive_car
  | P_cdr => primitive_cdr
  | P_cons => primitive_cons
  | P_define => primitive_define
  | P_defun => primitive_defun
  | P_eq => primitive_eq
  | P_gt => primitive_gt
  | P_if => primitive_if
  | P_lt => primitive_lt
  | P_lambda => primitive_lambda
  | P_minus => primitive_minus
  | P_multi => primitive_multi
  | P_obj_eq => primitive_obj_eq
  | P_or => primitive_or
  | P_plus => primitive_plus
  | P_println => primitive_println
  | P_progn => primitive_progn
  | P_setcar => primitive_setcar
  | P_quote => primitive_quote
  | P_while => primitive_while
  end.

(** ** The evaluator proper *)

Definition apply (fuel : nat) (ev : evaluator) (env : envptr) (o args : ptr) : M ptr :=
  let* obj := deref o in
  match obj with
  | O_PRIMITIVE fn => call_primitive fn fuel ev env args
  | O_FUNCTION params _ =>
      let* args := eval_args fuel ev env args in
      let* env_child := env_create in
      let* _ := set_parent env_child env in
      let* _ := bind_params fuel env_child params args in
      let* body := get_body o in
      progn fuel ev env_child body
  | _ => ret NULL
  end.

Fixpoint eval (fuel : nat) (env : envptr) (o : ptr) : M ptr :=
  match fuel with
  | O => out_of_fuel
  | S n =>
      if (o =? NULL)%nat then ret NULL
      else
        let* obj := deref o in
        match obj with
        | O_INT _ | O_FUNCTION _ _ | O_TRUE | O_NIL => ret o
        | O_CONS car _ =>
            let* fn := eval n env car in
            let* args := get_cdr o in
            let* tf := get_type fn in
            if negb (ObjectType_eqb tf OT_PRIMITIVE) && negb (ObjectType_eqb tf OT_FUNCTION)
            then err "The first element of list must be a function"
            else
              let* ta := get_type args in
              if negb (ObjectType_eqb ta OT_NIL) && negb (ObjectType_eqb ta OT_CONS)
              then err "Function argument must be a list"
              else apply n (eval n) env fn args
        | O_SYMBOL name => env_lookup n env name
        | O_PRIMITIVE _ => ret NULL
        end
  end.

Definition primitive_table : list (string * Primitive) :=
  [("and", P_and); ("car", P_car); ("cdr", P_cdr); ("cons", P_cons);
   ("define", P_define); ("defun", P_defun); ("=", P_eq); (">", P_gt);
   ("if", P_if); ("<", P_lt); ("lambda", P_lambda); ("-", P_minus);
   ("*", P_multi); ("eq", P_obj_eq); ("or", P_or); ("+", P_plus);
   ("println", P_println); ("progn", P_progn); ("setcar", P_setcar);
   ("quote", P_quote); ("while", P_while)].

Fixpoint add_primitives (env : envptr) (table : list (string * Primitive)) : M unit :=
  match table with
  | [] => ret tt
  | (name, fn) :: rest =>
      let* _ := add_primitive env name fn in
      add_primitives env rest
  end.

Definition env_init : M envptr :=
  let* env := env_create in
  let* _ := ht_insert env "Nil" Nil in
  let* _ := ht_insert env "True" True' in
  let* _ := add_primitives env primitive_table in
  ret env.

(** ** RECURSIVE DESCENT PARSER *)

(** Characters travel as [int]: [EOF] is [-1], any other value is the
    code of a byte. *)

Definition EOF : Z := -1.

Definition code (a : ascii) : Z := Z.of_N (N_of_ascii a).

(** The conversion of an [int] to [char]. *)
Definition to_char (c : Z) : ascii := ascii_of_N (Z.to_N (c mod 256)).

Definition isspace (c : Z) : bool := (c =? 32) || ((9 <=? c) && (c <=? 13)).
Definition isdigit (c : Z) : bool := (48 <=? c) && (c <=? 57).
Definition isalpha (c : Z) : bool :=
  ((65 <=? c) && (c <=? 90)) || ((97 <=? c) && (c <=? 122)).
Definition isalnum (c : Z) : bool := isalpha c || isdigit c.

Definition symbol_special_chars : list ascii := list_ascii_of_string "+-_<>=?*".

(** [strchr(symbol_special_chars, c) != NULL]: the search converts [c]
    to [char] and also succeeds on the terminating null character. *)
Definition strchr_special (c : Z) : bool :=
  let ch := to_char c in
  existsb (Ascii.eqb ch) symbol_special_chars || Ascii.eqb ch zero.

Definition SYMBOL_MAX_LENGTH : Z := 128.

Definition getchar : M Z :=
  fun s => match stdin s with
           | [] => Ok EOF s
           | a :: rest => Ok (code a) (with_stdin s rest)
           end.

(** [ungetc(c, stdin)]; pushing back [EOF] does nothing. *)
Definition ungetc (c : Z) : M unit :=
  fun s => if c =? EOF then Ok tt s
           else Ok tt (with_stdin s (to_char c :: stdin s)).

Definition peek : M Z :=
  let* c := getchar in
  let* _ := ungetc c in
  ret c.

(** The characters of a buffer up to its first null character: what
    [strlen] and [strcpy] see of it. *)
Fixpoint c_string (buf : list ascii) : string :=
  match buf with
  | [] => EmptyString
  | a :: rest => if Ascii.eqb a zero then EmptyString else String a (c_string rest)
  end.

Fixpoint read_number_loop (fuel : nat) (v : Z) : M Z :=
  match fuel with
  | O => out_of_fuel
  | S n =>
      let* p := peek in
      if isdigit p then
        let* c := getchar in
        read_number_loop n (wrap (v * 10 + (c - 48)))
      else ret v
  end.

Definition read_number (fuel : nat) (isPositive : Z) : M ptr :=
  let* v := read_number_loop fuel 0 in
  new_object (O_INT (if isPositive =? 0 then wrap (- v) else v)).

(** [buf] holds the characters stored so far, in order; [i] is its
    length. *)
Fixpoint read_symbol_loop (fuel : nat) (buf : list ascii) (i : Z) : M (list ascii) :=
  match fuel with
  | O => out_of_fuel
  | S n =>
      let* p := peek in
      if isalnum p || strchr_special p then
        if SYMBOL_MAX_LENGTH <=? i then err "Symbol name is too long"
        else
          let* c := getchar in
          read_symbol_loop n (buf ++ [to_char c]) (i + 1)
      else ret buf
  end.

Definition read_symbol (fuel : nat) : M ptr :=
  let* buf := read_symbol_loop fuel [] 0 in
  new_object (O_SYMBOL (c_string buf)).

Fixpoint read_quoted_symbol_loop (fuel : nat) (buf : list ascii) (i : Z) : M (list ascii) :=
  match fuel with
  | O => out_of_fuel
  | S n =>
      let* c := getchar in
      if negb (c =? 34) then
        if SYMBOL_MAX_LENGTH <=? i then err "Symbol name is too long"
        else read_quoted_symbol_loop n (buf ++ [to_char c]) (i + 1)
      else ret buf
  end.

Definition read_quoted_symbol (fuel : nat) : M ptr :=
  let* buf := read_quoted_symbol_loop fuel [] 0 in
  new_object (O_SYMBOL (c_string buf)).

Fixpoint read_list_loop (fuel : nat) (rd : M ptr) (first last : ptr) : M ptr :=
  match fuel with
  | O => out_of_fuel
  | S n =>
      let* c := getchar in
      if isspace c then read_list_loop n rd first last
      else if c =? 41 then ret first
      else
        let* _ := ungetc c in
        let* e := rd in
        let* cell := cons e Nil in
        let* _ := (if (first =? Nil)%nat then ret tt else set_cdr last cell) in
        read_list_loop n rd (if (first =? Nil)%nat then cell else first) cell
  end.

Definition read_list (fuel : nat) (rd : M ptr) : M ptr :=
  read_list_loop fuel rd Nil Nil.

Definition read_quote (rd : M ptr) : M ptr :=
  let* o := new_object (O_SYMBOL "quote") in
  let* e := rd in
  let* d := cons e Nil in
  cons o d.

Section Reader.

(** [read] calls [read_number()] without an argument when the token
    starts with a digit, although [read_number] is defined with the
    parameter [isPositive].  The value the callee then finds in its
    parameter is indeterminate; it is a parameter of the model. *)
Variable indeterminate : Z.

Fixpoint read (fuel : nat) : M ptr :=
  match fuel with
  | O => out_of_fuel
  | S n =>
      let* c := getchar in
      if isspace c then read n
      else if c =? EOF then ret NULL
      else if isdigit c then
        let* _ := ungetc c in
        read_number n indeterminate
      else
        let* minus_digit :=
          (if c =? 45 then let* p := peek in ret (isdigit p) else ret false) in
        if minus_digit then read_number n 0
        else if isalpha c || strchr_special c then
          let* _ := ungetc c in
          read_symbol n
        else if c =? 34 then read_quoted_symbol n
        else if c =? 40 then read_list n (read n)
        else if c =? 39 then read_quote (read n)
        else err ("Syntax error" +:+ String "010"%char EmptyString)
  end.

End Reader.

(** ** Running a program text *)

(** The C file has no [main]; the two entry points [read] and [eval]
    are combined here the way a read-eval loop would use them: build
    the root environment, read one expression from the given text and
    evaluate it. *)

Definition load (fuel : nat) (junk : Z) (text : string) : result (envptr * ptr) :=
  (let* env := env_init in
   let* o := read junk fuel in
   ret (env, o)) (initial_state (list_ascii_of_string text)).

Definition run (fuel : nat) (junk : Z) (text : string) : result ptr :=
  (let* env := env_init in
   let* o := read junk fuel in
   eval fuel env o) (initial_state (list_ascii_of_string text)).

(** What a run lets an observer see: the object returned (if any) and
    the text printed. *)
Inductive outcome : Type :=
| Returned (v : option Object) (out : string)
| Failed (msg : string)
| Crashed
| Starved.

Definition observe (r : result ptr) : outcome :=
  match r with
  | Ok v s => Returned (obj_at s v) (string_of_list_ascii (stdout s))
  | Error msg => Failed msg
  | Crash => Crashed
  | OutOfFuel => Starved
  end.

(** * Basic facts about the monad and the heap *)

Lemma bind_ok {A B} (m : M A) (k : A -> M B) s a s1 :
  m s = Ok a s1 -> bind m k s = k a s1.
Proof. intros H. unfold bind. now rewrite H. Qed.

Lemma bind_inv {A B} (m : M A) (k : A -> M B) s b s' :
  bind m k s = Ok b s' -> exists a s1, m s = Ok a s1 /\ k a s1 = Ok b s'.
Proof.
  unfold bind. destruct (m s) as [a s1| | |]; try discriminate.
  intros H. now exists a, s1.
Qed.

Lemma deref_ok s p o : obj_at s p = Some o -> deref p s = Ok o s.
Proof. intros H. unfold deref. now rewrite H. Qed.

Lemma deref_inv s p o s' : deref p s = Ok o s' -> s' = s /\ obj_at s p = Some o.
Proof.
  unfold deref. destruct (obj_at s p); [|discriminate].
  intros [= -> ->]. auto.
Qed.

Lemma get_type_ok s p o : obj_at s p = Some o -> get_type p s = Ok (type_of o) s.
Proof. intros H. unfold get_type. now rewrite (bind_ok _ _ _ _ _ (deref_ok _ _ _ H)). Qed.

Lemma get_car_ok s p a d : obj_at s p = Some (O_CONS a d) -> get_car p s = Ok a s.
Proof. intros H. unfold get_car. now rewrite (bind_ok _ _ _ _ _ (deref_ok _ _ _ H)). Qed.

Lemma get_cdr_ok s p a d : obj_at s p = Some (O_CONS a d) -> get_cdr p s = Ok d s.
Proof. intros H. unfold get_cdr. now rewrite (bind_ok _ _ _ _ _ (deref_ok _ _ _ H)). Qed.

Lemma field_car_ok s p a d : obj_at s p = Some (O_CONS a d) -> field_car p s = Ok a s.
Proof. intros H. unfold field_car. now rewrite (bind_ok _ _ _ _ _ (deref_ok _ _ _ H)). Qed.

Lemma field_cdr_ok s p a d : obj_at s p = Some (O_CONS a d) -> field_cdr p s = Ok d s.
Proof. intros H. unfold field_cdr. now rewrite (bind_ok _ _ _ _ _ (deref_ok _ _ _ H)). Qed.

Lemma field_car_Nil s p : obj_at s p = Some O_NIL -> field_car p s = Ok NULL s.
Proof. intros H. unfold field_car. now rewrite (bind_ok _ _ _ _ _ (deref_ok _ _ _ H)). Qed.

Lemma field_cdr_Nil s p : obj_at s p = Some O_NIL -> field_cdr p s = Ok NULL s.
Proof. intros H. unfold field_cdr. now rewrite (bind_ok _ _ _ _ _ (deref_ok _ _ _ H)). Qed.

Lemma get_name_ok s p n : obj_at s p = Some (O_SYMBOL n) -> get_name p s = Ok n s.
Proof. intros H. unfold get_name. now rewrite (bind_ok _ _ _ _ _ (deref_ok _ _ _ H)). Qed.

Lemma get_value_ok s p v : obj_at s p = Some (O_INT v) -> get_value p s = Ok v s.
Proof. intros H. unfold get_value. now rewrite (bind_ok _ _ _ _ _ (deref_ok _ _ _ H)). Qed.

Lemma get_body_ok s p a b : obj_at s p = Some (O_FUNCTION a b) -> get_body p s = Ok b s.
Proof. intros H. unfold get_body. now rewrite (bind_ok _ _ _ _ _ (deref_ok _ _ _ H)). Qed.

Lemma obj_at_lt s p o : obj_at s p = Some o -> (0 < p <= length (heap s))%nat.
Proof.
  destruct p as [|i]; simpl; [discriminate|].
  intros H. apply lookup_lt_Some in H. lia.
Qed.

Lemma obj_at_alloc_old s p o x :
  obj_at s p = Some o -> obj_at (with_heap s (heap s ++ [x])) p = Some o.
Proof.
  destruct p as [|i]; simpl; [discriminate|].
  intros H. now apply lookup_app_l_Some.
Qed.

Lemma obj_at_alloc_new s x :
  obj_at (with_heap s (heap s ++ [x])) (S (length (heap s))) = Some x.
Proof. simpl. rewrite lookup_app_r by lia. now rewrite Nat.sub_diag. Qed.

Lemma obj_at_store_eq s p o x :
  obj_at s p = Some o -> obj_at (with_heap s (<[pred p := x]> (heap s))) p = Some x.
Proof.
  destruct p as [|i]; simpl; [discriminate|].
  intros H. apply list_lookup_insert_eq. now apply lookup_lt_Some in H.
Qed.

Lemma obj_at_store_ne s p q o x :
  obj_at s p = Some o -> p <> q ->
  obj_at (with_heap s (<[pred p := x]> (heap s))) q = obj_at s q.
Proof.
  destruct p as [|i]; simpl; [discriminate|].
  intros _ H. destruct q as [|j]; simpl; [reflexivity|].
  apply list_lookup_insert_ne. congruence.
Qed.

(** The state a computation ends in (the initial state if it fails);
    used to name the states of concrete runs. *)
Definition state_of {A} (r : result A) : State :=
  match r with
  | Ok _ s => s
  | _ => initial_state []
  end.

(** ** Lists in the heap *)

(** [cells s p l e]: starting from [p] and following [cdr] fields one
    meets pairs whose [car] fields are, in order, the elements of [l],
    and arrives at [e]. *)
Inductive cells (s : State) : ptr -> list ptr -> ptr -> Prop :=
| cells_end p : cells s p [] p
| cells_step p a d l e :
    obj_at s p = Some (O_CONS a d) -> cells s d l e -> cells s p (a :: l) e.

(** [p] designates a symbol. *)
Definition is_symbol (s : State) (p : ptr) : Prop :=
  exists n, obj_at s p = Some (O_SYMBOL n).

(** [p] designates an object that is not a pair. *)
Definition not_pair (s : State) (p : ptr) : Prop :=
  exists o, obj_at s p = Some o /\ type_of o <> OT_CONS.

(** * and, or without arguments (C10) *)

(** C10. With an empty argument list, [and] returns [True] and [or]
    returns [Nil]: the primitives do so whatever the evaluator they are
    given and leave the state as it is, and so does the evaluation of
    a list [(f)] whose operator [f] evaluates to the primitive, in
    every environment. *)
Theorem and_or_without_arguments
    (n : nat) (env : envptr) (s : State) (o f p : ptr) (fn : Primitive) :
  obj_at s Nil = Some O_NIL ->
  obj_at s o = Some (O_CONS f Nil) ->
  eval n env f s = Ok p s ->
  obj_at s p = Some (O_PRIMITIVE fn) ->
  (forall fuel ev env', primitive_and (S fuel) ev env' Nil s = Ok True' s
                   /\ primitive_or (S fuel) ev env' Nil s = Ok Nil s)
  /\ (fn = P_and -> eval (S n) env o s = Ok True' s)
  /\ (fn = P_or -> eval (S n) env o s = Ok Nil s).
Proof.
  intros HNil Ho Hf Hp. split; [intros; split; reflexivity|].
  assert (Hn : exists m, n = S m).
  { destruct n; [discriminate|eauto]. }
  destruct Hn as [m ->].
  assert (Hcall : forall prim, fn = prim ->
            eval (S (S m)) env o s = call_primitive prim (S m) (eval (S m)) env Nil s).
  { intros prim ->.
    change (eval (S (S m)) env o s) with
      ((if (o =? NULL)%nat then ret NULL else
        let* obj := deref o in
        match obj with
        | O_INT _ | O_FUNCTION _ _ | O_TRUE | O_NIL => ret o
        | O_CONS car _ =>
            let* fn := eval (S m) env car in
            let* args := get_cdr o in
            let* tf := get_type fn in
            if negb (ObjectType_eqb tf OT_PRIMITIVE) && negb (ObjectType_eqb tf OT_FUNCTION)
            then err "The first element of list must be a function"
            else
              let* ta := get_type args in
              if negb (ObjectType_eqb ta OT_NIL) && negb (ObjectType_eqb ta OT_CONS)
              then err "Function argument must be a list"
              else apply (S m) (eval (S m)) env fn args
        | O_SYMBOL name => env_lookup (S m) env name
        | O_PRIMITIVE _ => ret NULL
        end) s).
    destruct o as [|o']; [discriminate|].
    cbn [Nat.eqb NULL].
    rewrite (bind_ok _ _ _ _ _ (deref_ok _ _ _ Ho)).
    rewrite (bind_ok _ _ _ _ _ Hf).
    rewrite (bind_ok _ _ _ _ _ (get_cdr_ok _ _ _ _ Ho)).
    rewrite (bind_ok _ _ _ _ _ (get_type_ok _ _ _ Hp)).
    cbn [type_of ObjectType_eqb negb andb].
    rewrite (bind_ok _ _ _ _ _ (get_type_ok _ _ _ HNil)).
    cbn [type_of ObjectType_eqb negb andb].
    unfold apply.
    rewrite (bind_ok _ _ _ _ _ (deref_ok _ _ _ Hp)).
    reflexivity. }
  split; intros E; rewrite (Hcall _ E); reflexivity.
Qed.

Definition s_and : State := state_of (load 10 1 "(and)").

Lemma and_or_without_arguments_witness :
  (forall fuel ev env', primitive_and (S fuel) ev env' Nil s_and = Ok True' s_and
                   /\ primitive_or (S fuel) ev env' Nil s_and = Ok Nil s_and)
  /\ (P_and = P_and -> eval 4 1%nat 25%nat s_and = Ok True' s_and)
  /\ (P_and = P_or -> eval 4 1%nat 25%nat s_and = Ok Nil s_and).
Proof.
  apply (and_or_without_arguments 3 1%nat s_and 25%nat 24%nat 3%nat P_and);
    vm_compute; reflexivity.
Defined.

Lemma eval_S n env o :
  eval (S n) env o =
  if (o =? NULL)%nat then ret NULL else
    let* obj := deref o in
    match obj with
    | O_INT _ | O_FUNCTION _ _ | O_TRUE | O_NIL => ret o
    | O_CONS car _ =>
        let* fn := eval n env car in
        let* args := get_cdr o in
        let* tf := get_type fn in
        if negb (ObjectType_eqb tf OT_PRIMITIVE) && negb (ObjectType_eqb tf OT_FUNCTION)
        then err "The first element of list must be a function"
        else
          let* ta := get_type args in
          if negb (ObjectType_eqb ta OT_NIL) && negb (ObjectType_eqb ta OT_CONS)
          then err "Function argument must be a list"
          else apply n (eval n) env fn args
    | O_SYMBOL name => env_lookup n env name
    | O_PRIMITIVE _ => ret NULL
    end.
Proof. reflexivity. Qed.

Definition newline : string := String "010"%char EmptyString.

(** * car and cdr (C6) *)

(** C6. [car] and [cdr] return the field of a single pair argument and
    report an error on a non-pair argument or on two arguments; with no
    argument at all, however, they read the [car] field of [Nil]
    before any check and end in undefined behaviour instead of an
    error.  The first part is stated for every heap whose first cell is
    the atom [Nil], the rest on runs from the root environment. *)
Theorem car_cdr_argument_check :
  (forall fuel ev env h fr i o,
      primitive_car (S fuel) ev env Nil (mkState (O_NIL :: h) fr i o) = Crash
      /\ primitive_cdr (S fuel) ev env Nil (mkState (O_NIL :: h) fr i o) = Crash)
  /\ observe (run 20 1 "(car)") = Crashed
  /\ observe (run 20 1 "(cdr)") = Crashed
  /\ observe (run 20 1 "(car 5)") = Failed "car accepts single list argument only"
  /\ observe (run 20 1 "(cdr 5)") = Failed "cdr accepts single list argument only"
  /\ observe (run 20 1 "(car (cons 1 2) 3)") = Failed "car accepts single list argument only"
  /\ observe (run 20 1 "(cdr (cons 1 2) 3)") = Failed "cdr accepts single list argument only"
  /\ observe (run 20 1 "(car (cons 1 2))") = Returned (Some (O_INT 1)) ""
  /\ observe (run 20 1 "(cdr (cons 1 2))") = Returned (Some (O_INT 2)) "".
Proof.
  split; [intros; split; reflexivity|].
  repeat split; vm_compute; reflexivity.
Qed.

(** * Printing pairs (C8) *)

(** C8. A proper list prints as its elements between parentheses,
    separated by single spaces; on a chain of pairs whose last [cdr] is
    not [Nil], [print] goes on to read the [car] field of that last
    object, which is not a pair: nothing is printed for it and the run
    ends in undefined behaviour.  Stated for the pair of any two
    integers, and on runs from the root environment. *)
Theorem print_improper_list :
  (forall fuel x y fr i o,
      print (S (S (S fuel))) 5%nat
        (mkState [O_NIL; O_TRUE; O_INT x; O_INT y; O_CONS 3%nat 4%nat] fr i o) = Crash)
  /\ observe (run 30 1 "(println (cons 1 2))") = Crashed
  /\ observe (run 30 1 "(println (cons 1 (cons 2 Nil)))")
     = Returned (Some O_NIL) ("(1 2)" +:+ newline)
  /\ observe (run 30 1 "(println (quote (1 (2 3) x)))")
     = Returned (Some O_NIL) ("(1 (2 3) x)" +:+ newline).
Proof.
  split; [intros; reflexivity|].
  repeat split; vm_compute; reflexivity.
Qed.

(** * Integer literals (C5) *)

(** C5. On a token that starts with a digit, [read] calls
    [read_number] without the argument [isPositive]: the magnitude is
    accumulated as claimed, but its sign is decided by an indeterminate
    value.  Where that value is zero the token [5] reads as [-5].  A
    token that starts with [-] and a digit passes [0] and reads as the
    negated magnitude. *)
Theorem read_number_missing_argument :
  (forall junk,
      exists s', read junk 5 (initial_state (list_ascii_of_string "5")) = Ok 3%nat s'
                 /\ obj_at s' 3%nat = Some (O_INT (if junk =? 0 then -5 else 5)))
  /\ (exists s', read 0 5 (initial_state (list_ascii_of_string "5")) = Ok 3%nat s'
                 /\ obj_at s' 3%nat = Some (O_INT (-5)))
  /\ (forall junk,
      exists s', read junk 5 (initial_state (list_ascii_of_string "-12")) = Ok 3%nat s'
                 /\ obj_at s' 3%nat = Some (O_INT (-12))).
Proof.
  split; [|split].
  - intros junk. eexists. split; [reflexivity|].
    destruct (junk =? 0); reflexivity.
  - eexists. split; reflexivity.
  - intros junk. eexists. split; reflexivity.
Qed.

(** * Closure construction (C7) *)

(** [p] designates a symbol, as a test. *)
Definition symbolb (s : State) (p : ptr) : bool :=
  match obj_at s p with
  | Some (O_SYMBOL _) => true
  | _ => false
  end.

(** The loop of [create_function] over a parameter list whose elements
    are allocated objects: it passes when all of them are symbols and
    stops with the error at the first one that is not. *)
Lemma check_params_cells s p l e :
  cells s p l e -> not_pair s e -> Forall (fun a => is_Some (obj_at s a)) l ->
  forall fuel, (length l < fuel)%nat ->
  check_params fuel p s
  = if forallb (symbolb s) l then Ok tt s
    else Error "function parameter must be a symbol".
Proof.
  induction 1 as [p|p a d l e Hp Hcells IH]; intros He Hl fuel Hfuel.
  - destruct fuel as [|n]; [simpl in Hfuel; lia|].
    destruct He as (o & Ho & Hty). simpl.
    rewrite (bind_ok _ _ _ _ _ (get_type_ok _ _ _ Ho)).
    destruct o; simpl; try reflexivity. now elim Hty.
  - destruct fuel as [|n]; [simpl in Hfuel; lia|].
    apply Forall_cons in Hl as [[oa Ha] Hl]. simpl.
    rewrite (bind_ok _ _ _ _ _ (get_type_ok _ _ _ Hp)). simpl.
    rewrite (bind_ok _ _ _ _ _ (get_car_ok _ _ _ _ Hp)).
    rewrite (bind_ok _ _ _ _ _ (get_type_ok _ _ _ Ha)).
    unfold symbolb at 1. rewrite Ha.
    destruct oa; simpl; try reflexivity.
    rewrite (bind_ok _ _ _ _ _ (get_cdr_ok _ _ _ _ Hp)).
    apply IH; auto. simpl in Hfuel. lia.
Qed.

(** C7, as the code has it.  Closure construction inspects the
    parameter list only.  When some parameter is not a symbol, [lambda]
    is rejected with the error of [create_function]; when all of them
    are symbols it succeeds whatever the body is, the empty body [Nil]
    included, and the closure it returns holds exactly the parameter
    list and the body it was given. *)
Theorem lambda_accepts_any_body
    (fuel : nat) (ev : evaluator) (env : envptr) (s : State)
    (args params body e : ptr) (l : list ptr) :
  obj_at s args = Some (O_CONS params body) ->
  cells s params l e -> not_pair s e ->
  Forall (fun a => is_Some (obj_at s a)) l ->
  (length l < fuel)%nat ->
  primitive_lambda fuel ev env args s
  = (if forallb (symbolb s) l
     then Ok (S (length (heap s))) (with_heap s (heap s ++ [O_FUNCTION params body]))
     else Error "function parameter must be a symbol")
  /\ obj_at (with_heap s (heap s ++ [O_FUNCTION params body])) (S (length (heap s)))
     = Some (O_FUNCTION params body).
Proof.
  intros Hargs Hcells He Hl Hfuel. split; [|apply obj_at_alloc_new].
  unfold primitive_lambda, create_function.
  rewrite (bind_ok _ _ _ _ _ (get_car_ok _ _ _ _ Hargs)).
  rewrite (bind_ok _ _ _ _ _ (get_cdr_ok _ _ _ _ Hargs)).
  unfold bind at 1.
  rewrite (check_params_cells _ _ _ _ Hcells He Hl _ Hfuel).
  now destruct (forallb (symbolb s) l).
Qed.

Definition s_lambda : State := state_of (load 20 1 "(lambda (x y))").

Definition s_lambda_bad : State := state_of (load 20 1 "(lambda (x 1) x)").

(** The argument list of [(lambda (x y))] is the cell at address 30:
    parameters [(x y)] at 27, body [Nil].  The argument list of
    [(lambda (x 1) x)] is the cell at address 30 too: parameters
    [(x 1)] at 27, whose second element is the integer at address 28,
    body at 32. *)
Lemma lambda_accepts_any_body_witness :
  primitive_lambda 3 (eval 3) 1%nat 30%nat s_lambda
  = Ok (S (length (heap s_lambda)))
       (with_heap s_lambda (heap s_lambda ++ [O_FUNCTION 27%nat Nil]))
  /\ primitive_lambda 3 (eval 3) 1%nat 30%nat s_lambda_bad
     = Error "function parameter must be a symbol".
Proof.
  split.
  - etransitivity.
    + refine (proj1 (lambda_accepts_any_body 3 (eval 3) 1%nat s_lambda 30%nat 27%nat
                       Nil Nil [26%nat; 28%nat] _ _ _ _ _)).
      * vm_compute; reflexivity.
      * apply cells_step with (d := 29%nat); [vm_compute; reflexivity|].
        apply cells_step with (d := Nil); [vm_compute; reflexivity|].
        apply cells_end.
      * exists O_NIL. split; [vm_compute; reflexivity|discriminate].
      * repeat constructor; eexists; vm_compute; reflexivity.
      * simpl; lia.
    + vm_compute; reflexivity.
  - etransitivity.
    + refine (proj1 (lambda_accepts_any_body 3 (eval 3) 1%nat s_lambda_bad 30%nat 27%nat
                       32%nat Nil [26%nat; 28%nat] _ _ _ _ _)).
      * vm_compute; reflexivity.
      * apply cells_step with (d := 29%nat); [vm_compute; reflexivity|].
        apply cells_step with (d := Nil); [vm_compute; reflexivity|].
        apply cells_end.
      * exists O_NIL. split; [vm_compute; reflexivity|discriminate].
      * repeat constructor; eexists; vm_compute; reflexivity.
      * simpl; lia.
    + vm_compute; reflexivity.
Defined.

(** The claim as stated fails: evaluating [(lambda ())] from the root
    environment constructs a closure whose body is the empty list. *)
Lemma lambda_empty_body_accepted :
  exists fn s', run 20 1 "(lambda ())" = Ok fn s'
                /\ obj_at s' fn = Some (O_FUNCTION Nil Nil).
Proof. eexists _, _. split; vm_compute; reflexivity. Qed.

(** * Stepping through computations *)

Lemma check_params_state fuel : forall p s u s',
  check_params fuel p s = Ok u s' -> s' = s.
Proof.
  induction fuel as [|n IH]; intros p s u s' H; [discriminate|].
  simpl in H.
  apply bind_inv in H as (t & s1 & Ht & H).
  unfold get_type in Ht. apply bind_inv in Ht as (o & s2 & Ho & Ht).
  apply deref_inv in Ho as [-> Ho]. injection Ht as <- <-.
  destruct (ObjectType_eqb (type_of o) OT_CONS); [|now injection H as _ <-].
  apply bind_inv in H as (a & s1 & Ha & H).
  unfold get_car in Ha. rewrite (bind_ok _ _ _ _ _ (deref_ok _ _ _ Ho)) in Ha.
  destruct o; try discriminate. injection Ha as <- <-.
  apply bind_inv in H as (ta & s1 & Hta & H).
  unfold get_type in Hta. apply bind_inv in Hta as (oa & s2 & Hoa & Hta).
  apply deref_inv in Hoa as [-> Hoa]. injection Hta as <- <-.
  destruct (negb (ObjectType_eqb (type_of oa) OT_SYMBOL)); [discriminate|].
  rewrite (bind_ok _ _ _ _ _ (get_cdr_ok _ _ _ _ Ho)) in H.
  eauto.
Qed.

Lemma count_from_cells s p l e :
  cells s p l e -> not_pair s e ->
  forall fuel c, (length l < fuel)%nat ->
  count_from fuel p c s
  = Ok (if (e =? Nil)%nat then c + Z.of_nat (length l) else -1) s.
Proof.
  induction 1 as [p|p a d l e Hp Hcells IH]; intros He fuel c Hfuel.
  - destruct fuel as [|n]; [simpl in Hfuel; lia|].
    destruct He as (o & Ho & Hty). simpl.
    rewrite (bind_ok _ _ _ _ _ (deref_ok _ _ _ Ho)).
    rewrite Z.add_0_r.
    destruct o; try reflexivity. now elim Hty.
  - destruct fuel as [|n]; [simpl in Hfuel; lia|].
    simpl. rewrite (bind_ok _ _ _ _ _ (deref_ok _ _ _ Hp)).
    rewrite IH by (auto; simpl in Hfuel; lia).
    destruct (e =? Nil)%nat; [|reflexivity].
    f_equal. lia.
Qed.

Lemma count_cells s p l :
  cells s p l Nil -> obj_at s Nil = Some O_NIL ->
  forall fuel, (length l < fuel)%nat ->
  count fuel p s = Ok (Z.of_nat (length l)) s.
Proof.
  intros Hcells HNil fuel Hfuel. unfold count.
  rewrite (count_from_cells _ _ _ _ Hcells) by (try exists O_NIL; auto; split; auto; discriminate).
  reflexivity.
Qed.

(** * defun (C4) *)

(** What a binding form leaves for the rest of the program: the value
    returned with the object it designates and the frames, or the way
    the computation stopped. *)
Inductive summary : Type :=
| Done (v : ptr) (o : option Object) (fr : list Env)
| Stopped (msg : string)
| Undefined
| NoFuel.

Definition summarize (r : result ptr) : summary :=
  match r with
  | Ok v s => Done v (obj_at s v) (frames s)
  | Error msg => Stopped msg
  | Crash => Undefined
  | OutOfFuel => NoFuel
  end.

Lemma bind_assoc {A B C} (m : M A) (k : A -> M B) (k' : B -> M C) s :
  bind (bind m k) k' s = bind m (fun a => bind (k a) k') s.
Proof. unfold bind. now destruct (m s). Qed.

Lemma bind_congr {A B} (m : M A) (k1 k2 : A -> M B) s :
  (forall a s', m s = Ok a s' -> k1 a s' = k2 a s') -> bind m k1 s = bind m k2 s.
Proof. intros H. unfold bind. destruct (m s); auto. Qed.

Lemma bind_eq_l {A B} (m m' : M A) (k : A -> M B) s :
  m s = m' s -> bind m k s = bind m' k s.
Proof. intros H. unfold bind. now rewrite H. Qed.

Lemma env_lookup_frame fuel env name s p s' :
  env_lookup fuel env name s = Ok p s' -> exists f, frame_at s env = Some f.
Proof.
  destruct fuel as [|n]; [discriminate|]. simpl. intros H.
  apply bind_inv in H as (f & s1 & Hf & _).
  unfold env_get in Hf. destruct (frame_at s env) as [f'|]; [eauto|discriminate].
Qed.

Lemma ht_insert_ok s env f name v :
  frame_at s env = Some f ->
  ht_insert env name v s
  = Ok tt (with_frames s (<[pred env := mkEnv (<[name := v]> (ht f)) (parent f)]> (frames s))).
Proof.
  intros Hf. unfold ht_insert, env_get, env_put, bind.
  rewrite Hf. cbv beta iota. now rewrite Hf.
Qed.

(** C4.  Let [args] be the argument list [(name params body...)] of a
    [defun] form and [dargs] the argument list
    [(name (lambda params body...))] of the [define] form over the same
    name, parameter list and body, where [name] is a symbol and the
    symbol [lambda] resolves to the primitive [lambda].  Then [defun]
    and [define] end the same way: they return the same closure
    pointer, designating the same closure object, and leave the same
    frames, or they stop with the same error.  When the parameters pass
    the check of [create_function] the common result is the new
    closure over [params] and [body], bound to the name in the current
    frame. *)
Theorem defun_is_define_lambda
    (n : nat) (env : envptr) (s : State)
    (args name rest params body dargs dtail lam lamsym p : ptr) (nm : string) :
  obj_at s Nil = Some O_NIL ->
  obj_at s name = Some (O_SYMBOL nm) ->
  obj_at s rest = Some (O_CONS params body) ->
  obj_at s args = Some (O_CONS name rest) ->
  obj_at s dargs = Some (O_CONS name dtail) ->
  obj_at s dtail = Some (O_CONS lam Nil) ->
  obj_at s lam = Some (O_CONS lamsym rest) ->
  obj_at s lamsym = Some (O_SYMBOL "lambda") ->
  env_lookup (S (S n)) env "lambda" s = Ok p s ->
  obj_at s p = Some (O_PRIMITIVE P_lambda) ->
  summarize (primitive_defun (S (S (S n))) (eval (S (S (S n)))) env args s)
  = summarize (primitive_define (S (S (S (S n)))) (eval (S (S (S (S n))))) env dargs s)
  /\ (check_params (S (S (S n))) params s = Ok tt s ->
      exists f, frame_at s env = Some f /\
      summarize (primitive_defun (S (S (S n))) (eval (S (S (S n)))) env args s)
      = Done (S (length (heap s))) (Some (O_FUNCTION params body))
          (<[pred env := mkEnv (<[nm := S (length (heap s))]> (ht f)) (parent f)]>
             (frames s))).
Proof.
  intros HNil Hname Hrest Hargs Hdargs Hdtail Hlam Hlamsym Hlookup Hp.
  destruct (env_lookup_frame _ _ _ _ _ _ Hlookup) as [f Hf].
  set (F := S (S (S n))).
  set (fn := S (length (heap s))).
  set (s1 := with_heap s (heap s ++ [O_FUNCTION params body])).
  (* the closure construction shared by both forms *)
  assert (Hcreate : forall ev, primitive_lambda F ev env rest s
            = bind (check_params F params) (fun _ => new_object (O_FUNCTION params body)) s).
  { intros ev. unfold primitive_lambda, create_function.
    rewrite (bind_ok _ _ _ _ _ (get_car_ok _ _ _ _ Hrest)).
    now rewrite (bind_ok _ _ _ _ _ (get_cdr_ok _ _ _ _ Hrest)). }
  (* the define form *)
  assert (Hdefine :
    primitive_define (S F) (eval (S F)) env dargs s
    = bind (check_params F params) (fun _ => fun _ =>
        Ok fn (with_frames s1
                 (<[pred env := mkEnv (<[nm := fn]> (ht f)) (parent f)]> (frames s)))) s).
  { unfold primitive_define.
    rewrite (bind_ok _ _ _ _ _
               (count_cells s dargs [name; lam]
                  ltac:(eauto using cells) HNil (S F) ltac:(simpl; lia))).
    change (negb (Z.of_nat (length [name; lam]) =? 2)) with false; cbv iota.
    rewrite (bind_ok _ _ _ _ _ (get_car_ok _ _ _ _ Hdargs)).
    rewrite (bind_ok _ _ _ _ _ (get_type_ok _ _ _ Hname)).
    cbn [type_of ObjectType_eqb negb].
    rewrite (bind_ok _ _ _ _ _ (get_cdr_ok _ _ _ _ Hdargs)).
    rewrite (bind_ok _ _ _ _ _ (get_car_ok _ _ _ _ Hdtail)).
    assert (Hev : eval (S F) env lam s = primitive_lambda F (eval F) env rest s).
    { rewrite eval_S.
      destruct lam as [|lam']; [discriminate|]. cbn [Nat.eqb NULL].
      rewrite (bind_ok _ _ _ _ _ (deref_ok _ _ _ Hlam)).
      assert (Hsym : eval F env lamsym s = Ok p s).
      { unfold F. rewrite eval_S.
        destruct lamsym as [|l']; [discriminate|]. cbn [Nat.eqb NULL].
        now rewrite (bind_ok _ _ _ _ _ (deref_ok _ _ _ Hlamsym)). }
      rewrite (bind_ok _ _ _ _ _ Hsym).
      rewrite (bind_ok _ _ _ _ _ (get_cdr_ok _ _ _ _ Hlam)).
      rewrite (bind_ok _ _ _ _ _ (get_type_ok _ _ _ Hp)).
      cbn [type_of ObjectType_eqb negb andb].
      rewrite (bind_ok _ _ _ _ _ (get_type_ok _ _ _ Hrest)).
      cbn [type_of ObjectType_eqb negb andb].
      unfold apply. now rewrite (bind_ok _ _ _ _ _ (deref_ok _ _ _ Hp)). }
    rewrite (bind_eq_l _ _ _ _ (eq_trans Hev (Hcreate _))), bind_assoc.
    apply bind_congr. intros [] s' Hcheck.
    apply check_params_state in Hcheck as ->.
    rewrite (bind_ok _ _ _ fn s1) by reflexivity.
    assert (Hname1 : obj_at s1 name = Some (O_SYMBOL nm)) by now apply obj_at_alloc_old.
    assert (Hdargs1 : obj_at s1 dargs = Some (O_CONS name dtail)) by now apply obj_at_alloc_old.
    rewrite (bind_ok _ _ _ _ _ (get_car_ok _ _ _ _ Hdargs1)).
    rewrite (bind_ok _ _ _ _ _ (get_name_ok _ _ _ Hname1)).
    rewrite (bind_ok _ _ _ _ _ (ht_insert_ok s1 env f nm fn Hf)).
    reflexivity. }
  (* the defun form *)
  set (c := S (S (length (heap s)))).
  set (s2 := with_heap s1 (heap s1 ++ [O_CONS fn Nil])).
  set (s3 := with_heap s2 (<[pred args := O_CONS name c]> (heap s2))).
  assert (Hdefun :
    primitive_defun F (eval F) env args s
    = bind (check_params F params) (fun _ => fun _ =>
        Ok fn (with_frames s3
                 (<[pred env := mkEnv (<[nm := fn]> (ht f)) (parent f)]> (frames s)))) s).
  { unfold primitive_defun.
    rewrite (bind_ok _ _ _ _ _ (get_cdr_ok _ _ _ _ Hargs)).
    rewrite (bind_eq_l _ _ _ _ (Hcreate _)), bind_assoc.
    apply bind_congr. intros [] s' Hcheck.
    apply check_params_state in Hcheck as ->.
    rewrite (bind_ok _ _ _ fn s1) by reflexivity.
    assert (Hlen1 : length (heap s1) = S (length (heap s))).
    { unfold s1. simpl. rewrite length_app. simpl. lia. }
    assert (Hc : cons fn Nil s1 = Ok c s2).
    { unfold cons, new_object, c. now rewrite Hlen1. }
    rewrite (bind_ok _ _ _ _ _ Hc).
    assert (Hargs2 : obj_at s2 args = Some (O_CONS name rest))
      by now apply obj_at_alloc_old, obj_at_alloc_old.
    assert (Hset : set_cdr args c s2 = Ok tt s3).
    { unfold set_cdr. rewrite (bind_ok _ _ _ _ _ (deref_ok _ _ _ Hargs2)).
      unfold store. now rewrite Hargs2. }
    rewrite (bind_ok _ _ _ _ _ Hset).
    assert (Hne : forall q o, obj_at s q = Some o -> o <> O_CONS name rest ->
                  obj_at s3 q = Some o).
    { intros q o Hq Ho. unfold s3.
      rewrite (obj_at_store_ne s2 args q _ _ Hargs2) by congruence.
      now apply obj_at_alloc_old, obj_at_alloc_old. }
    assert (Hargs3 : obj_at s3 args = Some (O_CONS name c))
      by apply (obj_at_store_eq s2 args _ _ Hargs2).
    assert (Hfresh : forall q, (length (heap s) < q)%nat -> q <> args).
    { intros q Hq ->. apply obj_at_lt in Hargs. lia. }
    assert (Hc3 : obj_at s3 c = Some (O_CONS fn Nil)).
    { unfold s3. rewrite (obj_at_store_ne s2 args c _ _ Hargs2).
      - unfold s2, c. rewrite <- Hlen1. apply obj_at_alloc_new.
      - intros E. symmetry in E. revert E. apply Hfresh. unfold c. lia. }
    assert (Hfn3 : obj_at s3 fn = Some (O_FUNCTION params body)).
    { unfold s3. rewrite (obj_at_store_ne s2 args fn _ _ Hargs2).
      - apply obj_at_alloc_old. apply obj_at_alloc_new.
      - intros E. symmetry in E. revert E. apply Hfresh. unfold fn. lia. }
    assert (HNil3 : obj_at s3 Nil = Some O_NIL) by (apply Hne; [auto|discriminate]).
    assert (Hname3 : obj_at s3 name = Some (O_SYMBOL nm)) by (apply Hne; [auto|discriminate]).
    unfold primitive_define.
    rewrite (bind_ok _ _ _ _ _
               (count_cells s3 args [name; fn]
                  ltac:(eauto using cells) HNil3 F ltac:(unfold F; simpl; lia))).
    change (negb (Z.of_nat (length [name; fn]) =? 2)) with false; cbv iota.
    rewrite (bind_ok _ _ _ _ _ (get_car_ok _ _ _ _ Hargs3)).
    rewrite (bind_ok _ _ _ _ _ (get_type_ok _ _ _ Hname3)).
    cbn [type_of ObjectType_eqb negb].
    rewrite (bind_ok _ _ _ _ _ (get_cdr_ok _ _ _ _ Hargs3)).
    rewrite (bind_ok _ _ _ _ _ (get_car_ok _ _ _ _ Hc3)).
    assert (Hev : eval F env fn s3 = Ok fn s3).
    { unfold F. rewrite eval_S. unfold fn at 1. cbn [Nat.eqb NULL].
      now rewrite (bind_ok _ _ _ _ _ (deref_ok _ _ _ Hfn3)). }
    rewrite (bind_ok _ _ _ _ _ Hev).
    rewrite (bind_ok _ _ _ _ _ (get_car_ok _ _ _ _ Hargs3)).
    rewrite (bind_ok _ _ _ _ _ (get_name_ok _ _ _ Hname3)).
    rewrite (bind_ok _ _ _ _ _ (ht_insert_ok s3 env f nm fn Hf)).
    reflexivity. }
  fold F. rewrite Hdefun, Hdefine. unfold bind.
  assert (Hobj1 : obj_at s1 fn = Some (O_FUNCTION params body))
    by apply obj_at_alloc_new.
  assert (Hobj3 : obj_at s3 fn = Some (O_FUNCTION params body)).
  { unfold s3.
    assert (Hargs2 : obj_at s2 args = Some (O_CONS name rest))
      by now apply obj_at_alloc_old, obj_at_alloc_old.
    rewrite (obj_at_store_ne s2 args fn _ _ Hargs2).
    - apply obj_at_alloc_old. apply obj_at_alloc_new.
    - intros E. apply obj_at_lt in Hargs. unfold fn in E. lia. }
  split.
  - destruct (check_params F params s) as [[] s'| | |]; try reflexivity.
    unfold summarize. cbn [frames with_frames].
    change (obj_at (with_frames s3 _) fn) with (obj_at s3 fn).
    change (obj_at (with_frames s1 _) fn) with (obj_at s1 fn).
    now rewrite Hobj1, Hobj3.
  - intros ->. exists f. split; [assumption|].
    unfold summarize. cbn [frames with_frames].
    change (obj_at (with_frames s3 _) fn) with (obj_at s3 fn).
    now rewrite Hobj3.
Qed.

(** A heap holding both forms over shared name, parameters and body:
    [(defun f (x) x)] has its argument list at 29 and
    [(define f (lambda (x) x))] at 33. *)
Definition s_defun : State :=
  let base := state_of (env_init (initial_state [])) in
  with_heap base
    (heap base ++
     [O_SYMBOL "f"; O_SYMBOL "x"; O_CONS 25%nat Nil; O_CONS 25%nat Nil;
      O_CONS 26%nat 27%nat; O_CONS 24%nat 28%nat; O_SYMBOL "lambda";
      O_CONS 30%nat 28%nat; O_CONS 31%nat Nil; O_CONS 24%nat 32%nat]).

Lemma defun_is_define_lambda_witness :
  summarize (primitive_defun 3 (eval 3) 1%nat 29%nat s_defun)
  = summarize (primitive_define 4 (eval 4) 1%nat 33%nat s_defun)
  /\ (check_params 3 26%nat s_defun = Ok tt s_defun ->
      exists f, frame_at s_defun 1%nat = Some f /\
      summarize (primitive_defun 3 (eval 3) 1%nat 29%nat s_defun)
      = Done (S (length (heap s_defun))) (Some (O_FUNCTION 26%nat 27%nat))
          (<[pred 1%nat := mkEnv (<["f" := S (length (heap s_defun))]> (ht f)) (parent f)]>
             (frames s_defun))).
Proof.
  apply (defun_is_define_lambda 0 1%nat s_defun 29%nat 24%nat 28%nat 26%nat 27%nat
           33%nat 32%nat 31%nat 30%nat 13%nat "f");
    vm_compute; reflexivity.
Defined.

(** * Which primitives write to existing pairs (C9) *)

(** The two primitives that store into a pair they did not allocate:
    [setcar] writes the [car] field of its first argument and [defun]
    the [cdr] field of its own argument list. *)
Definition writer (fn : Primitive) : bool :=
  match fn with
  | P_setcar | P_defun => true
  | _ => false
  end.

Lemma prefix_insert_beyond {A} (h0 h : list A) i x :
  h0 `prefix_of` h -> (length h0 <= i)%nat -> h0 `prefix_of` <[i := x]> h.
Proof.
  intros [k ->] Hi. exists (<[(i - length h0)%nat := x]> k).
  now rewrite insert_app_r_alt.
Qed.

(** ** Runs under restriction *)

(** Two devices serve to say where a write to an existing object comes
    from.  The first is an evaluator under watch: [watch h ev] is [ev],
    except that the run stops as soon as an evaluation by [ev] returns
    in a state where the objects of [h] are no longer all there,
    unchanged. *)
#[local] Instance Primitive_eq_dec : EqDecision Primitive.
Proof. solve_decision. Defined.

#[local] Instance Object_eq_dec : EqDecision Object.
Proof. solve_decision. Defined.

Definition object_changed : string := "an existing object was changed".

Definition watch (h : list Object) (ev : evaluator) : evaluator :=
  fun env o s =>
    match ev env o s with
    | Ok v s' =>
        if bool_decide (h `prefix_of` heap s') then Ok v s' else Error object_changed
    | r => r
    end.

(** The second is the evaluator without the two writers.  [apply_with]
    and [eval_with] are [apply] and [eval] over a dispatch [call] in
    place of the call through the function pointer; with
    [call_no_writer] for [call], a call of [setcar] or [defun] stops
    the run and every other primitive is called as [apply] calls it. *)
Definition apply_with (call : Primitive -> nat -> evaluator -> envptr -> ptr -> M ptr)
    (fuel : nat) (ev : evaluator) (env : envptr) (o args : ptr) : M ptr :=
  let* obj := deref o in
  match obj with
  | O_PRIMITIVE fn => call fn fuel ev env args
  | O_FUNCTION params _ =>
      let* args := eval_args fuel ev env args in
      let* env_child := env_create in
      let* _ := set_parent env_child env in
      let* _ := bind_params fuel env_child params args in
      let* body := get_body o in
      progn fuel ev env_child body
  | _ => ret NULL
  end.

Fixpoint eval_with (call : Primitive -> nat -> evaluator -> envptr -> ptr -> M ptr)
    (fuel : nat) (env : envptr) (o : ptr) : M ptr :=
  match fuel with
  | O => out_of_fuel
  | S n =>
      if (o =? NULL)%nat then ret NULL
      else
        let* obj := deref o in
        match obj with
        | O_INT _ | O_FUNCTION _ _ | O_TRUE | O_NIL => ret o
        | O_CONS car _ =>
            let* fn := eval_with call n env car in
            let* args := get_cdr o in
            let* tf := get_type fn in
            if negb (ObjectType_eqb tf OT_PRIMITIVE) && negb (ObjectType_eqb tf OT_FUNCTION)
            then err "The first element of list must be a function"
            else
              let* ta := get_type args in
              if negb (ObjectType_eqb ta OT_NIL) && negb (ObjectType_eqb ta OT_CONS)
              then err "Function argument must be a list"
              else apply_with call n (eval_with call n) env fn args
        | O_SYMBOL name => env_lookup n env name
        | O_PRIMITIVE _ => ret NULL
        end
  end.

Definition writer_called : string := "setcar or defun was called".

Definition call_no_writer (fn : Primitive) : nat -> evaluator -> envptr -> ptr -> M ptr :=
  if writer fn then fun _ _ _ _ => err writer_called else call_primitive fn.

(** The primitives the claim lists. *)
Definition listed (fn : Primitive) : bool :=
  match fn with
  | P_car | P_cdr | P_cons | P_plus | P_minus | P_multi
  | P_eq | P_lt | P_gt | P_obj_eq | P_quote | P_println => true
  | _ => false
  end.

Lemma eval_with_S call n env o :
  eval_with call (S n) env o =
  if (o =? NULL)%nat then ret NULL else
    let* obj := deref o in
    match obj with
    | O_INT _ | O_FUNCTION _ _ | O_TRUE | O_NIL => ret o
    | O_CONS car _ =>
        let* fn := eval_with call n env car in
        let* args := get_cdr o in
        let* tf := get_type fn in
        if negb (ObjectType_eqb tf OT_PRIMITIVE) && negb (ObjectType_eqb tf OT_FUNCTION)
        then err "The first element of list must be a function"
        else
          let* ta := get_type args in
          if negb (ObjectType_eqb ta OT_NIL) && negb (ObjectType_eqb ta OT_CONS)
          then err "Function argument must be a list"
          else apply_with call n (eval_with call n) env fn args
    | O_SYMBOL name => env_lookup n env name
    | O_PRIMITIVE _ => ret NULL
    end.
Proof. reflexivity. Qed.

(** ** Runs that stop early *)

(** [early msg m1 m2]: [m1] ends as [m2] does, or stops with [msg]. *)
Definition early {A} (msg : string) (m1 m2 : M A) : Prop :=
  forall s, m1 s = m2 s \/ m1 s = Error msg.

Lemma early_refl {A} msg (m : M A) : early msg m m.
Proof. intros s. now left. Qed.

Lemma early_bind {A B} msg (m1 m2 : M A) (k1 k2 : A -> M B) :
  early msg m1 m2 -> (forall a, early msg (k1 a) (k2 a)) ->
  early msg (bind m1 k1) (bind m2 k2).
Proof.
  intros Hm Hk s. unfold bind. destruct (Hm s) as [->| ->]; [|now right].
  destruct (m2 s); auto. apply Hk.
Qed.

Lemma early_err {A} msg (m : M A) : early msg (err msg) m.
Proof. intros s. now right. Qed.

Lemma early_ok {A} msg (m1 m2 : M A) s a s' :
  early msg m1 m2 -> m1 s = Ok a s' -> m2 s = Ok a s'.
Proof. intros H E. destruct (H s) as [<-|E']; congruence. Qed.

Lemma early_watch h ev env o : early object_changed (watch h ev env o) (ev env o).
Proof.
  intros s. unfold watch. destruct (ev env o s); auto.
  destruct (bool_decide _); auto.
Qed.

Create HintDb early.

#[local] Hint Resolve early_refl early_err : early.

Ltac early_step :=
  lazymatch goal with
  | |- early _ ?m ?m => apply early_refl
  | |- early _ (bind _ _) (bind _ _) => apply early_bind; [|intros ?]
  | |- early _ (if ?b then _ else _) _ => destruct b
  | |- early _ (match ?x with _ => _ end) _ => destruct x
  | |- early _ _ _ => solve [eauto with early]
  end.

Ltac early_fix fuel :=
  induction fuel as [|? ?]; intros; simpl; [apply early_refl|];
  repeat early_step.

Section Early.

(** The functions that take the evaluator, for an evaluator [ev1] that
    ends as [ev2] does or stops with [msg]. *)
Variable msg : string.
Variables ev1 ev2 : evaluator.
Hypothesis ev_early : forall env o, early msg (ev1 env o) (ev2 env o).

#[local] Hint Resolve ev_early : early.

Lemma early_eval_args_loop fuel env : forall o first last,
  early msg (eval_args_loop fuel ev1 env o first last)
            (eval_args_loop fuel ev2 env o first last).
Proof. early_fix fuel. Qed.

Lemma early_eval_args fuel env o :
  early msg (eval_args fuel ev1 env o) (eval_args fuel ev2 env o).
Proof. apply early_eval_args_loop. Qed.

Lemma early_progn_loop fuel env : forall args last,
  early msg (progn_loop fuel ev1 env args last) (progn_loop fuel ev2 env args last).
Proof. early_fix fuel. Qed.

Lemma early_progn fuel env args :
  early msg (progn fuel ev1 env args) (progn fuel ev2 env args).
Proof. apply early_progn_loop. Qed.

Lemma early_primitive_and fuel env : forall args,
  early msg (primitive_and fuel ev1 env args) (primitive_and fuel ev2 env args).
Proof. early_fix fuel. Qed.

Lemma early_primitive_or fuel env : forall args,
  early msg (primitive_or fuel ev1 env args) (primitive_or fuel ev2 env args).
Proof. early_fix fuel. Qed.

#[local] Hint Resolve early_eval_args early_progn early_primitive_and
  early_primitive_or : early.

Lemma early_while_loop fuel env : forall args,
  early msg (while_loop fuel ev1 env args) (while_loop fuel ev2 env args).
Proof. early_fix fuel. Qed.

#[local] Hint Resolve early_while_loop : early.

Lemma early_call_primitive fn fuel env args :
  early msg (call_primitive fn fuel ev1 env args) (call_primitive fn fuel ev2 env args).
Proof.
  destruct fn; simpl;
    unfold primitive_car, primitive_cdr, primitive_cons, primitive_define,
      primitive_defun, primitive_eq, primitive_gt, primitive_lt, compare_ints,
      primitive_if, primitive_lambda, primitive_minus, primitive_multi,
      primitive_obj_eq, primitive_plus, primitive_println, primitive_progn,
      primitive_setcar, primitive_quote, primitive_while, primitive_define,
      primitive_lambda;
    repeat early_step.
Qed.

Lemma early_apply fuel env o args :
  early msg (apply fuel ev1 env o args) (apply fuel ev2 env o args).
Proof.
  unfold apply. apply early_bind; [apply early_refl|intros obj].
  destruct obj; try apply early_refl.
  - apply early_call_primitive.
  - repeat early_step.
Qed.

End Early.

Lemma early_eval_no_writer fuel : forall env o,
  early writer_called (eval_with call_no_writer fuel env o) (eval fuel env o).
Proof.
  induction fuel as [|n IH]; intros env o; [apply early_refl|].
  rewrite eval_S, eval_with_S.
  destruct (o =? NULL)%nat; [apply early_refl|].
  apply early_bind; [apply early_refl|intros obj].
  destruct obj; try apply early_refl.
  apply early_bind; [apply IH|intros fn].
  apply early_bind; [apply early_refl|intros args].
  apply early_bind; [apply early_refl|intros tf].
  destruct (_ && _); [apply early_refl|].
  apply early_bind; [apply early_refl|intros ta].
  destruct (_ && _); [apply early_refl|].
  unfold apply_with, apply. apply early_bind; [apply early_refl|intros obj].
  destruct obj; try apply early_refl.
  - unfold call_no_writer. destruct (writer function); [apply early_err|].
    now apply early_call_primitive.
  - repeat (apply early_bind; [|intros ?]); try apply early_refl.
    + now apply early_eval_args.
    + now apply early_progn.
Qed.

Section Preservation.

(** [h0] is the heap some computation started from; a state is good
    when it still holds the objects of [h0], unchanged. *)
Variable h0 : list Object.
Hypothesis h0_Nil : h0 !! 0%nat = Some O_NIL.

Definition good (s : State) : Prop := h0 `prefix_of` heap s.

(** Allocated after [h0]. *)
Definition fresh (p : ptr) : Prop := (length h0 < p)%nat.

(** [m] keeps the cells of [h0] as they are, and its results satisfy [Q]. *)
Definition keeps {A} (m : M A) (Q : A -> Prop) : Prop :=
  forall s a s', good s -> m s = Ok a s' -> good s' /\ Q a.

Definition any {A} (a : A) : Prop := True.

Lemma keeps_ret {A} (a : A) (Q : A -> Prop) : Q a -> keeps (ret a) Q.
Proof. intros H s a' s' Hs [= <- <-]. auto. Qed.

Lemma keeps_bind {A B} (m : M A) (k : A -> M B) Q1 Q :
  keeps m Q1 -> (forall a, Q1 a -> keeps (k a) Q) -> keeps (bind m k) Q.
Proof.
  intros Hm Hk s b s' Hs H.
  apply bind_inv in H as (a & s1 & H1 & H2).
  destruct (Hm _ _ _ Hs H1) as [Hs1 Ha]. eapply Hk; eauto.
Qed.

Lemma keeps_weaken {A} (m : M A) (Q Q' : A -> Prop) :
  keeps m Q -> (forall a, Q a -> Q' a) -> keeps m Q'.
Proof. intros Hm HQ s a s' Hs H. destruct (Hm _ _ _ Hs H). auto. Qed.

Lemma keeps_err {A} msg (Q : A -> Prop) : keeps (err msg) Q.
Proof. intros s a s' _ H. discriminate. Qed.

Lemma keeps_crash {A} (Q : A -> Prop) : keeps crash Q.
Proof. intros s a s' _ H. discriminate. Qed.

Lemma keeps_out_of_fuel {A} (Q : A -> Prop) : keeps out_of_fuel Q.
Proof. intros s a s' _ H. discriminate. Qed.

Lemma keeps_deref p : keeps (deref p) any.
Proof.
  intros s o s' Hs H. apply deref_inv in H as [-> Ho]. split; [assumption|exact I].
Qed.

Lemma keeps_get_type p : keeps (get_type p) any.
Proof. eapply keeps_bind; [apply keeps_deref|]. intros; now apply keeps_ret. Qed.

Lemma keeps_get_car p : keeps (get_car p) any.
Proof.
  eapply keeps_bind; [apply keeps_deref|].
  intros [] _; first [now apply keeps_ret | apply keeps_crash].
Qed.

Lemma keeps_get_cdr p : keeps (get_cdr p) any.
Proof.
  eapply keeps_bind; [apply keeps_deref|].
  intros [] _; first [now apply keeps_ret | apply keeps_crash].
Qed.

Lemma keeps_field_car p : keeps (field_car p) any.
Proof.
  eapply keeps_bind; [apply keeps_deref|].
  intros [] _; first [now apply keeps_ret | apply keeps_crash].
Qed.

Lemma keeps_field_cdr p : keeps (field_cdr p) any.
Proof.
  eapply keeps_bind; [apply keeps_deref|].
  intros [] _; first [now apply keeps_ret | apply keeps_crash].
Qed.

Lemma keeps_get_value p : keeps (get_value p) any.
Proof.
  eapply keeps_bind; [apply keeps_deref|].
  intros [] _; first [now apply keeps_ret | apply keeps_crash].
Qed.

Lemma keeps_get_name p : keeps (get_name p) any.
Proof.
  eapply keeps_bind; [apply keeps_deref|].
  intros [] _; first [now apply keeps_ret | apply keeps_crash].
Qed.

Lemma keeps_get_body p : keeps (get_body p) any.
Proof.
  eapply keeps_bind; [apply keeps_deref|].
  intros [] _; first [now apply keeps_ret | apply keeps_crash].
Qed.

Lemma keeps_new_object o : keeps (new_object o) fresh.
Proof.
  intros s p s' Hpre [= <- <-]. split.
  - now apply prefix_app_r.
  - unfold fresh. apply prefix_length in Hpre. lia.
Qed.

Lemma keeps_cons a d : keeps (cons a d) fresh.
Proof. apply keeps_new_object. Qed.

Lemma keeps_store_fresh p o : fresh p -> keeps (store p o) any.
Proof.
  intros Hp s u s' Hpre H. unfold store in H.
  destruct (obj_at s p) eqn:E; [|discriminate]. injection H as _ <-.
  split; [|exact I]. unfold good. simpl.
  apply prefix_insert_beyond; [assumption|]. unfold fresh in Hp. lia.
Qed.

(** A write to a pair cell that is [Nil] or fresh: on [Nil] it finds no
    pair and the run ends, on a fresh cell it is outside [h0]. *)
Lemma keeps_set_cdr p v : p = Nil \/ fresh p -> keeps (set_cdr p v) any.
Proof.
  intros [->|Hp].
  - intros s u s' Hpre H. exfalso.
    unfold set_cdr in H. apply bind_inv in H as (o & s1 & Ho & H).
    apply deref_inv in Ho as [-> Ho]. simpl in Ho.
    rewrite (prefix_lookup_Some _ _ _ _ h0_Nil Hpre) in Ho.
    injection Ho as <-. discriminate.
  - eapply keeps_bind; [apply keeps_deref|].
    intros [] _; first [now apply keeps_store_fresh | apply keeps_crash].
Qed.

Lemma keeps_heap_same {A} (m : M A) :
  (forall s a s', m s = Ok a s' -> heap s' = heap s) -> keeps m any.
Proof.
  intros Hm s a s' Hs H. apply Hm in H. unfold good. rewrite H.
  split; [assumption|exact I].
Qed.

Lemma keeps_printf text : keeps (printf text) any.
Proof. apply keeps_heap_same. now intros s a s' [= _ <-]. Qed.

Lemma keeps_env_get e : keeps (env_get e) any.
Proof.
  apply keeps_heap_same. intros s a s'. unfold env_get.
  destruct (frame_at s e); [|discriminate]. now intros [= _ <-].
Qed.

Lemma keeps_env_put e f : keeps (env_put e f) any.
Proof.
  apply keeps_heap_same. intros s a s'. unfold env_put.
  destruct (frame_at s e); [|discriminate]. now intros [= _ <-].
Qed.

Lemma keeps_env_create : keeps env_create any.
Proof. apply keeps_heap_same. now intros s a s' [= _ <-]. Qed.

Lemma keeps_set_parent e p : keeps (set_parent e p) any.
Proof.
  eapply keeps_bind; [apply keeps_env_get|]. intros; apply keeps_env_put.
Qed.

Lemma keeps_ht_insert e name v : keeps (ht_insert e name v) any.
Proof.
  eapply keeps_bind; [apply keeps_env_get|]. intros; apply keeps_env_put.
Qed.

Create HintDb keeps.

#[local] Hint Resolve keeps_deref keeps_get_type keeps_get_car keeps_get_cdr
  keeps_field_car keeps_field_cdr keeps_get_value keeps_get_name keeps_get_body keeps_new_object keeps_cons
  keeps_set_cdr keeps_printf keeps_env_get keeps_env_put keeps_env_create
  keeps_set_parent keeps_ht_insert keeps_err keeps_crash keeps_out_of_fuel : keeps.
#[local] Hint Extern 1 (any _) => exact I : keeps.

Ltac keeps_step :=
  lazymatch goal with
  | |- keeps (ret _) _ => apply keeps_ret; auto with keeps
  | |- keeps (err _) _ => apply keeps_err
  | |- keeps crash _ => apply keeps_crash
  | |- keeps out_of_fuel _ => apply keeps_out_of_fuel
  | |- keeps (bind _ _) _ => eapply keeps_bind; [solve [eauto with keeps] | intros ? ?]
  | |- keeps (if ?b then _ else _) _ => destruct b eqn:?
  | |- keeps (match ?o with _ => _ end) _ => destruct o eqn:?
  | |- keeps _ any =>
      eapply keeps_weaken; [solve [eauto with keeps] | intros; exact I]
  end.

Lemma keeps_count_from fuel : forall l c, keeps (count_from fuel l c) any.
Proof.
  induction fuel as [|n IH]; intros l c; simpl; [apply keeps_out_of_fuel|].
  keeps_step. keeps_step; first [apply IH | keeps_step].
Qed.

Lemma keeps_count fuel l : keeps (count fuel l) any.
Proof. apply keeps_count_from. Qed.

Lemma keeps_print_elements fuel (pr : ptr -> M unit) :
  (forall o, keeps (pr o) any) -> forall o, keeps (print_elements fuel pr o) any.
Proof.
  intros Hpr. induction fuel as [|n IH]; intros o; simpl; [apply keeps_out_of_fuel|].
  keeps_step. eapply keeps_bind; [apply Hpr|intros ? ?].
  repeat keeps_step; try apply IH.
Qed.

Lemma keeps_print fuel : forall o, keeps (print fuel o) any.
Proof.
  induction fuel as [|n IH]; intros o; simpl; [apply keeps_out_of_fuel|].
  keeps_step. keeps_step; try keeps_step.
  eapply keeps_bind; [now apply keeps_print_elements|intros ? ?]. keeps_step.
Qed.

Lemma keeps_check_params fuel : forall p, keeps (check_params fuel p) any.
Proof.
  induction fuel as [|n IH]; intros p; simpl; [apply keeps_out_of_fuel|].
  repeat keeps_step; try apply IH.
Qed.

Lemma keeps_create_function fuel params body :
  keeps (create_function fuel params body) any.
Proof.
  unfold create_function.
  eapply keeps_bind; [apply keeps_check_params|intros ? ?]. keeps_step.
Qed.

Lemma keeps_env_lookup fuel : forall env name, keeps (env_lookup fuel env name) any.
Proof.
  induction fuel as [|n IH]; intros env name; simpl; [apply keeps_out_of_fuel|].
  repeat keeps_step; try apply IH.
Qed.

Lemma keeps_bind_params fuel : forall env params args,
  keeps (bind_params fuel env params args) any.
Proof.
  induction fuel as [|n IH]; intros env params args; simpl; [apply keeps_out_of_fuel|].
  repeat keeps_step; try apply IH.
Qed.

Lemma keeps_minus_loop fuel : forall args diff first,
  keeps (minus_loop fuel args diff first) any.
Proof.
  induction fuel as [|n IH]; intros args diff first; simpl; [apply keeps_out_of_fuel|].
  repeat keeps_step; try apply IH.
Qed.

Lemma keeps_multi_loop fuel : forall args total first,
  keeps (multi_loop fuel args total first) any.
Proof.
  induction fuel as [|n IH]; intros args total first; simpl; [apply keeps_out_of_fuel|].
  repeat keeps_step; try apply IH.
Qed.

Lemma keeps_plus_loop fuel : forall args sum, keeps (plus_loop fuel args sum) any.
Proof.
  induction fuel as [|n IH]; intros args sum; simpl; [apply keeps_out_of_fuel|].
  repeat keeps_step; try apply IH.
Qed.

#[local] Hint Resolve keeps_count keeps_print keeps_check_params keeps_create_function
  keeps_env_lookup keeps_bind_params keeps_minus_loop keeps_multi_loop
  keeps_plus_loop : keeps.

(** The primitives, for an evaluator that keeps the cells of [h0]. *)
Variable ev : evaluator.
Hypothesis ev_keeps : forall env o, keeps (ev env o) any.

#[local] Hint Resolve ev_keeps : keeps.

Lemma keeps_eval_args_loop fuel env : forall o first last,
  (first = Nil \/ fresh first) -> ((first =? Nil)%nat = false -> fresh last) ->
  keeps (eval_args_loop fuel ev env o first last) (fun r => r = Nil \/ fresh r).
Proof.
  induction fuel as [|n IH]; intros o first last Hfirst Hlast; simpl;
    [apply keeps_out_of_fuel|].
  keeps_step; [keeps_step|].
  keeps_step. keeps_step. keeps_step.
  eapply keeps_bind with (Q1 := any).
  { destruct (first =? Nil)%nat; [now apply keeps_ret|]. apply keeps_set_cdr. auto. }
  intros _ _. keeps_step. apply IH.
  - destruct (first =? Nil)%nat eqn:E; [now right|].
    destruct Hfirst as [->|]; [discriminate|now right].
  - auto.
Qed.

Lemma keeps_eval_args fuel env o :
  keeps (eval_args fuel ev env o) (fun r => r = Nil \/ fresh r).
Proof. apply keeps_eval_args_loop; [now left|discriminate]. Qed.

#[local] Hint Resolve keeps_eval_args : keeps.

Lemma keeps_progn_loop fuel env : forall args last,
  keeps (progn_loop fuel ev env args last) any.
Proof.
  induction fuel as [|n IH]; intros args last; simpl; [apply keeps_out_of_fuel|].
  repeat keeps_step; try apply IH.
Qed.

Lemma keeps_progn fuel env args : keeps (progn fuel ev env args) any.
Proof. apply keeps_progn_loop. Qed.

Lemma keeps_primitive_and fuel env : forall args, keeps (primitive_and fuel ev env args) any.
Proof.
  induction fuel as [|n IH]; intros args; simpl; [apply keeps_out_of_fuel|].
  repeat keeps_step; try apply IH.
Qed.

Lemma keeps_primitive_or fuel env : forall args, keeps (primitive_or fuel ev env args) any.
Proof.
  induction fuel as [|n IH]; intros args; simpl; [apply keeps_out_of_fuel|].
  repeat keeps_step; try apply IH.
Qed.

Lemma keeps_primitive_car fuel env args : keeps (primitive_car fuel ev env args) any.
Proof. unfold primitive_car. repeat keeps_step. Qed.

Lemma keeps_primitive_cdr fuel env args : keeps (primitive_cdr fuel ev env args) any.
Proof. unfold primitive_cdr. repeat keeps_step. Qed.

Lemma keeps_primitive_cons fuel env args : keeps (primitive_cons fuel ev env args) any.
Proof. unfold primitive_cons. repeat keeps_step. Qed.

Lemma keeps_primitive_define fuel env args : keeps (primitive_define fuel ev env args) any.
Proof. unfold primitive_define. repeat keeps_step. Qed.

Lemma keeps_compare_ints msg1 msg2 cmp fuel env args :
  keeps (compare_ints msg1 msg2 cmp fuel ev env args) any.
Proof. unfold compare_ints. repeat keeps_step. Qed.

Lemma keeps_primitive_if fuel env args : keeps (primitive_if fuel ev env args) any.
Proof. unfold primitive_if. repeat keeps_step. Qed.

Lemma keeps_primitive_lambda fuel env args : keeps (primitive_lambda fuel ev env args) any.
Proof. unfold primitive_lambda. repeat keeps_step. Qed.

Lemma keeps_primitive_minus fuel env args : keeps (primitive_minus fuel ev env args) any.
Proof. unfold primitive_minus. repeat keeps_step. Qed.

Lemma keeps_primitive_multi fuel env args : keeps (primitive_multi fuel ev env args) any.
Proof. unfold primitive_multi. repeat keeps_step. Qed.

Lemma keeps_primitive_obj_eq fuel env args : keeps (primitive_obj_eq fuel ev env args) any.
Proof. unfold primitive_obj_eq. repeat keeps_step. Qed.

Lemma keeps_primitive_plus fuel env args : keeps (primitive_plus fuel ev env args) any.
Proof. unfold primitive_plus. repeat keeps_step. Qed.

Lemma keeps_primitive_println fuel env args : keeps (primitive_println fuel ev env args) any.
Proof. unfold primitive_println. repeat keeps_step. Qed.

Lemma keeps_primitive_quote fuel env args : keeps (primitive_quote fuel ev env args) any.
Proof. unfold primitive_quote. repeat keeps_step. Qed.

Lemma keeps_while_loop fuel env : forall args, keeps (while_loop fuel ev env args) any.
Proof.
  induction fuel as [|n IH]; intros args; simpl; [apply keeps_out_of_fuel|].
  repeat keeps_step; try apply IH.
Qed.

Lemma keeps_primitive_while fuel env args : keeps (primitive_while fuel ev env args) any.
Proof.
  unfold primitive_while. keeps_step. keeps_step; [keeps_step|].
  eapply keeps_bind; [apply keeps_while_loop|intros ? ?]. keeps_step.
Qed.

Lemma keeps_call_primitive fn fuel env args :
  writer fn = false ->
  keeps (call_primitive fn fuel ev env args) any.
Proof.
  destruct fn; simpl; try discriminate; intros _;
    unfold primitive_eq, primitive_gt, primitive_lt, primitive_progn;
    auto using keeps_primitive_and, keeps_primitive_car, keeps_primitive_cdr,
      keeps_primitive_cons, keeps_primitive_define, keeps_compare_ints,
      keeps_primitive_if, keeps_primitive_lambda, keeps_primitive_minus,
      keeps_primitive_multi, keeps_primitive_obj_eq, keeps_primitive_or,
      keeps_primitive_plus, keeps_primitive_println, keeps_progn,
      keeps_primitive_quote, keeps_primitive_while.
Qed.

Lemma keeps_call_no_writer fn fuel env args :
  keeps (call_no_writer fn fuel ev env args) any.
Proof.
  unfold call_no_writer. destruct (writer fn) eqn:E; [apply keeps_err|].
  now apply keeps_call_primitive.
Qed.

Lemma keeps_apply_no_writer fuel env o args :
  keeps (apply_with call_no_writer fuel ev env o args) any.
Proof.
  unfold apply_with.
  eapply keeps_bind; [apply keeps_deref|]. intros obj _.
  destruct obj; try (now apply keeps_ret).
  - apply keeps_call_no_writer.
  - repeat keeps_step. apply keeps_progn.
Qed.

End Preservation.

Lemma keeps_eval_no_writer h0 :
  h0 !! 0%nat = Some O_NIL ->
  forall fuel env o, keeps h0 (eval_with call_no_writer fuel env o) any.
Proof.
  intros HNil. induction fuel as [|n IH]; intros env o; [apply keeps_out_of_fuel|].
  rewrite eval_with_S.
  destruct (o =? NULL)%nat; [now apply keeps_ret|].
  eapply keeps_bind; [apply keeps_deref|]. intros obj _.
  destruct obj; try (now apply keeps_ret).
  - apply keeps_env_lookup.
  - eapply keeps_bind; [apply IH|intros fn _].
    eapply keeps_bind; [apply keeps_get_cdr|intros args _].
    eapply keeps_bind; [apply keeps_get_type|intros tf _].
    destruct (_ && _); [apply keeps_err|].
    eapply keeps_bind; [apply keeps_get_type|intros ta _].
    destruct (_ && _); [apply keeps_err|].
    now apply keeps_apply_no_writer.
Qed.

Lemma keeps_watch h ev env o : keeps h (watch h ev env o) any.
Proof.
  intros s v s' _ H. unfold watch in H.
  destruct (ev env o s); try discriminate.
  destruct (bool_decide _) eqn:E; [|discriminate].
  injection H as <- <-. split; [|exact I]. now apply bool_decide_eq_true in E.
Qed.

Lemma prefix_obj_at s s' p x :
  heap s `prefix_of` heap s' -> obj_at s p = Some x -> obj_at s' p = Some x.
Proof.
  intros Hpre. destruct p as [|i]; simpl; [discriminate|].
  intros H. eapply prefix_lookup_Some; eauto.
Qed.

(** C9, as the code has it.  First part: each of the listed primitives
    leaves every object that existed before the call as it was,
    provided the evaluations of its argument expressions do.  The
    proviso is the run under watch: when the call returns with the
    evaluator watched for the heap it starts from, that is when no
    evaluation of an argument returned with one of these objects
    changed, then the call itself returns the same value in the same
    state, and every object of the starting heap is still there,
    unchanged.  Second part: the primitives that store into an existing
    pair are [setcar] and [defun], and no other code does; when the
    evaluation of an expression returns without a call of either of
    them, then [eval] returns the same value in the same state, and
    every object of the starting heap is still there, unchanged. *)
Theorem existing_pairs_kept :
  (forall fn ev fuel env args s v s',
      listed fn = true ->
      obj_at s Nil = Some O_NIL ->
      call_primitive fn fuel (watch (heap s) ev) env args s = Ok v s' ->
      call_primitive fn fuel ev env args s = Ok v s'
      /\ forall p x, obj_at s p = Some x -> obj_at s' p = Some x)
  /\ (forall fuel env o s v s',
      obj_at s Nil = Some O_NIL ->
      eval_with call_no_writer fuel env o s = Ok v s' ->
      eval fuel env o s = Ok v s'
      /\ forall p x, obj_at s p = Some x -> obj_at s' p = Some x).
Proof.
  split.
  - intros fn ev fuel env args s v s' Hfn HNil Hcall. split.
    + eapply early_ok; [|exact Hcall].
      apply early_call_primitive. apply early_watch.
    + assert (Hm : writer fn = false) by (destruct fn; auto; discriminate).
      destruct (keeps_call_primitive (heap s) HNil (watch (heap s) ev)
                  (keeps_watch (heap s) ev) fn fuel env args Hm s v s') as [Hpre _];
        [unfold good; reflexivity|exact Hcall|].
      intros p x. now apply prefix_obj_at.
  - intros fuel env o s v s' HNil Hrun. split.
    + eapply early_ok; [|exact Hrun]. apply early_eval_no_writer.
    + destruct (keeps_eval_no_writer (heap s) HNil fuel env o s v s') as [Hpre _];
        [unfold good; reflexivity|exact Hrun|].
      intros p x. now apply prefix_obj_at.
Qed.

Definition s_kept : State :=
  state_of (load 30 1 "(car (cons (+ 1 2) (quote (3 4))))").

(** The root environment of [env_init] and the expression
    [(car (cons (+ 1 2) (quote (3 4))))] read into it: the expression
    is the cell at address 25, its argument list the cell at address
    43, and the quoted list [(3 4)] starts at address 38.  The call of
    [car] and the evaluation of the whole expression return the
    integer at address 46, and the quoted list is still there. *)
Lemma existing_pairs_kept_witness :
  (call_primitive P_car 30 (eval 30) 1%nat 43%nat s_kept
   = Ok 46%nat (state_of (call_primitive P_car 30 (eval 30) 1%nat 43%nat s_kept))
   /\ obj_at (state_of (call_primitive P_car 30 (eval 30) 1%nat 43%nat s_kept)) 38%nat
      = Some (O_CONS 37%nat 40%nat))
  /\ (eval 30 1%nat 25%nat s_kept = Ok 46%nat (state_of (eval 30 1%nat 25%nat s_kept))
      /\ obj_at (state_of (eval 30 1%nat 25%nat s_kept)) 38%nat
         = Some (O_CONS 37%nat 40%nat)).
Proof.
  destruct existing_pairs_kept as [H1 H2]. split.
  - destruct (H1 P_car (eval 30) 30%nat 1%nat 43%nat s_kept 46%nat
                (state_of (call_primitive P_car 30 (eval 30) 1%nat 43%nat s_kept))
                eq_refl
                ltac:(vm_compute; reflexivity)
                ltac:(vm_compute; reflexivity)) as [Hrun Hkept].
    split; [exact Hrun|]. apply Hkept. vm_compute; reflexivity.
  - destruct (H2 30%nat 1%nat 25%nat s_kept 46%nat
                (state_of (eval 30 1%nat 25%nat s_kept))
                ltac:(vm_compute; reflexivity)
                ltac:(vm_compute; reflexivity)) as [Hrun Hkept].
    split; [exact Hrun|]. apply Hkept. vm_compute; reflexivity.
Defined.

(** Where an argument does write, the watch stops the call, and the
    evaluation without the writers stops at the writer: in
    [(car (setcar (quote (1 2)) 5))] the argument of [car] replaces
    the [car] field of the quoted list. *)
Example watch_stops_at_write :
  exists env o s args,
    load 30 1 "(car (setcar (quote (1 2)) 5))" = Ok (env, o) s
    /\ obj_at s o = Some (O_CONS 24%nat args)
    /\ call_primitive P_car 30 (watch (heap s) (eval 30)) env args s
       = Error object_changed
    /\ eval_with call_no_writer 30 env o s = Error writer_called.
Proof.
  eexists _, _, _, _.
  split; [vm_compute; reflexivity|].
  split; [vm_compute; reflexivity|].
  split; vm_compute; reflexivity.
Qed.

(** The claim as stated fails: [defun] too stores into a pair that
    existed before the call.  Evaluating [(defun f (x) x)] from the
    root environment replaces the [cdr] of the form's own argument
    list, the cell at address 27. *)
Lemma defun_overwrites_existing_pair :
  exists env o s v s' d',
    load 30 1 "(defun f (x) x)" = Ok (env, o) s
    /\ eval 30 env o s = Ok v s'
    /\ obj_at s 27%nat = Some (O_CONS 26%nat 30%nat)
    /\ obj_at s' 27%nat = Some (O_CONS 26%nat d')
    /\ d' <> 30%nat.
Proof.
  eexists _, _, _, _, _, _.
  split; [vm_compute; reflexivity|].
  split; [vm_compute; reflexivity|].
  split; [vm_compute; reflexivity|].
  split; [vm_compute; reflexivity|].
  discriminate.
Qed.

(** * Cells out of reach stay as they are *)

(** Towards the closure application (C1): [eval_args] links the values
    of the arguments into a list of its own while the arguments are
    still being evaluated.  No object and no frame refers to the cells
    of that list, so the evaluation of the remaining arguments cannot
    change them.  [F] is such a set of unreferenced cells. *)

Section Isolation.

Variable F : ptr -> Prop.
Hypothesis F_NULL : ~ F NULL.
Hypothesis F_Nil : ~ F Nil.
Hypothesis F_True : ~ F True'.

(** A pointer that may circulate when the heap has [n] cells: it is
    not in [F] and it is an atom or an address allocated so far. *)
Definition okp (n : nat) (p : ptr) : Prop := ~ F p /\ (p <= Nat.max 2 n)%nat.

Definition ok_obj (n : nat) (o : Object) : Prop :=
  match o with
  | O_CONS a d => okp n a /\ okp n d
  | O_FUNCTION a b => okp n a /\ okp n b
  | _ => True
  end.

(** The cells of [F] are allocated, and neither the objects outside
    [F] nor the frames refer to a cell of [F] or to an address that is
    not allocated yet. *)
Definition sep (s : State) : Prop :=
  (2 <= length (heap s))%nat
  /\ (forall p, F p -> (p <= length (heap s))%nat)
  /\ (forall p o, ~ F p -> obj_at s p = Some o -> ok_obj (length (heap s)) o)
  /\ (forall e f name q, frame_at s e = Some f -> ht f !! name = Some q ->
                         okp (length (heap s)) q).

(** Started in a state of at least [n] cells where [sep] holds, [m]
    re-establishes [sep], only extends the heap, leaves the cells of
    [F] as they are, and its result satisfies [Q] at the new size. *)
Definition iso {A} (n : nat) (m : M A) (Q : nat -> A -> Prop) : Prop :=
  forall s a s',
    (n <= length (heap s))%nat -> sep s -> m s = Ok a s' ->
    sep s'
    /\ (length (heap s) <= length (heap s'))%nat
    /\ (forall p, F p -> obj_at s' p = obj_at s p)
    /\ Q (length (heap s')) a.

Definition any2 {A} (n : nat) (a : A) : Prop := True.

Lemma okp_mono n n' p : okp n p -> (n <= n')%nat -> okp n' p.
Proof. intros [H1 H2] Hn. split; [assumption|lia]. Qed.

Lemma ok_obj_mono n n' o : ok_obj n o -> (n <= n')%nat -> ok_obj n' o.
Proof. destruct o; simpl; intuition eauto using okp_mono. Qed.

Lemma okp_NULL n : okp n NULL.
Proof. split; [assumption|unfold NULL; lia]. Qed.

Lemma okp_Nil n : okp n Nil.
Proof. split; [assumption|unfold Nil; lia]. Qed.

Lemma okp_True n : okp n True'.
Proof. split; [assumption|unfold True'; lia]. Qed.

Lemma iso_ret {A} n (a : A) (Q : nat -> A -> Prop) :
  (forall n', (n <= n')%nat -> Q n' a) -> iso n (ret a) Q.
Proof. intros H s a' s' Hn Hs [= <- <-]. auto. Qed.

Lemma iso_bind {A B} n (m : M A) (k : A -> M B) Q1 Q :
  iso n m Q1 ->
  (forall a n1, (n <= n1)%nat -> Q1 n1 a -> iso n1 (k a) Q) ->
  iso n (bind m k) Q.
Proof.
  intros Hm Hk s b s' Hn Hs H.
  apply bind_inv in H as (a & s1 & H1 & H2).
  destruct (Hm _ _ _ Hn Hs H1) as (Hs1 & Hlen & Hsame & Ha).
  destruct (Hk a (length (heap s1)) ltac:(lia) Ha s1 b s' ltac:(lia) Hs1 H2)
    as (Hs' & Hlen' & Hsame' & Hb).
  split; [assumption|]. split; [lia|]. split; [|assumption].
  intros p Hp. rewrite Hsame', Hsame; auto.
Qed.

Lemma iso_weaken {A} n (m : M A) (Q Q' : nat -> A -> Prop) :
  iso n m Q -> (forall n' a, Q n' a -> Q' n' a) -> iso n m Q'.
Proof.
  intros Hm HQ s a s' Hn Hs H.
  destruct (Hm _ _ _ Hn Hs H) as (? & ? & ? & ?). auto.
Qed.

Lemma iso_le {A} n n' (m : M A) Q : iso n m Q -> (n <= n')%nat -> iso n' m Q.
Proof. intros Hm Hle s a s' Hn. apply Hm. lia. Qed.

Lemma iso_err {A} n msg (Q : nat -> A -> Prop) : iso n (err msg) Q.
Proof. intros s a s' _ _ H. discriminate. Qed.

Lemma iso_crash {A} n (Q : nat -> A -> Prop) : iso n crash Q.
Proof. intros s a s' _ _ H. discriminate. Qed.

Lemma iso_out_of_fuel {A} n (Q : nat -> A -> Prop) : iso n out_of_fuel Q.
Proof. intros s a s' _ _ H. discriminate. Qed.

(** A computation that leaves the state as it is. *)
Lemma iso_reader {A} n (m : M A) (Q : nat -> A -> Prop) :
  (forall s a s', sep s -> (n <= length (heap s))%nat -> m s = Ok a s' ->
                  s' = s /\ Q (length (heap s)) a) ->
  iso n m Q.
Proof.
  intros Hm s a s' Hn Hs H. destruct (Hm _ _ _ Hs Hn H) as [-> HQ]. auto.
Qed.

Lemma iso_deref n p : okp n p -> iso n (deref p) ok_obj.
Proof.
  intros [Hp _]. apply iso_reader. intros s o s' Hs Hn H.
  apply deref_inv in H as [-> Ho]. split; [reflexivity|].
  destruct Hs as (_ & _ & Hobj & _). eauto.
Qed.

Lemma iso_get_type n p : iso n (get_type p) any2.
Proof.
  apply iso_reader. intros s t s' Hs Hn H. unfold get_type in H.
  apply bind_inv in H as (o & s1 & Ho & H). apply deref_inv in Ho as [-> _].
  injection H as _ <-. split; [reflexivity|exact I].
Qed.

Lemma iso_get_car n p : okp n p -> iso n (get_car p) okp.
Proof.
  intros Hp. eapply iso_bind; [now apply iso_deref|].
  intros [] n1 Hn1 Ho; try apply iso_crash.
  apply iso_ret. intros n' Hn'. destruct Ho. eauto using okp_mono.
Qed.

Lemma iso_get_cdr n p : okp n p -> iso n (get_cdr p) okp.
Proof.
  intros Hp. eapply iso_bind; [now apply iso_deref|].
  intros [] n1 Hn1 Ho; try apply iso_crash.
  apply iso_ret. intros n' Hn'. destruct Ho. eauto using okp_mono.
Qed.

Lemma iso_field_car n p : okp n p -> iso n (field_car p) okp.
Proof.
  intros Hp. eapply iso_bind; [now apply iso_deref|].
  intros [] n1 Hn1 Ho; try apply iso_crash;
    apply iso_ret; intros n' Hn'; try apply okp_NULL.
  destruct Ho. eauto using okp_mono.
Qed.

Lemma iso_field_cdr n p : okp n p -> iso n (field_cdr p) okp.
Proof.
  intros Hp. eapply iso_bind; [now apply iso_deref|].
  intros [] n1 Hn1 Ho; try apply iso_crash;
    apply iso_ret; intros n' Hn'; try apply okp_NULL.
  destruct Ho. eauto using okp_mono.
Qed.

Lemma iso_get_body n p : okp n p -> iso n (get_body p) okp.
Proof.
  intros Hp. eapply iso_bind; [now apply iso_deref|].
  intros [] n1 Hn1 Ho; try apply iso_crash.
  apply iso_ret. intros n' Hn'. destruct Ho. eauto using okp_mono.
Qed.

Lemma iso_get_value n p : iso n (get_value p) any2.
Proof.
  apply iso_reader. intros s t s' Hs Hn H. unfold get_value in H.
  apply bind_inv in H as (o & s1 & Ho & H). apply deref_inv in Ho as [-> _].
  destruct o; try discriminate. injection H as _ <-. split; [reflexivity|exact I].
Qed.

Lemma iso_get_name n p : iso n (get_name p) any2.
Proof.
  apply iso_reader. intros s t s' Hs Hn H. unfold get_name in H.
  apply bind_inv in H as (o & s1 & Ho & H). apply deref_inv in Ho as [-> _].
  destruct o; try discriminate. injection H as _ <-. split; [reflexivity|exact I].
Qed.

Lemma sep_frames s fr :
  sep s ->
  (forall e f name q, frame_at (with_frames s fr) e = Some f -> ht f !! name = Some q ->
                      okp (length (heap s)) q) ->
  sep (with_frames s fr).
Proof.
  intros (H1 & H2 & H3 & _) H4.
  split; [exact H1|]. split; [exact H2|]. split; [exact H3|exact H4].
Qed.

Lemma iso_new_object n o : ok_obj n o -> iso n (new_object o) okp.
Proof.
  intros Ho s p s' Hn (H1 & H2 & H3 & H4) [= <- <-].
  assert (Hlen : length (heap s ++ [o]) = S (length (heap s)))
    by (rewrite length_app; simpl; lia).
  assert (Hfresh : ~ F (S (length (heap s)))).
  { intros HF. apply H2 in HF. lia. }
  split; [|split; [|split]].
  - unfold sep. cbn [heap with_heap]. rewrite Hlen.
    split; [lia|]. split; [intros q Hq; apply H2 in Hq; lia|]. split.
    + intros q x Hq Hx. destruct q as [|i]; [discriminate|]. simpl in Hx.
      destruct (decide (i < length (heap s))%nat) as [Hi|Hi].
      * rewrite lookup_app_l in Hx by assumption.
        eapply ok_obj_mono; [eapply (H3 (S i)); eauto|lia].
      * rewrite lookup_app_r in Hx by lia.
        destruct (i - length (heap s))%nat eqn:E; simpl in Hx; [|discriminate].
        injection Hx as <-. eapply ok_obj_mono; [eassumption|lia].
    + intros e f name q Hf Hq. eapply okp_mono; [eapply H4; eauto|lia].
  - cbn [heap with_heap]. lia.
  - intros q Hq. apply H2 in Hq. destruct q as [|i]; [reflexivity|].
    simpl. apply lookup_app_l. lia.
  - cbn [heap with_heap]. rewrite Hlen. split; [assumption|lia].
Qed.

Lemma iso_cons n a d : okp n a -> okp n d -> iso n (cons a d) okp.
Proof. intros Ha Hd. apply iso_new_object. now split. Qed.

Lemma iso_store n p o : okp n p -> ok_obj n o -> iso n (store p o) any2.
Proof.
  intros [Hp _] Ho s u s' Hn (H1 & H2 & H3 & H4) H. unfold store in H.
  destruct (obj_at s p) as [x|] eqn:E; [|discriminate]. injection H as _ <-.
  split; [|split; [|split]]; cbn [heap with_heap]; rewrite ?length_insert.
  - unfold sep. cbn [heap with_heap]. rewrite length_insert.
    split; [assumption|]. split; [assumption|]. split; [|assumption].
    intros q y Hq Hy. destruct (decide (p = q)) as [<-|Hne].
    + rewrite (obj_at_store_eq _ _ _ _ E) in Hy. injection Hy as <-.
      eapply ok_obj_mono; [eassumption|lia].
    + rewrite (obj_at_store_ne _ _ _ _ _ E Hne) in Hy. eauto.
  - lia.
  - intros q Hq. apply (obj_at_store_ne _ _ _ _ _ E). congruence.
  - exact I.
Qed.

Lemma iso_set_car n p v : okp n p -> okp n v -> iso n (set_car p v) any2.
Proof.
  intros Hp Hv. eapply iso_bind; [now apply iso_deref|].
  intros [] n1 Hn1 Ho; try apply iso_crash.
  destruct Ho. apply iso_store; [|split]; eauto using okp_mono.
Qed.

Lemma iso_set_cdr n p v : okp n p -> okp n v -> iso n (set_cdr p v) any2.
Proof.
  intros Hp Hv. eapply iso_bind; [now apply iso_deref|].
  intros [] n1 Hn1 Ho; try apply iso_crash.
  destruct Ho. apply iso_store; [|split]; eauto using okp_mono.
Qed.

Lemma iso_printf n text : iso n (printf text) any2.
Proof.
  intros s a s' Hn Hs [= _ <-].
  split; [exact Hs|]. split; [reflexivity|]. split; [reflexivity|exact I].
Qed.

Lemma iso_env_get n e :
  iso n (env_get e) (fun n' f => forall name q, ht f !! name = Some q -> okp n' q).
Proof.
  apply iso_reader. intros s f s' Hs Hn H. unfold env_get in H.
  destruct (frame_at s e) as [f'|] eqn:E; [|discriminate]. injection H as <- <-.
  split; [reflexivity|]. destruct Hs as (_ & _ & _ & H4). eauto.
Qed.

Lemma iso_env_put n e f :
  (forall name q, ht f !! name = Some q -> okp n q) -> iso n (env_put e f) any2.
Proof.
  intros Hf s u s' Hn Hs H. unfold env_put in H.
  destruct (frame_at s e) as [f'|] eqn:E; [|discriminate]. injection H as _ <-.
  split; [|split; [simpl; lia|split; [intros; reflexivity|exact I]]].
  apply sep_frames; [assumption|].
  intros e' f'' name q Hf'' Hq. destruct e' as [|i]; [discriminate|].
  destruct e as [|j]; [discriminate|]. simpl in Hf'', E.
  destruct (decide (j = i)) as [->|Hne].
  - rewrite list_lookup_insert_eq in Hf'' by (now apply lookup_lt_Some in E).
    injection Hf'' as <-. eapply okp_mono; [eauto|lia].
  - rewrite list_lookup_insert_ne in Hf'' by assumption.
    destruct Hs as (_ & _ & _ & H4). eapply (H4 (S i)); eauto.
Qed.

Lemma iso_env_create n : iso n env_create any2.
Proof.
  intros s e s' Hn Hs [= _ <-].
  split; [|split; [simpl; lia|split; [intros; reflexivity|exact I]]].
  apply sep_frames; [assumption|].
  intros e' f name q Hf Hq. destruct e' as [|i]; [discriminate|]. simpl in Hf.
  destruct (decide (i < length (frames s))%nat) as [Hi|Hi].
  - rewrite lookup_app_l in Hf by assumption.
    destruct Hs as (_ & _ & _ & H4). eapply (H4 (S i)); eauto.
  - rewrite lookup_app_r in Hf by lia.
    destruct (i - length (frames s))%nat; simpl in Hf; [|discriminate].
    injection Hf as <-. simpl in Hq. now rewrite lookup_empty in Hq.
Qed.

Lemma iso_set_parent n e p : iso n (set_parent e p) any2.
Proof.
  eapply iso_bind; [apply iso_env_get|].
  intros f n1 Hn1 Hf. apply iso_env_put. exact Hf.
Qed.

Lemma iso_ht_insert n e name v : okp n v -> iso n (ht_insert e name v) any2.
Proof.
  intros Hv. eapply iso_bind; [apply iso_env_get|].
  intros f n1 Hn1 Hf. apply iso_env_put. simpl.
  intros name' q Hq. destruct (decide (name = name')) as [<-|Hne].
  - rewrite lookup_insert_eq in Hq. injection Hq as <-. eauto using okp_mono.
  - rewrite lookup_insert_ne in Hq by assumption. eauto.
Qed.

Lemma iso_env_lookup fuel : forall n env name, iso n (env_lookup fuel env name) okp.
Proof.
  induction fuel as [|k IH]; intros n env name; simpl; [apply iso_out_of_fuel|].
  eapply iso_bind; [apply iso_env_get|]. intros f n1 Hn1 Hf.
  destruct (ht f !! name) as [q|] eqn:E.
  - apply iso_ret. intros n' Hn'. eauto using okp_mono.
  - destruct (parent f =? ENULL)%nat; [apply iso_err|apply IH].
Qed.

Create HintDb iso.

#[local] Hint Resolve iso_deref iso_get_type iso_get_car iso_get_cdr iso_field_car iso_field_cdr iso_get_body
  iso_get_value iso_get_name iso_new_object iso_cons iso_set_car iso_set_cdr
  iso_printf iso_env_get iso_env_create iso_set_parent iso_ht_insert
  iso_env_lookup iso_err iso_crash iso_out_of_fuel okp_NULL okp_Nil okp_True : iso.
#[local] Hint Extern 1 (any2 _ _) => exact I : iso.
#[local] Hint Extern 1 (ok_obj _ _) => exact I : iso.
#[local] Hint Extern 2 (okp _ (if ?b then _ else _)) => destruct b : iso.
#[local] Hint Extern 3 (okp ?n' ?p) =>
  match goal with
  | H : okp ?n p |- _ => apply (okp_mono n n' p H); lia
  end : iso.

Ltac simpl_ok :=
  repeat match goal with
         | H : ok_obj _ (O_CONS _ _) |- _ => destruct H
         | H : ok_obj _ (O_FUNCTION _ _) |- _ => destruct H
         end.

Ltac iso_step :=
  lazymatch goal with
  | |- iso _ (ret _) _ => apply iso_ret; intros; eauto with iso
  | |- iso _ (err _) _ => apply iso_err
  | |- iso _ crash _ => apply iso_crash
  | |- iso _ out_of_fuel _ => apply iso_out_of_fuel
  | |- iso _ (bind _ _) _ =>
      eapply iso_bind; [solve [eauto with iso] | intros ? ? ? ?; simpl_ok]
  | |- iso _ (if ?b then _ else _) _ => destruct b eqn:?
  | |- iso _ (match ?o with _ => _ end) _ => destruct o eqn:?; simpl_ok
  | |- iso _ _ any2 =>
      eapply iso_weaken; [solve [eauto with iso] | intros; exact I]
  | |- iso _ _ _ => solve [eauto with iso]
  end.

Lemma iso_count_from fuel : forall n l c, okp n l -> iso n (count_from fuel l c) any2.
Proof.
  induction fuel as [|k IH]; intros n l c Hl; simpl; [apply iso_out_of_fuel|].
  iso_step. iso_step; try iso_step; try (apply IH; eauto with iso).
Qed.

Lemma iso_count fuel n l : okp n l -> iso n (count fuel l) any2.
Proof. apply iso_count_from. Qed.

Lemma iso_print_elements fuel (pr : ptr -> M unit) :
  (forall n o, okp n o -> iso n (pr o) any2) ->
  forall n o, okp n o -> iso n (print_elements fuel pr o) any2.
Proof.
  intros Hpr. induction fuel as [|k IH]; intros n o Ho; simpl; [apply iso_out_of_fuel|].
  iso_step. eapply iso_bind; [apply Hpr; eauto with iso|intros ? ? ? ?].
  repeat iso_step; try (apply IH; eauto with iso).
Qed.

Lemma iso_print fuel : forall n o, okp n o -> iso n (print fuel o) any2.
Proof.
  induction fuel as [|k IH]; intros n o Ho; simpl; [apply iso_out_of_fuel|].
  iso_step. iso_step; try iso_step.
  eapply iso_bind; [apply iso_print_elements; eauto with iso|intros ? ? ? ?].
  iso_step.
Qed.

Lemma iso_check_params fuel : forall n p, okp n p -> iso n (check_params fuel p) any2.
Proof.
  induction fuel as [|k IH]; intros n p Hp; simpl; [apply iso_out_of_fuel|].
  repeat iso_step; try (apply IH; eauto with iso).
Qed.

Lemma iso_create_function fuel n params body :
  okp n params -> okp n body -> iso n (create_function fuel params body) okp.
Proof.
  intros Hp Hb. unfold create_function.
  eapply iso_bind; [now apply iso_check_params|intros ? ? ? ?].
  apply iso_new_object. split; eauto with iso.
Qed.

Lemma iso_bind_params fuel : forall n env params args,
  okp n params -> okp n args -> iso n (bind_params fuel env params args) any2.
Proof.
  induction fuel as [|k IH]; intros n env params args Hp Ha; simpl;
    [apply iso_out_of_fuel|].
  repeat iso_step; try (apply IH; eauto with iso).
Qed.

Lemma iso_minus_loop fuel : forall n args diff first,
  okp n args -> iso n (minus_loop fuel args diff first) any2.
Proof.
  induction fuel as [|k IH]; intros n args diff first Ha; simpl;
    [apply iso_out_of_fuel|].
  repeat iso_step; try (apply IH; eauto with iso).
Qed.

Lemma iso_multi_loop fuel : forall n args total first,
  okp n args -> iso n (multi_loop fuel args total first) any2.
Proof.
  induction fuel as [|k IH]; intros n args total first Ha; simpl;
    [apply iso_out_of_fuel|].
  repeat iso_step; try (apply IH; eauto with iso).
Qed.

Lemma iso_plus_loop fuel : forall n args sum,
  okp n args -> iso n (plus_loop fuel args sum) any2.
Proof.
  induction fuel as [|k IH]; intros n args sum Ha; simpl; [apply iso_out_of_fuel|].
  repeat iso_step; try (apply IH; eauto with iso).
Qed.

#[local] Hint Resolve iso_count iso_print iso_check_params iso_create_function
  iso_bind_params iso_minus_loop iso_multi_loop iso_plus_loop : iso.

(** The primitives, for an evaluator that respects [F]. *)
Variable ev : evaluator.
Hypothesis ev_iso : forall env o n, okp n o -> iso n (ev env o) okp.

#[local] Hint Resolve ev_iso : iso.

Lemma iso_eval_args_loop fuel env : forall n o first last,
  okp n o -> okp n first -> okp n last ->
  iso n (eval_args_loop fuel ev env o first last) okp.
Proof.
  induction fuel as [|k IH]; intros n o first last Ho Hfirst Hlast; simpl;
    [apply iso_out_of_fuel|].
  iso_step; [iso_step|].
  iso_step. iso_step. iso_step.
  eapply iso_bind with (Q1 := any2).
  { destruct (first =? Nil)%nat; [now apply iso_ret|].
    apply iso_set_cdr; eauto with iso. }
  intros _ ? ? _. iso_step. apply IH; eauto with iso.
Qed.

Lemma iso_eval_args fuel env n o : okp n o -> iso n (eval_args fuel ev env o) okp.
Proof. intros Ho. apply iso_eval_args_loop; eauto with iso. Qed.

#[local] Hint Resolve iso_eval_args : iso.

Lemma iso_progn_loop fuel env : forall n args last,
  okp n args -> (forall v, last = Some v -> okp n v) ->
  iso n (progn_loop fuel ev env args last) okp.
Proof.
  induction fuel as [|k IH]; intros n args last Ha Hl; simpl; [apply iso_out_of_fuel|].
  iso_step.
  - destruct last as [v|]; [|apply iso_crash].
    apply iso_ret. intros n' Hn'. eapply okp_mono; eauto.
  - repeat iso_step; try (apply IH; eauto with iso).
    intros v [= <-]. eauto with iso.
Qed.

Lemma iso_progn fuel env n args : okp n args -> iso n (progn fuel ev env args) okp.
Proof. intros Ha. apply iso_progn_loop; [assumption|discriminate]. Qed.

#[local] Hint Resolve iso_progn : iso.

Lemma iso_primitive_and fuel env : forall n args,
  okp n args -> iso n (primitive_and fuel ev env args) okp.
Proof.
  induction fuel as [|k IH]; intros n args Ha; simpl; [apply iso_out_of_fuel|].
  repeat iso_step; try (apply IH; eauto with iso).
Qed.

Lemma iso_primitive_or fuel env : forall n args,
  okp n args -> iso n (primitive_or fuel ev env args) okp.
Proof.
  induction fuel as [|k IH]; intros n args Ha; simpl; [apply iso_out_of_fuel|].
  repeat iso_step; try (apply IH; eauto with iso).
Qed.

Lemma iso_primitive_car fuel env n args :
  okp n args -> iso n (primitive_car fuel ev env args) okp.
Proof. intros Ha. unfold primitive_car. repeat iso_step. Qed.

Lemma iso_primitive_cdr fuel env n args :
  okp n args -> iso n (primitive_cdr fuel ev env args) okp.
Proof. intros Ha. unfold primitive_cdr. repeat iso_step. Qed.

Lemma iso_primitive_cons fuel env n args :
  okp n args -> iso n (primitive_cons fuel ev env args) okp.
Proof. intros Ha. unfold primitive_cons. repeat iso_step. Qed.

Lemma iso_primitive_define fuel env n args :
  okp n args -> iso n (primitive_define fuel ev env args) okp.
Proof. intros Ha. unfold primitive_define. repeat iso_step. Qed.

Lemma iso_compare_ints msg1 msg2 cmp fuel env n args :
  okp n args -> iso n (compare_ints msg1 msg2 cmp fuel ev env args) okp.
Proof. intros Ha. unfold compare_ints. repeat iso_step. Qed.

Lemma iso_primitive_if fuel env n args :
  okp n args -> iso n (primitive_if fuel ev env args) okp.
Proof. intros Ha. unfold primitive_if. repeat iso_step. Qed.

Lemma iso_primitive_lambda fuel env n args :
  okp n args -> iso n (primitive_lambda fuel ev env args) okp.
Proof. intros Ha. unfold primitive_lambda. repeat iso_step. Qed.

Lemma iso_primitive_minus fuel env n args :
  okp n args -> iso n (primitive_minus fuel ev env args) okp.
Proof. intros Ha. unfold primitive_minus. repeat iso_step. Qed.

Lemma iso_primitive_multi fuel env n args :
  okp n args -> iso n (primitive_multi fuel ev env args) okp.
Proof. intros Ha. unfold primitive_multi. repeat iso_step. Qed.

Lemma iso_primitive_obj_eq fuel env n args :
  okp n args -> iso n (primitive_obj_eq fuel ev env args) okp.
Proof. intros Ha. unfold primitive_obj_eq. repeat iso_step. Qed.

Lemma iso_primitive_plus fuel env n args :
  okp n args -> iso n (primitive_plus fuel ev env args) okp.
Proof. intros Ha. unfold primitive_plus. repeat iso_step. Qed.

Lemma iso_primitive_println fuel env n args :
  okp n args -> iso n (primitive_println fuel ev env args) okp.
Proof. intros Ha. unfold primitive_println. repeat iso_step. Qed.

Lemma iso_primitive_setcar fuel env n args :
  okp n args -> iso n (primitive_setcar fuel ev env args) okp.
Proof. intros Ha. unfold primitive_setcar. repeat iso_step. Qed.

Lemma iso_primitive_quote fuel env n args :
  okp n args -> iso n (primitive_quote fuel ev env args) okp.
Proof. intros Ha. unfold primitive_quote. repeat iso_step. Qed.

Lemma iso_while_loop fuel env : forall n args,
  okp n args -> iso n (while_loop fuel ev env args) any2.
Proof.
  induction fuel as [|k IH]; intros n args Ha; simpl; [apply iso_out_of_fuel|].
  repeat iso_step; try (apply IH; eauto with iso).
Qed.

Lemma iso_primitive_while fuel env n args :
  okp n args -> iso n (primitive_while fuel ev env args) okp.
Proof.
  intros Ha. unfold primitive_while. iso_step. iso_step; [iso_step|].
  eapply iso_bind; [apply iso_while_loop; eauto with iso|intros ? ? ? ?]. iso_step.
Qed.

Lemma iso_primitive_defun fuel env n args :
  okp n args -> iso n (primitive_defun fuel ev env args) okp.
Proof.
  intros Ha. unfold primitive_defun. iso_step.
  eapply iso_bind; [apply iso_primitive_lambda; eauto with iso|intros ? ? ? ?].
  iso_step. iso_step. apply iso_primitive_define. eauto with iso.
Qed.

Lemma iso_call_primitive fn fuel env n args :
  okp n args -> iso n (call_primitive fn fuel ev env args) okp.
Proof.
  intros Ha. destruct fn; simpl;
    unfold primitive_eq, primitive_gt, primitive_lt, primitive_progn;
    auto using iso_primitive_and, iso_primitive_car, iso_primitive_cdr,
      iso_primitive_cons, iso_primitive_define, iso_primitive_defun,
      iso_compare_ints, iso_primitive_if, iso_primitive_lambda,
      iso_primitive_minus, iso_primitive_multi, iso_primitive_obj_eq,
      iso_primitive_or, iso_primitive_plus, iso_primitive_println, iso_progn,
      iso_primitive_setcar, iso_primitive_quote, iso_primitive_while.
Qed.

Lemma iso_apply fuel env n o args :
  okp n o -> okp n args -> iso n (apply fuel ev env o args) okp.
Proof.
  intros Ho Ha. unfold apply.
  eapply iso_bind; [now apply iso_deref|]. intros obj n1 Hn1 Hobj.
  destruct obj; simpl_ok; try (apply iso_ret; intros; apply okp_NULL).
  - apply iso_call_primitive. eauto with iso.
  - repeat iso_step.
Qed.

End Isolation.

Lemma iso_eval F :
  ~ F NULL -> ~ F Nil -> ~ F True' ->
  forall fuel env o n, okp F n o -> iso F n (eval fuel env o) (okp F).
Proof.
  intros HNULL HNil HTrue.
  induction fuel as [|k IH]; intros env o n Ho; [apply iso_out_of_fuel|].
  rewrite eval_S.
  destruct (o =? NULL)%nat; [apply iso_ret; intros; now apply okp_NULL|].
  eapply iso_bind; [now apply iso_deref|]. intros obj n1 Hn1 Hobj.
  assert (Ho1 : okp F n1 o) by eauto using okp_mono.
  destruct obj; try (apply iso_ret; intros; eauto using okp_mono, okp_NULL).
  - now apply iso_env_lookup.
  - destruct Hobj as [Hcar Hcdr].
    eapply iso_bind; [now apply IH|intros fn n2 Hn2 Hfn].
    eapply iso_bind; [apply iso_get_cdr; eauto using okp_mono|intros args n3 Hn3 Hargs].
    eapply iso_bind; [apply iso_get_type|intros tf n4 Hn4 _].
    destruct (_ && _); [apply iso_err|].
    eapply iso_bind; [apply iso_get_type|intros ta n5 Hn5 _].
    destruct (_ && _); [apply iso_err|].
    apply iso_apply; auto; eapply okp_mono; eauto; lia.
Qed.

(** * The value list built by eval_args *)

(** The successive evaluations performed by [eval_args]: the argument
    in the first cell is evaluated first, in the given environment and
    in the state the loop is entered with; its value is put into a new
    cell, which is linked behind [last]; the remaining cells follow in
    the state so reached.  [vals] collects the values in that order. *)
Inductive args_trace (ev : evaluator) (env : envptr) :
  ptr -> ptr -> ptr -> State -> list ptr -> State -> Prop :=
| args_trace_nil first last s :
    args_trace ev env Nil first last s [] s
| args_trace_cons o first last a s v s1 c s2 d vals s3 :
    o <> Nil ->
    get_car o s = Ok a s ->
    ev env a s = Ok v s1 ->
    (let* c := cons v Nil in
     let* _ := (if (first =? Nil)%nat then ret tt else set_cdr last c) in
     ret c) s1 = Ok c s2 ->
    get_cdr o s2 = Ok d s2 ->
    args_trace ev env d (if (first =? Nil)%nat then c else first) c s2 vals s3 ->
    args_trace ev env o first last s (v :: vals) s3.

(** [chain s cs vals e]: the cells [cs] hold the values [vals], each
    linked to the next and the last one to [e]. *)
Inductive chain (s : State) : list ptr -> list ptr -> ptr -> Prop :=
| chain_nil e : chain s [] [] e
| chain_cons c cs v vals e :
    obj_at s c = Some (O_CONS v (hd e cs)) -> chain s cs vals e ->
    chain s (c :: cs) (v :: vals) e.

Lemma chain_same s s' cs vals e :
  (forall c, c ∈ cs -> obj_at s' c = obj_at s c) ->
  chain s cs vals e -> chain s' cs vals e.
Proof.
  intros Hsame H. induction H as [e|c cs v vals e Hc H IH]; constructor.
  - rewrite Hsame; [assumption|left].
  - apply IH. intros c' Hc'. apply Hsame. now right.
Qed.

Lemma chain_cells s cs vals e : chain s cs vals e -> cells s (hd e cs) vals e.
Proof.
  induction 1 as [e|c cs v vals e Hc H IH]; simpl; [constructor|].
  econstructor; eauto.
Qed.

Lemma chain_app_end s cs vals c v e :
  chain s cs vals c -> obj_at s c = Some (O_CONS v e) ->
  chain s (cs ++ [c]) (vals ++ [v]) e.
Proof.
  induction 1 as [c|c' cs v' vals c Hc' H IH]; intros Hc; simpl.
  - constructor; [assumption|constructor].
  - constructor; [|auto]. destruct cs; assumption.
Qed.

Lemma hd_app_single {A} (l : list A) x d : hd d (l ++ [x]) = hd x l.
Proof. now destruct l. Qed.

Lemma get_car_inv p s a s' :
  get_car p s = Ok a s' -> s' = s /\ exists d, obj_at s p = Some (O_CONS a d).
Proof.
  unfold get_car. intros H. apply bind_inv in H as (o & s1 & Ho & H).
  apply deref_inv in Ho as [-> Ho]. destruct o; try discriminate.
  injection H as <- <-. eauto.
Qed.

Lemma get_cdr_inv p s d s' :
  get_cdr p s = Ok d s' -> s' = s /\ exists a, obj_at s p = Some (O_CONS a d).
Proof.
  unfold get_cdr. intros H. apply bind_inv in H as (o & s1 & Ho & H).
  apply deref_inv in Ho as [-> Ho]. destruct o; try discriminate.
  injection H as <- <-. eauto.
Qed.

Lemma set_cdr_inv p v s u s' :
  set_cdr p v s = Ok u s' ->
  exists a d, obj_at s p = Some (O_CONS a d)
              /\ s' = with_heap s (<[pred p := O_CONS a v]> (heap s)).
Proof.
  unfold set_cdr. intros H. apply bind_inv in H as (o & s1 & Ho & H).
  apply deref_inv in Ho as [-> Ho]. destruct o; try discriminate.
  unfold store in H. rewrite Ho in H. injection H as _ <-. eauto.
Qed.

(** The cells allocated so far by the loop of [eval_args]. *)
Definition private (cs : list ptr) (p : ptr) : Prop := p ∈ cs.

Definition args_inv (s : State) (first last : ptr) (cs vals : list ptr) : Prop :=
  sep (private cs) s
  /\ Forall (fun c => (3 <= c)%nat) cs
  /\ NoDup cs
  /\ ((cs = [] /\ vals = [] /\ first = Nil)
      \/ exists (init vinit : list ptr) (vl : ptr),
           cs = init ++ [last] /\ vals = vinit ++ [vl]
           /\ chain s init vinit last
           /\ obj_at s last = Some (O_CONS vl Nil)
           /\ first = hd last init).

Lemma private_atoms cs :
  Forall (fun c => (3 <= c)%nat) cs ->
  ~ private cs NULL /\ ~ private cs Nil /\ ~ private cs True'.
Proof.
  intros H. rewrite Forall_forall in H.
  repeat split; intros Hin; apply H in Hin; unfold NULL, Nil, True' in Hin; lia.
Qed.

Lemma args_inv_cells s first last cs vals :
  args_inv s first last cs vals -> cells s first vals Nil.
Proof.
  intros (_ & _ & _ & [(-> & -> & ->)|(init & vinit & vl & -> & -> & Hch & Hl & ->)]).
  - constructor.
  - rewrite <- (hd_app_single init last Nil).
    apply chain_cells. now apply chain_app_end.
Qed.

(** One more private cell: [s3] extends [s1] by the cell [c] and
    differs from it otherwise on private cells only. *)
Lemma sep_private_cell cs s1 s3 c :
  sep (private cs) s1 ->
  c = S (length (heap s1)) ->
  length (heap s3) = S (length (heap s1)) ->
  frames s3 = frames s1 ->
  (forall p, ~ private cs p -> p <> c -> obj_at s3 p = obj_at s1 p) ->
  sep (private (cs ++ [c])) s3.
Proof.
  intros (H1 & H2 & H3 & H4) -> Hlen Hfr Hsame.
  assert (Hweak : forall q, okp (private cs) (length (heap s1)) q ->
                            okp (private (cs ++ [S (length (heap s1))])) (length (heap s3)) q).
  { intros q [Hq Hb]. split; [|lia].
    unfold private. rewrite elem_of_app, list_elem_of_singleton.
    intros [Hin| ->]; [now apply Hq|lia]. }
  unfold sep. split; [lia|]. split; [|split].
  - intros p Hp. unfold private in Hp.
    rewrite elem_of_app, list_elem_of_singleton in Hp.
    destruct Hp as [Hp| ->]; [apply H2 in Hp; lia|lia].
  - intros p o Hp Ho.
    assert (Hp1 : ~ private cs p).
    { intros Hin. apply Hp. unfold private. rewrite elem_of_app. now left. }
    assert (Hp2 : p <> S (length (heap s1))).
    { intros ->. apply Hp. unfold private. rewrite elem_of_app, list_elem_of_singleton.
      now right. }
    rewrite (Hsame p Hp1 Hp2) in Ho. specialize (H3 p o Hp1 Ho).
    destruct o; simpl in *; try exact I; destruct H3; split; now apply Hweak.
  - intros e f name q Hf Hq. apply Hweak.
    apply (H4 e f name q); [|exact Hq].
    destruct e; [discriminate|]. simpl in *. now rewrite <- Hfr.
Qed.

Lemma eval_args_loop_values fuel' env fuel :
  forall o s first last cs vals r s',
    args_inv s first last cs vals ->
    okp (private cs) (length (heap s)) o ->
    eval_args_loop fuel (eval fuel') env o first last s = Ok r s' ->
    exists last' cs' vals',
      args_inv s' r last' (cs ++ cs') (vals ++ vals')
      /\ args_trace (eval fuel') env o first last s vals' s'.
Proof.
  induction fuel as [|k IH]; intros o s first last cs vals r s' Hinv Ho H;
    [discriminate|].
  simpl in H. destruct (o =? Nil)%nat eqn:EoNil.
  - injection H as <- <-. apply Nat.eqb_eq in EoNil as ->.
    exists last, [], []. rewrite !app_nil_r. split; [assumption|constructor].
  - apply Nat.eqb_neq in EoNil.
    apply bind_inv in H as (a & sA & Hcar & H).
    destruct (get_car_inv _ _ _ _ Hcar) as [-> [d0 Hobj_o]].
    apply bind_inv in H as (v & s1 & Hev & H).
    apply bind_inv in H as (c & s2 & Hcons & H).
    apply bind_inv in H as ([] & s3 & Hlink & H).
    apply bind_inv in H as (d & sD & Hcdr & H).
    destruct (get_cdr_inv _ _ _ _ Hcdr) as [-> [a3 Hobj_o3]].
    destruct Hinv as (Hsep & Hge & Hnd & Hshape).
    destruct (private_atoms cs Hge) as (FNULL & FNil & FTrue).
    (* the argument is evaluated; the private cells stay *)
    assert (Ha : okp (private cs) (length (heap s)) a).
    { destruct Hsep as (_ & _ & H3 & _). destruct Ho as [Ho _].
      apply (H3 o _ Ho Hobj_o). }
    destruct (iso_eval (private cs) FNULL FNil FTrue fuel' env a _ Ha s v s1
                ltac:(lia) Hsep Hev) as (Hsep1 & Hlen1 & Hsame1 & Hv).
    (* the new cell *)
    injection Hcons as <- <-.
    set (c := S (length (heap s1))) in *.
    set (s2 := with_heap s1 (heap s1 ++ [O_CONS v Nil])) in *.
    assert (Hlen2 : length (heap s2) = S (length (heap s1))).
    { unfold s2. simpl. rewrite length_app. simpl. lia. }
    assert (Hc2 : obj_at s2 c = Some (O_CONS v Nil)) by apply obj_at_alloc_new.
    assert (Hold2 : forall p, p <> c -> obj_at s2 p = obj_at s1 p).
    { intros p Hp. destruct p as [|i]; [reflexivity|]. simpl.
      destruct (decide (i < length (heap s1))%nat).
      - now apply lookup_app_l.
      - rewrite !lookup_ge_None_2; [reflexivity|lia|].
        rewrite length_app. simpl. unfold c in Hp. lia. }
    assert (Hcfresh : ~ private cs c).
    { intros Hin. destruct Hsep1 as (_ & H2 & _). apply H2 in Hin. unfold c in Hin. lia. }
    assert (Hc3 : (3 <= c)%nat).
    { destruct Hsep1 as (H1 & _). unfold c. lia. }
    assert (Hinv3 : args_inv s3 (if (first =? Nil)%nat then c else first) c
                      (cs ++ [c]) (vals ++ [v])).
    { destruct Hshape as [(-> & -> & ->)|(init & vinit & vl & -> & -> & Hch & Hl & ->)].
      - (* first cell of the list *)
        simpl in Hlink. injection Hlink as <-. simpl.
        split; [|split; [|split]].
        + apply (sep_private_cell [] s1 s2 c); auto.
        + constructor; [exact Hc3|constructor].
        + apply NoDup_singleton.
        + right. exists [], [], v. repeat split; auto. constructor.
      - (* a later cell, linked behind [last] *)
        assert (Hfirst : (hd last init =? Nil)%nat = false).
        { apply Nat.eqb_neq. intros E.
          assert (Hin : hd last init ∈ init ++ [last]).
          { destruct init; simpl; [apply list_elem_of_here|apply list_elem_of_here]. }
          rewrite Forall_forall in Hge. apply Hge in Hin. rewrite E in Hin.
          unfold Nil in Hin. lia. }
        rewrite Hfirst in Hlink |- *.
        destruct (set_cdr_inv _ _ _ _ _ Hlink) as (al & dl & Hl2 & ->).
        assert (Hlast_priv : private (init ++ [last]) last).
        { unfold private. rewrite elem_of_app, list_elem_of_singleton. now right. }
        assert (Hl1 : obj_at s1 last = Some (O_CONS vl Nil)).
        { rewrite Hsame1; assumption. }
        assert (Hlc : last <> c) by (intros ->; now apply Hcfresh).
        rewrite (Hold2 last Hlc), Hl1 in Hl2. injection Hl2 as <- <-.
        set (s3 := with_heap s2 (<[pred last := O_CONS vl c]> (heap s2))).
        assert (Hl2 : obj_at s2 last = Some (O_CONS vl Nil)).
        { now rewrite (Hold2 last Hlc). }
        assert (Hold3 : forall p, p <> last -> obj_at s3 p = obj_at s2 p).
        { intros p Hp. apply (obj_at_store_ne s2 last p _ _ Hl2). congruence. }
        split; [|split; [|split]].
        + apply (sep_private_cell (init ++ [last]) s1 s3 c); auto.
          * unfold s3. simpl. now rewrite length_insert.
          * intros p Hp Hpc. rewrite Hold3, Hold2; auto.
            intros ->. now apply Hp.
        + apply Forall_app. split; [assumption|]. constructor; [exact Hc3|constructor].
        + apply NoDup_app. split; [assumption|]. split; [|apply NoDup_singleton].
          intros x Hx Hx'. apply list_elem_of_singleton in Hx' as ->.
          now apply Hcfresh.
        + right. exists (init ++ [last]), (vinit ++ [vl]), v.
          split; [reflexivity|]. split; [reflexivity|]. split; [|split].
          * apply chain_app_end.
            -- apply (chain_same s). 2: exact Hch.
               intros x Hx.
               assert (Hxl : x <> last).
               { intros ->. apply NoDup_app in Hnd as (_ & Hdisj & _).
                 apply (Hdisj last Hx). apply list_elem_of_here. }
               assert (Hxp : private (init ++ [last]) x).
               { unfold private. rewrite elem_of_app. now left. }
               rewrite Hold3, Hold2, Hsame1; auto.
               intros ->. now apply Hcfresh.
            -- apply (obj_at_store_eq s2 last _ _ Hl2).
          * rewrite Hold3; [exact Hc2|congruence].
          * rewrite hd_app_single.
            destruct init; simpl; reflexivity. }
    (* the rest of the arguments *)
    assert (Hsep3 : sep (private (cs ++ [c])) s3) by apply Hinv3.
    assert (Hlen3 : length (heap s3) = S (length (heap s1))).
    { destruct (first =? Nil)%nat.
      - injection Hlink as <-. exact Hlen2.
      - destruct (set_cdr_inv _ _ _ _ _ Hlink) as (al & dl & _ & ->).
        simpl. rewrite length_insert. exact Hlen2. }
    assert (Ho3 : ~ private (cs ++ [c]) o).
    { unfold private. rewrite elem_of_app, list_elem_of_singleton.
      destruct Ho as [Ho Hb]. intros [Hin| ->]; [now apply Ho|].
      unfold c in Hb. destruct Hsep as (H1 & _). lia. }
    assert (Hd : okp (private (cs ++ [c])) (length (heap s3)) d).
    { destruct Hsep3 as (_ & _ & H3 & _). apply (H3 o _ Ho3 Hobj_o3). }
    destruct (IH d s3 _ c (cs ++ [c]) (vals ++ [v]) r s' Hinv3 Hd H)
      as (last' & cs' & vals' & Hinv' & Htrace).
    exists last', (c :: cs'), (v :: vals').
    rewrite <- !app_assoc in Hinv'. split; [exact Hinv'|].
    apply args_trace_cons with (a := a) (s1 := s1) (c := c) (s2 := s3) (d := d);
      [exact EoNil|exact Hcar|exact Hev| |exact Hcdr|exact Htrace].
    unfold bind at 1. change (cons v Nil s1) with (Ok c s2). cbv beta iota.
    unfold bind. rewrite Hlink. reflexivity.
Qed.

(** * Objects that never change *)

(** Evaluation writes to pairs only: an object that is not a pair
    stays what it is, and a pair stays a pair. *)
Definition stable (s s' : State) : Prop :=
  forall p o, obj_at s p = Some o ->
    match o with
    | O_CONS _ _ => exists a d, obj_at s' p = Some (O_CONS a d)
    | _ => obj_at s' p = Some o
    end.

Definition steps {A} (m : M A) : Prop :=
  forall s a s', m s = Ok a s' -> stable s s'.

Lemma stable_refl s : stable s s.
Proof. intros p o H. destruct o; eauto. Qed.

Lemma stable_trans s1 s2 s3 : stable s1 s2 -> stable s2 s3 -> stable s1 s3.
Proof.
  intros H12 H23 p o H. specialize (H12 p o H).
  destruct o; try (now apply (H23 p _ H12)).
  destruct H12 as (a & d & H12). apply (H23 p _ H12).
Qed.

Lemma stable_same_heap s s' : heap s' = heap s -> stable s s'.
Proof.
  intros E p o H. assert (H' : obj_at s' p = Some o).
  { destruct p; [discriminate|]. simpl in *. now rewrite E. }
  destruct o; eauto.
Qed.

Lemma steps_ret {A} (a : A) : steps (ret a).
Proof. intros s a' s' [= _ <-]. apply stable_refl. Qed.

Lemma steps_bind {A B} (m : M A) (k : A -> M B) :
  steps m -> (forall a, steps (k a)) -> steps (bind m k).
Proof.
  intros Hm Hk s b s' H. apply bind_inv in H as (a & s1 & H1 & H2).
  eapply stable_trans; [eapply Hm|eapply Hk]; eauto.
Qed.

Lemma steps_err {A} msg : steps (@err A msg).
Proof. intros s a s' H. discriminate. Qed.

Lemma steps_crash {A} : steps (@crash A).
Proof. intros s a s' H. discriminate. Qed.

Lemma steps_out_of_fuel {A} : steps (@out_of_fuel A).
Proof. intros s a s' H. discriminate. Qed.

Lemma steps_same_heap {A} (m : M A) :
  (forall s a s', m s = Ok a s' -> heap s' = heap s) -> steps m.
Proof. intros Hm s a s' H. apply stable_same_heap. eauto. Qed.

Lemma steps_deref p : steps (deref p).
Proof. apply steps_same_heap. intros s o s' H. now apply deref_inv in H as [-> _]. Qed.

Lemma steps_new_object o : steps (new_object o).
Proof.
  intros s p s' [= _ <-] q x Hq.
  apply (obj_at_alloc_old s q x o) in Hq. destruct x; eauto.
Qed.

Lemma steps_store_pair p a d :
  steps (fun s => match obj_at s p with
                  | Some (O_CONS _ _) => store p (O_CONS a d) s
                  | _ => Crash
                  end).
Proof.
  intros s u s' H q x Hq.
  destruct (obj_at s p) as [[]|] eqn:E; try discriminate.
  unfold store in H. rewrite E in H. injection H as _ <-.
  destruct (decide (p = q)) as [<-|Hne].
  - rewrite E in Hq. injection Hq as <-.
    rewrite (obj_at_store_eq _ _ _ _ E). eauto.
  - rewrite (obj_at_store_ne _ _ _ _ _ E Hne). destruct x; eauto.
Qed.

Lemma steps_set_car p v : steps (set_car p v).
Proof.
  intros s u s' H. unfold set_car in H.
  apply bind_inv in H as (o & s1 & Ho & H). apply deref_inv in Ho as [-> Ho].
  destruct o; try discriminate.
  apply (steps_store_pair p v cdr s u s'). now rewrite Ho.
Qed.

Lemma steps_set_cdr p v : steps (set_cdr p v).
Proof.
  intros s u s' H. unfold set_cdr in H.
  apply bind_inv in H as (o & s1 & Ho & H). apply deref_inv in Ho as [-> Ho].
  destruct o; try discriminate.
  apply (steps_store_pair p car v s u s'). now rewrite Ho.
Qed.

Lemma steps_printf text : steps (printf text).
Proof. apply steps_same_heap. now intros s a s' [= _ <-]. Qed.

Lemma steps_env_get e : steps (env_get e).
Proof.
  apply steps_same_heap. intros s a s'. unfold env_get.
  destruct (frame_at s e); [|discriminate]. now intros [= _ <-].
Qed.

Lemma steps_env_put e f : steps (env_put e f).
Proof.
  apply steps_same_heap. intros s a s'. unfold env_put.
  destruct (frame_at s e); [|discriminate]. now intros [= _ <-].
Qed.

Lemma steps_env_create : steps env_create.
Proof. apply steps_same_heap. now intros s a s' [= _ <-]. Qed.

Create HintDb steps.

#[local] Hint Resolve steps_ret steps_err steps_crash steps_out_of_fuel steps_deref
  steps_new_object steps_set_car steps_set_cdr steps_printf steps_env_get
  steps_env_put steps_env_create : steps.

Ltac steps_step :=
  lazymatch goal with
  | |- steps (bind _ _) => apply steps_bind; [|intros ?]
  | |- steps (if ?b then _ else _) => destruct b
  | |- steps (match ?o with _ => _ end) => destruct o
  | |- steps _ => solve [eauto with steps]
  end.

Ltac steps_fix fuel :=
  induction fuel as [|? ?]; intros; simpl; [apply steps_out_of_fuel|];
  repeat steps_step.

Ltac steps_def := intros; repeat steps_step.

Lemma steps_get_type p : steps (get_type p).
Proof. unfold get_type. steps_def. Qed.
Lemma steps_get_car p : steps (get_car p).
Proof. unfold get_car. steps_def. Qed.
Lemma steps_get_cdr p : steps (get_cdr p).
Proof. unfold get_cdr. steps_def. Qed.
Lemma steps_field_car p : steps (field_car p).
Proof. unfold field_car. steps_def. Qed.
Lemma steps_field_cdr p : steps (field_cdr p).
Proof. unfold field_cdr. steps_def. Qed.
Lemma steps_get_value p : steps (get_value p).
Proof. unfold get_value. steps_def. Qed.
Lemma steps_get_name p : steps (get_name p).
Proof. unfold get_name. steps_def. Qed.
Lemma steps_get_body p : steps (get_body p).
Proof. unfold get_body. steps_def. Qed.
Lemma steps_cons a d : steps (cons a d).
Proof. apply steps_new_object. Qed.
Lemma steps_set_parent e p : steps (set_parent e p).
Proof. unfold set_parent. steps_def. Qed.
Lemma steps_ht_insert e n v : steps (ht_insert e n v).
Proof. unfold ht_insert. steps_def. Qed.

#[local] Hint Resolve steps_get_type steps_get_car steps_get_cdr steps_field_car
  steps_field_cdr steps_get_value
  steps_get_name steps_get_body steps_cons steps_set_parent steps_ht_insert : steps.

Lemma steps_env_lookup fuel : forall env name, steps (env_lookup fuel env name).
Proof. steps_fix fuel. Qed.
Lemma steps_count_from fuel : forall l c, steps (count_from fuel l c).
Proof. steps_fix fuel. Qed.
Lemma steps_count fuel l : steps (count fuel l).
Proof. apply steps_count_from. Qed.
Lemma steps_print_elements fuel pr :
  (forall o, steps (pr o)) -> forall o, steps (print_elements fuel pr o).
Proof. intros Hpr. steps_fix fuel. Qed.
Lemma steps_print fuel : forall o, steps (print fuel o).
Proof.
  induction fuel as [|k IH]; intros o; simpl; [apply steps_out_of_fuel|].
  repeat steps_step. now apply steps_print_elements.
Qed.
Lemma steps_check_params fuel : forall p, steps (check_params fuel p).
Proof. steps_fix fuel. Qed.
Lemma steps_bind_params fuel : forall env params args,
  steps (bind_params fuel env params args).
Proof. steps_fix fuel. Qed.
Lemma steps_minus_loop fuel : forall args diff first,
  steps (minus_loop fuel args diff first).
Proof. steps_fix fuel. Qed.
Lemma steps_multi_loop fuel : forall args total first,
  steps (multi_loop fuel args total first).
Proof. steps_fix fuel. Qed.
Lemma steps_plus_loop fuel : forall args sum, steps (plus_loop fuel args sum).
Proof. steps_fix fuel. Qed.

#[local] Hint Resolve steps_env_lookup steps_count steps_print steps_check_params
  steps_bind_params steps_minus_loop steps_multi_loop steps_plus_loop : steps.

Lemma steps_create_function fuel params body :
  steps (create_function fuel params body).
Proof. unfold create_function. steps_def. Qed.

#[local] Hint Resolve steps_create_function : steps.

Section Steps.

Variable ev : evaluator.
Hypothesis ev_steps : forall env o, steps (ev env o).

#[local] Hint Resolve ev_steps : steps.

Lemma steps_eval_args_loop fuel env : forall o first last,
  steps (eval_args_loop fuel ev env o first last).
Proof. steps_fix fuel. Qed.
Lemma steps_eval_args fuel env o : steps (eval_args fuel ev env o).
Proof. apply steps_eval_args_loop. Qed.
Lemma steps_progn_loop fuel env : forall args last,
  steps (progn_loop fuel ev env args last).
Proof. steps_fix fuel. Qed.
Lemma steps_progn fuel env args : steps (progn fuel ev env args).
Proof. apply steps_progn_loop. Qed.
Lemma steps_primitive_and fuel env : forall args, steps (primitive_and fuel ev env args).
Proof. steps_fix fuel. Qed.
Lemma steps_primitive_or fuel env : forall args, steps (primitive_or fuel ev env args).
Proof. steps_fix fuel. Qed.
Lemma steps_while_loop fuel env : forall args, steps (while_loop fuel ev env args).
Proof.
  induction fuel as [|k IH]; intros args; simpl; [apply steps_out_of_fuel|].
  repeat steps_step. apply steps_eval_args_loop.
Qed.

#[local] Hint Resolve steps_eval_args steps_progn steps_primitive_and
  steps_primitive_or steps_while_loop : steps.

Lemma steps_call_primitive fn fuel env args :
  steps (call_primitive fn fuel ev env args).
Proof.
  destruct fn; simpl;
    unfold primitive_car, primitive_cdr, primitive_cons, primitive_define,
      primitive_defun, primitive_eq, primitive_gt, primitive_lt, compare_ints,
      primitive_if, primitive_lambda, primitive_minus, primitive_multi,
      primitive_obj_eq, primitive_plus, primitive_println, primitive_progn,
      primitive_setcar, primitive_quote, primitive_while, primitive_define,
      primitive_lambda;
    steps_def.
Qed.

Lemma steps_apply fuel env o args : steps (apply fuel ev env o args).
Proof.
  unfold apply. apply steps_bind; [apply steps_deref|intros obj].
  destruct obj; try apply steps_ret.
  - apply steps_call_primitive.
  - steps_def.
Qed.

End Steps.

Lemma steps_eval fuel : forall env o, steps (eval fuel env o).
Proof.
  induction fuel as [|k IH]; intros env o; [apply steps_out_of_fuel|].
  rewrite eval_S. repeat steps_step. now apply steps_apply.
Qed.

(** * Closure application (C1) *)

(** A state is closed when the pointers stored in its objects and
    frames are atoms or addresses of allocated cells. *)
Definition bounded (n : nat) (p : ptr) : bool := (p <=? Nat.max 2 n)%nat.

Definition obj_closed (n : nat) (o : Object) : bool :=
  match o with
  | O_CONS a d => bounded n a && bounded n d
  | O_FUNCTION a b => bounded n a && bounded n b
  | _ => true
  end.

Definition frame_closed (n : nat) (f : Env) : bool :=
  forallb (fun kv => bounded n (snd kv)) (map_to_list (ht f)).

Definition closedb (s : State) : bool :=
  (2 <=? length (heap s))%nat
  && forallb (obj_closed (length (heap s))) (heap s)
  && forallb (frame_closed (length (heap s))) (frames s).

Lemma bounded_okp n p : bounded n p = true -> okp (private []) n p.
Proof.
  unfold bounded. intros H. apply Nat.leb_le in H. split; [|assumption].
  unfold private. apply not_elem_of_nil.
Qed.

Lemma closedb_sep s : closedb s = true -> sep (private []) s.
Proof.
  unfold closedb. rewrite !andb_true_iff, !forallb_forall.
  intros [[H1 H2] H3]. apply Nat.leb_le in H1.
  split; [assumption|]. split; [|split].
  - intros p Hp. now apply not_elem_of_nil in Hp.
  - intros p o _ Ho. destruct p as [|i]; [discriminate|]. simpl in Ho.
    apply list_elem_of_lookup_2, list_elem_of_In, H2 in Ho.
    destruct o; simpl in *; try exact I;
      apply andb_true_iff in Ho as [Ha Hb]; split; now apply bounded_okp.
  - intros e f name q Hf Hq. destruct e as [|i]; [discriminate|]. simpl in Hf.
    apply list_elem_of_lookup_2, list_elem_of_In, H3 in Hf.
    unfold frame_closed in Hf. rewrite forallb_forall in Hf.
    apply bounded_okp. apply (Hf (name, q)).
    apply list_elem_of_In. now apply elem_of_map_to_list.
Qed.

(** The bindings made by the loop of [apply]: parameter names and
    values are taken pairwise, in order, until the names run out. *)
Fixpoint bind_list (names : list string) (vals : list ptr) (m : gmap string ptr)
    : gmap string ptr :=
  match names, vals with
  | n :: names', v :: vals' => bind_list names' vals' (<[n := v]> m)
  | _, _ => m
  end.

Definition symbol_named (s : State) (p : ptr) (n : string) : Prop :=
  obj_at s p = Some (O_SYMBOL n).

Lemma cells_same_heap s s' p l e : heap s' = heap s -> cells s p l e -> cells s' p l e.
Proof.
  intros E. induction 1 as [p|p a d l e Hp H IH]; [constructor|].
  econstructor; [|exact IH]. destruct p; [discriminate|]. simpl in *. now rewrite E.
Qed.

Lemma with_frames_same s : with_frames s (frames s) = s.
Proof. now destruct s. Qed.

Lemma obj_at_same_heap s s' p : heap s' = heap s -> obj_at s' p = obj_at s p.
Proof. intros E. destruct p; [reflexivity|]. simpl. now rewrite E. Qed.

Lemma bind_params_loop s0 params ps e :
  cells s0 params ps e -> not_pair s0 e ->
  forall s child names args vals tail f fuel,
    heap s = heap s0 ->
    Forall2 (symbol_named s0) ps names ->
    cells s0 args vals tail -> (length ps <= length vals)%nat ->
    frame_at s child = Some f ->
    (length ps < fuel)%nat ->
    bind_params fuel child params args s
    = Ok tt (with_frames s
               (<[pred child := mkEnv (bind_list names vals (ht f)) (parent f)]>
                  (frames s))).
Proof.
  induction 1 as [p|p a d l e Hp Hcells IH];
    intros He s child names args vals tail f fuel Hheap Hnames Hargs Hlen Hf Hfuel.
  - destruct fuel as [|k]; [simpl in Hfuel; lia|].
    inversion Hnames; subst. destruct He as (o & Ho & Hty). simpl.
    rewrite <- (obj_at_same_heap _ _ p Hheap) in Ho.
    rewrite (bind_ok _ _ _ _ _ (get_type_ok _ _ _ Ho)).
    replace (ObjectType_eqb (type_of o) OT_CONS) with false
      by (destruct o; try reflexivity; now elim Hty).
    unfold ret. f_equal.
    replace (mkEnv (ht f) (parent f)) with f by now destruct f.
    destruct child as [|i]; [discriminate|]. simpl in Hf |- *.
    rewrite list_insert_id by assumption. symmetry. apply with_frames_same.
  - destruct fuel as [|k]; [simpl in Hfuel; lia|].
    inversion Hnames as [|? n ? names' Hn Hnames']; subst.
    inversion Hargs as [|? v dargs vals' ? Hv Hargs']; subst;
      [simpl in Hlen; lia|].
    unfold symbol_named in Hn.
    rewrite <- (obj_at_same_heap _ _ p Hheap) in Hp.
    rewrite <- (obj_at_same_heap _ _ a Hheap) in Hn.
    rewrite <- (obj_at_same_heap _ _ args Hheap) in Hv.
    simpl.
    rewrite (bind_ok _ _ _ _ _ (get_type_ok _ _ _ Hp)). simpl.
    rewrite (bind_ok _ _ _ _ _ (get_car_ok _ _ _ _ Hp)).
    rewrite (bind_ok _ _ _ _ _ (get_name_ok _ _ _ Hn)).
    rewrite (bind_ok _ _ _ _ _ (field_car_ok _ _ _ _ Hv)).
    rewrite (bind_ok _ _ _ _ _ (ht_insert_ok s child f n v Hf)).
    set (f' := mkEnv (<[n := v]> (ht f)) (parent f)).
    set (s' := with_frames s (<[pred child := f']> (frames s))).
    assert (Hp' : obj_at s' p = Some (O_CONS a d)) by exact Hp.
    assert (Hv' : obj_at s' args = Some (O_CONS v dargs)) by exact Hv.
    rewrite (bind_ok _ _ _ _ _ (get_cdr_ok _ _ _ _ Hp')).
    rewrite (bind_ok _ _ _ _ _ (field_cdr_ok _ _ _ _ Hv')).
    assert (Hf' : frame_at s' child = Some f').
    { destruct child as [|i]; [discriminate|]. simpl in Hf |- *.
      apply list_lookup_insert_eq. now apply lookup_lt_Some in Hf. }
    rewrite (IH He s' child names' dargs vals' tail f' k); auto.
    + unfold s'. unfold with_frames at 1. cbn [heap frames stdin stdout with_frames].
      rewrite list_insert_insert_eq. reflexivity.
    + simpl in Hlen. lia.
    + simpl in Hfuel. lia.
Qed.

(** The successive evaluations made by a loop that runs over the cells
    of a list, as the loops of [progn], [and] and [or] do: the
    expression in the first cell is evaluated in the given environment
    and in the state the loop is entered with, then the [cdr] field of
    the cell is read in the state so reached and the loop goes on from
    there.  [vals] collects the values in that order, [rest] is the
    cell the loop has arrived at and the last state is the state it is
    in then. *)
Inductive seq_trace (ev : evaluator) (env : envptr) :
  ptr -> State -> list ptr -> ptr -> State -> Prop :=
| seq_trace_stop args s :
    seq_trace ev env args s [] args s
| seq_trace_step args a s v s1 d vals rest s2 :
    args <> Nil ->
    get_car args s = Ok a s ->
    ev env a s = Ok v s1 ->
    get_cdr args s1 = Ok d s1 ->
    seq_trace ev env d s1 vals rest s2 ->
    seq_trace ev env args s (v :: vals) rest s2.

(** The value of the last evaluation, or [acc] when there is none. *)
Definition last_or (acc : option ptr) (ws : list ptr) : option ptr :=
  match last ws with
  | Some w => Some w
  | None => acc
  end.

Lemma last_or_cons acc w ws : last_or acc (w :: ws) = last_or (Some w) ws.
Proof.
  unfold last_or. destruct ws as [|w' ws]; [reflexivity|]. rewrite last_cons_cons.
  destruct (last (w' :: ws)) eqn:E; [reflexivity|].
  apply last_None in E. discriminate.
Qed.

(** [progn] returns exactly when the expressions of the sequence can be
    evaluated one after the other down to the end of the list, each in
    the state the one before has left; the value is that of the last
    one and the state the one it has left. *)
Lemma progn_loop_trace fuel ev env : forall args acc s v s',
  progn_loop fuel ev env args acc s = Ok v s'
  <-> exists ws, seq_trace ev env args s ws Nil s'
                 /\ last_or acc ws = Some v /\ (length ws < fuel)%nat.
Proof.
  induction fuel as [|k IH]; intros args acc s v s'.
  { split; [discriminate|]. intros (ws & _ & _ & H). lia. }
  simpl. split.
  - intros H. destruct (args =? Nil)%nat eqn:E.
    + apply Nat.eqb_eq in E as ->. destruct acc; [|discriminate].
      injection H as <- <-. exists []. split; [constructor|].
      split; [reflexivity|simpl; lia].
    + apply Nat.eqb_neq in E.
      apply bind_inv in H as (a & sA & Hcar & H).
      destruct (get_car_inv _ _ _ _ Hcar) as [-> _].
      apply bind_inv in H as (w & s1 & Hev & H).
      apply bind_inv in H as (d & sD & Hcdr & H).
      destruct (get_cdr_inv _ _ _ _ Hcdr) as [-> _].
      apply IH in H as (ws & Htrace & Hlast & Hlen).
      exists (w :: ws). split; [econstructor; eauto|].
      split; [now rewrite last_or_cons|simpl; lia].
  - intros (ws & Htrace & Hlast & Hlen).
    inversion Htrace as [? ?|? a ? w s1 d ws' ? ? Hne Hcar Hev Hcdr Hrest]; subst.
    + simpl. unfold last_or in Hlast. simpl in Hlast. now rewrite Hlast.
    + apply Nat.eqb_neq in Hne. rewrite Hne.
      rewrite (bind_ok _ _ _ _ _ Hcar), (bind_ok _ _ _ _ _ Hev),
        (bind_ok _ _ _ _ _ Hcdr).
      apply IH. exists ws'. split; [assumption|].
      rewrite last_or_cons in Hlast. split; [exact Hlast|simpl in Hlen; lia].
Qed.

Lemma progn_trace fuel ev env body s v s' :
  progn fuel ev env body s = Ok v s'
  <-> exists ws, seq_trace ev env body s ws Nil s'
                 /\ last ws = Some v /\ (length ws < fuel)%nat.
Proof.
  unfold progn. rewrite progn_loop_trace.
  split; intros (ws & Htrace & Hlast & Hlen); exists ws;
    (split; [assumption|]); (split; [|assumption]);
    unfold last_or in *; destruct (last ws); congruence.
Qed.

(** C1.  Let [o] be a closure with parameter list [params] and body
    [body], applied to the argument list [args] in the environment
    [env], in a closed state.  When [eval_args] returns, it has
    evaluated the argument expressions one after the other, from left
    to right, in [env] ([args_trace]), and the list it returns holds
    exactly these values, in order.  The application then equals the
    evaluation of the body sequence in the state [s2] where one frame
    has been added: the new frame binds each parameter name to the
    value at the same position and its parent is the caller's
    environment [env].  The application returns [v] in the state [s']
    exactly when the expressions of [body] can be evaluated in the new
    frame one after the other, starting in [s2] and each in the state
    the one before has left, down to the end of the body
    ([seq_trace]), [v] is the value of the last of them and [s'] the
    state it has left. *)
Theorem closure_application
    (fuel : nat) (env : envptr) (s : State) (o args params body vs : ptr) (s1 : State) :
  closedb s = true ->
  bounded (length (heap s)) args = true ->
  obj_at s o = Some (O_FUNCTION params body) ->
  eval_args fuel (eval fuel) env args s = Ok vs s1 ->
  exists vals,
    args_trace (eval fuel) env args Nil Nil s vals s1
    /\ cells s1 vs vals Nil
    /\ forall ps e names,
         cells s1 params ps e -> not_pair s1 e ->
         Forall2 (symbol_named s1) ps names ->
         (length ps <= length vals)%nat -> (length ps < fuel)%nat ->
         let child := S (length (frames s1)) in
         let s2 := with_frames s1
                     (frames s1 ++ [mkEnv (bind_list names vals ∅) env]) in
         apply fuel (eval fuel) env o args s
         = progn fuel (eval fuel) child body s2
         /\ forall v s',
              apply fuel (eval fuel) env o args s = Ok v s'
              <-> exists ws,
                    seq_trace (eval fuel) child body s2 ws Nil s'
                    /\ last ws = Some v /\ (length ws < fuel)%nat.
Proof.
  intros Hclosed Hargs Ho Hev.
  assert (Hinv : args_inv s Nil Nil [] []).
  { split; [now apply closedb_sep|]. split; [constructor|].
    split; [constructor|]. left. auto. }
  destruct (eval_args_loop_values fuel env fuel args s Nil Nil [] [] vs s1
              Hinv (bounded_okp _ _ Hargs) Hev)
    as (last' & cs' & vals & Hinv' & Htrace).
  simpl in Hinv'. exists vals. split; [exact Htrace|].
  split; [eapply args_inv_cells; eauto|].
  intros ps e names Hps He Hnames Hlen Hfuel child s2.
  assert (Hcells : cells s1 vs vals Nil) by (eapply args_inv_cells; eauto).
  assert (Ho1 : obj_at s1 o = Some (O_FUNCTION params body)).
  { apply (steps_eval_args (eval fuel) (steps_eval fuel) fuel env args s vs s1 Hev o _ Ho). }
  assert (Happly : apply fuel (eval fuel) env o args s
                   = progn fuel (eval fuel) child body s2).
  { unfold apply. rewrite (bind_ok _ _ _ _ _ (deref_ok _ _ _ Ho)).
    rewrite (bind_ok _ _ _ _ _ Hev).
    rewrite (bind_ok _ _ _ child (with_frames s1 (frames s1 ++ [mkEnv ∅ ENULL])))
      by reflexivity.
    set (sa := with_frames s1 (frames s1 ++ [mkEnv ∅ ENULL])).
    set (sb := with_frames s1 (frames s1 ++ [mkEnv ∅ env])).
    assert (Hparent : set_parent child env sa = Ok tt sb).
    { unfold set_parent, env_get, env_put, bind, child, sa, sb. simpl.
      rewrite lookup_app_r by lia. rewrite Nat.sub_diag. simpl.
      rewrite lookup_app_r by lia. rewrite Nat.sub_diag. simpl.
      unfold with_frames. simpl.
      rewrite insert_app_r_alt by lia. rewrite Nat.sub_diag. reflexivity. }
    rewrite (bind_ok _ _ _ _ _ Hparent).
    assert (Hframe : frame_at sb child = Some (mkEnv ∅ env)).
    { unfold child, sb. simpl. rewrite lookup_app_r by lia.
      now rewrite Nat.sub_diag. }
    rewrite (bind_ok _ _ _ tt s2).
    + assert (Ho2 : obj_at s2 o = Some (O_FUNCTION params body)) by exact Ho1.
      rewrite (bind_ok _ _ _ _ _ (get_body_ok _ _ _ _ Ho2)). reflexivity.
    + rewrite (bind_params_loop s1 params ps e Hps He sb child names vs vals Nil
                 (mkEnv ∅ env) fuel); auto.
      f_equal. unfold s2, sb, with_frames. simpl. f_equal.
      unfold child. simpl. rewrite insert_app_r_alt by lia.
      rewrite Nat.sub_diag. reflexivity. }
  split; [exact Happly|].
  intros v s'. rewrite Happly. apply progn_trace.
Qed.

Definition value_of (r : result ptr) : ptr :=
  match r with
  | Ok v _ => v
  | _ => NULL
  end.

(** The application [((lambda (x y) x (- x y)) 7 (+ 1 2))]: the
    operator is the expression at address 25 and the argument list
    starts at address 42; evaluating the operator yields the closure at
    address 50, with parameters at 27 and body at 32. *)
Definition s_app : State :=
  state_of (eval 30 1%nat 25%nat
              (state_of (load 30 1 "((lambda (x y) x (- x y)) 7 (+ 1 2))"))).

(** [eval_args] returns the list at address 51, which holds the values
    at 41 (the integer 7) and 54 (the integer 3); the parameters are
    the symbols at 26 and 28; the call returns the integer 4, at
    address 58. *)
Definition s_app_args : State := state_of (eval_args 30 (eval 30) 1%nat 42%nat s_app).

Lemma closure_application_witness :
  args_trace (eval 30) 1%nat 42%nat Nil Nil s_app [41; 54]%nat s_app_args
  /\ cells s_app_args 51%nat [41; 54]%nat Nil
  /\ apply 30 (eval 30) 1%nat 50%nat 42%nat s_app
     = progn 30 (eval 30) (S (length (frames s_app_args))) 32%nat
         (with_frames s_app_args
            (frames s_app_args ++ [mkEnv (bind_list ["x"; "y"] [41; 54]%nat ∅) 1%nat]))
  /\ (forall v s',
        apply 30 (eval 30) 1%nat 50%nat 42%nat s_app = Ok v s'
        <-> exists ws,
              seq_trace (eval 30) (S (length (frames s_app_args))) 32%nat
                (with_frames s_app_args
                   (frames s_app_args
                    ++ [mkEnv (bind_list ["x"; "y"] [41; 54]%nat ∅) 1%nat]))
                ws Nil s'
              /\ last ws = Some v /\ (length ws < 30)%nat)
  /\ exists ws,
       seq_trace (eval 30) (S (length (frames s_app_args))) 32%nat
         (with_frames s_app_args
            (frames s_app_args ++ [mkEnv (bind_list ["x"; "y"] [41; 54]%nat ∅) 1%nat]))
         ws Nil (state_of (apply 30 (eval 30) 1%nat 50%nat 42%nat s_app))
       /\ last ws = Some 58%nat /\ (length ws < 30)%nat.
Proof.
  destruct (closure_application 30 1%nat s_app 50%nat 42%nat 27%nat 32%nat 51%nat
              s_app_args
              ltac:(vm_compute; reflexivity) ltac:(vm_compute; reflexivity)
              ltac:(vm_compute; reflexivity) ltac:(vm_compute; reflexivity))
    as (vals & Htrace & Hcells & H).
  assert (Hvals : vals = [41; 54]%nat).
  { inversion Hcells as [|? a1 d1 l1 ? Hp1 Hrest1]; subst.
    vm_compute in Hp1. injection Hp1 as <- <-.
    inversion Hrest1 as [|? a2 d2 l2 ? Hp2 Hrest2]; subst.
    vm_compute in Hp2. injection Hp2 as <- <-.
    inversion Hrest2 as [|? a3 d3 l3 ? Hp3 Hrest3]; subst; [reflexivity|].
    vm_compute in Hp3. discriminate. }
  subst vals.
  assert (H' := H [26; 28]%nat Nil ["x"; "y"]
                  ltac:(repeat first [ apply cells_end
                                     | eapply cells_step; [vm_compute; reflexivity|] ])
                  ltac:(exists O_NIL; split; [vm_compute; reflexivity|discriminate])
                  ltac:(repeat constructor; vm_compute; reflexivity)
                  ltac:(simpl; lia) ltac:(simpl; lia)).
  cbv zeta in H'. destruct H' as [Happly Hiff].
  split; [exact Htrace|]. split; [exact Hcells|]. split; [exact Happly|].
  split; [exact Hiff|].
  apply Hiff. vm_compute; reflexivity.
Defined.

(** The value returned is the integer 4, the value of [(- x y)] with
    [x] bound to 7 and [y] to 3. *)
Example application_returns_difference :
  obj_at (state_of (apply 30 (eval 30) 1%nat 50%nat 42%nat s_app))
    (value_of (apply 30 (eval 30) 1%nat 50%nat 42%nat s_app))
  = Some (O_INT 4).
Proof. vm_compute. reflexivity. Qed.

(** The new frame is chained to the caller's frame, not to the frame
    the closure was created in: called from a function whose parameter
    is [x], the closure [f] sees that [x] and not the [x] of the root
    frame it was defined in. *)
Example caller_chained_scoping :
  observe (run 40 1 "(progn (define x 1) (define f (lambda () x)) ((lambda (x) (f)) 5))")
  = Returned (Some (O_INT 5)) "".
Proof. vm_compute. reflexivity. Qed.

(** * The while loop (C3) *)

(** ** Values as trees *)

(** The data a program text denotes: integers, symbols, the two atoms
    and pairs. *)
Inductive value : Type :=
| VInt (z : Z)
| VSym (name : string)
| VNil
| VTrue
| VPair (car cdr : value).

Definition vlist (l : list value) : value := fold_right VPair VNil l.

(** [repr s p v]: in the heap of [s], the pointer [p] designates the
    tree [v]. *)
Inductive repr (s : State) : ptr -> value -> Prop :=
| repr_int p z : obj_at s p = Some (O_INT z) -> repr s p (VInt z)
| repr_sym p n : obj_at s p = Some (O_SYMBOL n) -> repr s p (VSym n)
| repr_nil : repr s Nil VNil
| repr_true : repr s True' VTrue
| repr_pair p a d x y :
    obj_at s p = Some (O_CONS a d) -> repr s a x -> repr s d y ->
    repr s p (VPair x y).

(** ** Evaluation of the basic forms *)

Lemma eval_symbol n env o s name :
  obj_at s o = Some (O_SYMBOL name) ->
  eval (S n) env o s = env_lookup n env name s.
Proof.
  intros Ho. rewrite eval_S. destruct o as [|i]; [discriminate|]. cbn [Nat.eqb NULL].
  now rewrite (bind_ok _ _ _ _ _ (deref_ok _ _ _ Ho)).
Qed.


(** A list whose operator evaluates, without a change of state, to a
    primitive: the primitive is called on the rest of the list. *)
Lemma eval_primitive_call n env o s f args p fn targs :
  obj_at s o = Some (O_CONS f args) ->
  eval n env f s = Ok p s ->
  obj_at s p = Some (O_PRIMITIVE fn) ->
  obj_at s args = Some targs ->
  type_of targs = OT_CONS \/ type_of targs = OT_NIL ->
  eval (S n) env o s = call_primitive fn n (eval n) env args s.
Proof.
  intros Ho Hf Hp Hargs Hty. rewrite eval_S.
  destruct o as [|i]; [discriminate|]. cbn [Nat.eqb NULL].
  rewrite (bind_ok _ _ _ _ _ (deref_ok _ _ _ Ho)).
  rewrite (bind_ok _ _ _ _ _ Hf).
  rewrite (bind_ok _ _ _ _ _ (get_cdr_ok _ _ _ _ Ho)).
  rewrite (bind_ok _ _ _ _ _ (get_type_ok _ _ _ Hp)).
  cbn [type_of ObjectType_eqb negb andb].
  rewrite (bind_ok _ _ _ _ _ (get_type_ok _ _ _ Hargs)).
  replace (negb (ObjectType_eqb (type_of targs) OT_NIL)
           && negb (ObjectType_eqb (type_of targs) OT_CONS)) with false
    by (destruct Hty as [-> | ->]; reflexivity).
  unfold apply. now rewrite (bind_ok _ _ _ _ _ (deref_ok _ _ _ Hp)).
Qed.

(** ** Name resolution *)

(** [resolves fr e name p d]: looking [name] up from the frame [e]
    finds [p] after climbing [d] parent links. *)
Inductive resolves (fr : list Env) : envptr -> string -> ptr -> nat -> Prop :=
| resolves_here e f name p :
    fr !! e = Some f -> ht f !! name = Some p ->
    resolves fr (S e) name p 0
| resolves_up e f name p d :
    fr !! e = Some f -> ht f !! name = None -> parent f <> ENULL ->
    resolves fr (parent f) name p d ->
    resolves fr (S e) name p (S d).

Lemma resolves_lookup s e name p d :
  resolves (frames s) e name p d ->
  forall fuel, (d < fuel)%nat -> env_lookup fuel e name s = Ok p s.
Proof.
  induction 1 as [e f name p Hf Hp|e f name p d Hf Hnone Hpar Hres IH];
    intros fuel Hfuel; (destruct fuel as [|k]; [lia|]); simpl;
    unfold env_get, bind; simpl; rewrite Hf; simpl.
  - now rewrite Hp.
  - rewrite Hnone. apply Nat.eqb_neq in Hpar. rewrite Hpar. apply IH. lia.
Qed.


(** ** Cells appended to the heap *)




Lemma pair_not_Nil s p a d :
  obj_at s Nil = Some O_NIL -> obj_at s p = Some (O_CONS a d) -> (p =? Nil)%nat = false.
Proof. intros HNil Hp. apply Nat.eqb_neq. intros ->. congruence. Qed.

Lemma Nil_allocated s : obj_at s Nil = Some O_NIL -> (1 <= length (heap s))%nat.
Proof. intros H. apply obj_at_lt in H. unfold Nil in H. lia. Qed.

Ltac step H := rewrite (bind_ok _ _ _ _ _ H).



Lemma cells_two s args a d b :
  obj_at s args = Some (O_CONS a d) -> obj_at s d = Some (O_CONS b Nil) ->
  cells s args [a; b] Nil.
Proof. intros H1 H2. eapply cells_step; [exact H1|]. eapply cells_step; [exact H2|]. constructor. Qed.




(** [define] of a symbol. *)
Lemma define_symbol ev env s dargs xs d e name value s1 f n :
  obj_at s Nil = Some O_NIL ->
  obj_at s dargs = Some (O_CONS xs d) ->
  obj_at s d = Some (O_CONS e Nil) ->
  obj_at s xs = Some (O_SYMBOL name) ->
  ev env e s = Ok value s1 ->
  obj_at s1 dargs = Some (O_CONS xs d) ->
  obj_at s1 xs = Some (O_SYMBOL name) ->
  frame_at s1 env = Some f ->
  primitive_define (S (S (S n))) ev env dargs s
  = Ok value
       (with_frames s1
          (<[pred env := mkEnv (<[name := value]> (ht f)) (parent f)]> (frames s1))).
Proof.
  intros HNil Hdargs Hd Hxs Hev Hdargs1 Hxs1 Hf. unfold primitive_define.
  step (count_cells s dargs [xs; e] (cells_two _ _ _ _ _ Hdargs Hd) HNil (S (S (S n)))
          ltac:(simpl; lia)).
  change (negb (Z.of_nat (length [xs; e]) =? 2)) with false. cbv iota.
  step (get_car_ok _ _ _ _ Hdargs). step (get_type_ok _ _ _ Hxs).
  cbn [type_of ObjectType_eqb negb].
  step (get_cdr_ok _ _ _ _ Hdargs). step (get_car_ok _ _ _ _ Hd). step Hev.
  step (get_car_ok _ _ _ _ Hdargs1). step (get_name_ok _ _ _ Hxs1).
  step (ht_insert_ok s1 env f name value Hf). reflexivity.
Qed.

(** ** The countdown loop *)













Lemma wrap_small z : -2147483648 <= z < 2147483648 -> wrap z = z.
Proof.
  intros H. unfold wrap.
  rewrite Z.mod_small by lia. lia.
Qed.


Lemma repr_prefix s s' p v :
  heap s `prefix_of` heap s' -> repr s p v -> repr s' p v.
Proof.
  intros Hpre. induction 1; econstructor; eauto using prefix_obj_at.
Qed.


(** The root environment after [(define x 3)], with the loop read. *)
Definition while_session : result (envptr * ptr) :=
  (let* env := env_init in
   let* d := read 1 40 in
   let* _ := eval 40 env d in
   let* o := read 1 40 in
   ret (env, o))
    (initial_state
       (list_ascii_of_string "(define x 3) (while (> x 0) (define x (- x 1)))")).

Definition s_while : State := state_of while_session.

Ltac prove_repr :=
  repeat first
    [ apply repr_nil
    | eapply repr_int; vm_compute; reflexivity
    | eapply repr_sym; vm_compute; reflexivity
    | eapply repr_pair; [vm_compute; reflexivity| |] ].


(** The same run, computed: twelve units of fuel suffice, the result is
    [Nil] and [x] ends bound to an integer object holding 0. *)
Example while_countdown_run :
  exists s' f' px',
    eval 12 1%nat 31%nat s_while = Ok Nil s'
    /\ frames s' !! 0%nat = Some f' /\ ht f' !! "x" = Some px'
    /\ obj_at s' px' = Some (O_INT 0).
Proof.
  eexists _, _, _. split; [vm_compute; reflexivity|].
  split; [vm_compute; reflexivity|]. split; vm_compute; reflexivity.
Qed.

(** * Printing and reading back (C2) *)

(** The text [print] writes for the object at [p], when it returns. *)
Definition printed (fuel : nat) (s : State) (p : ptr) : option (list ascii) :=
  match print fuel p (with_stdout s []) with
  | Ok _ s' => Some (stdout s')
  | _ => None
  end.

(** Print the object at [p], read the text back as one expression and
    print the object read. *)
Definition reprinted (junk : Z) (fuel : nat) (s : State) (p : ptr) : option (list ascii) :=
  match printed fuel s p with
  | Some text =>
      match read junk fuel (with_stdin s text) with
      | Ok q s1 => printed fuel s1 q
      | _ => None
      end
  | None => None
  end.

(** ** The printed text of a tree *)

(** What [print] writes for a tree whose pairs form proper lists: the
    elements of a list separated by one space, between parentheses. *)
Fixpoint text (v : value) : list ascii :=
  match v with
  | VInt z => dec z
  | VSym n => list_ascii_of_string n
  | VNil => list_ascii_of_string "Nil"
  | VTrue => list_ascii_of_string "True"
  | VPair x y => "("%char :: text x ++ tail_text y ++ [")"%char]
  end
with tail_text (y : value) : list ascii :=
  match y with
  | VPair x y' => " "%char :: text x ++ tail_text y'
  | _ => []
  end.

Fixpoint size (v : value) : nat :=
  match v with
  | VPair x y => S (size x + size y)
  | _ => 1
  end.

(** Every chain of pairs ends in [Nil]. *)
Fixpoint proper (v : value) : bool :=
  match v with
  | VPair x y => proper x && proper_tail y
  | _ => true
  end
with proper_tail (y : value) : bool :=
  match y with
  | VNil => true
  | VPair x y' => proper x && proper_tail y'
  | _ => false
  end.

(** A character [read_symbol] accepts, the null character apart. *)
Definition symbol_char (a : ascii) : bool :=
  isalnum (code a) || existsb (Ascii.eqb a) symbol_special_chars.

(** A name that [read] takes for a symbol and reads to its end: made of
    symbol characters, at most [SYMBOL_MAX_LENGTH] of them, starting
    neither with a digit nor with a minus sign followed by a digit. *)
Definition plain_name (n : string) : bool :=
  let cs := list_ascii_of_string n in
  forallb symbol_char cs && (length cs <=? 128)%nat &&
  match cs with
  | [] => false
  | a :: rest =>
      negb (isdigit (code a)) &&
      negb ((code a =? 45) && match rest with b :: _ => isdigit (code b) | [] => false end)
  end.

(** The trees [read] reads back from their text: integers whose
    magnitude fits an [int], symbols with a plain name, the two atoms,
    and proper lists of such trees. *)
Fixpoint readable (v : value) : bool :=
  match v with
  | VInt z => (-2147483648 <? z) && (z <? 2147483648)
  | VSym n => plain_name n
  | VNil | VTrue => true
  | VPair x y => readable x && readable_tail y
  end
with readable_tail (y : value) : bool :=
  match y with
  | VNil => true
  | VPair x y' => readable x && readable_tail y'
  | _ => false
  end.

(** The tree read back: [Nil] and [True] are printed as their names
    and come back as symbols; the [Nil] that ends a list is not
    printed and stays. *)
Fixpoint norm (v : value) : value :=
  match v with
  | VNil => VSym "Nil"
  | VTrue => VSym "True"
  | VPair x y => VPair (norm x) (norm_tail y)
  | _ => v
  end
with norm_tail (y : value) : value :=
  match y with
  | VPair x y' => VPair (norm x) (norm_tail y')
  | _ => y
  end.

Fixpoint elements (y : value) : list value :=
  match y with
  | VPair x y' => x :: elements y'
  | _ => []
  end.

(** ** Characters *)

Lemma code_range a : 0 <= code a < 256.
Proof.
  unfold code. pose proof (N_ascii_bounded a). lia.
Qed.

Lemma to_char_code a : to_char (code a) = a.
Proof.
  unfold to_char. pose proof (code_range a) as H.
  rewrite Z.mod_small by exact H. unfold code.
  rewrite N2Z.id. apply ascii_N_embedding.
Qed.

Lemma code_inj a k : code a = k -> a = to_char k.
Proof. intros <-. symmetry. apply to_char_code. Qed.

Lemma code_not_EOF a : (code a =? EOF) = false.
Proof. apply Z.eqb_neq. pose proof (code_range a). unfold EOF. lia. Qed.

Definition head_code (l : list ascii) : Z :=
  match l with
  | [] => EOF
  | a :: _ => code a
  end.

Lemma getchar_cons s a r : stdin s = a :: r -> getchar s = Ok (code a) (with_stdin s r).
Proof. intros H. unfold getchar. now rewrite H. Qed.

Lemma with_stdin_same s : with_stdin s (stdin s) = s.
Proof. now destruct s. Qed.

Lemma ungetc_code a s r :
  stdin s = a :: r -> ungetc (code a) (with_stdin s r) = Ok tt s.
Proof.
  intros H. unfold ungetc. rewrite code_not_EOF, to_char_code.
  simpl. f_equal. destruct s; simpl in *. unfold with_stdin. simpl. now rewrite H.
Qed.

Lemma peek_stdin s : peek s = Ok (head_code (stdin s)) s.
Proof.
  unfold peek. destruct (stdin s) as [|a r] eqn:E.
  - unfold bind, getchar. rewrite E. reflexivity.
  - step (getchar_cons _ _ _ E). step (ungetc_code _ _ _ E). reflexivity.
Qed.

(** The text after a token: nothing, a space or a closing parenthesis. *)
Definition delimited (rest : list ascii) : bool :=
  match rest with
  | [] => true
  | a :: _ => (code a =? 32) || (code a =? 41)
  end.

Lemma delimited_stop rest :
  delimited rest = true ->
  isdigit (head_code rest) = false
  /\ isalnum (head_code rest) || strchr_special (head_code rest) = false.
Proof.
  destruct rest as [|a r]; simpl; [intros _; vm_compute; auto|].
  intros H. apply orb_true_iff in H as [H|H]; apply Z.eqb_eq in H; rewrite H;
    vm_compute; auto.
Qed.

Lemma strchr_special_code a :
  strchr_special (code a) = existsb (Ascii.eqb a) symbol_special_chars || Ascii.eqb a zero.
Proof. unfold strchr_special. now rewrite to_char_code. Qed.

Lemma symbol_char_accepted a :
  symbol_char a = true -> isalnum (code a) || strchr_special (code a) = true.
Proof.
  unfold symbol_char. rewrite strchr_special_code.
  destruct (isalnum (code a)); [reflexivity|]. simpl. now intros ->.
Qed.

(** By cases on the 256 characters. *)
Lemma symbol_char_facts a :
  symbol_char a = true ->
  isspace (code a) = false /\ (code a =? 41) = false /\ (code a =? 40) = false
  /\ Ascii.eqb a zero = false
  /\ (isdigit (code a) = false -> isalpha (code a) || strchr_special (code a) = true).
Proof.
  destruct a as [[] [] [] [] [] [] [] []]; vm_compute; intros H;
    repeat split; congruence.
Qed.

Lemma digit_facts a :
  isdigit (code a) = true ->
  isspace (code a) = false /\ (code a =? 41) = false /\ (code a =? 45) = false.
Proof.
  destruct a as [[] [] [] [] [] [] [] []]; vm_compute; intros H;
    repeat split; congruence.
Qed.

(** ** Decimal numerals *)

Definition is_digit (a : ascii) : Prop := isdigit (code a) = true.

(** The number a string of digits denotes, continuing from [acc]. *)
Definition numeral (cs : list ascii) (acc : Z) : Z :=
  fold_left (fun a c => a * 10 + (code c - 48)) cs acc.

(** The same with the arithmetic of [read_number]. *)
Definition numeral_wrapped (cs : list ascii) (acc : Z) : Z :=
  fold_left (fun a c => wrap (a * 10 + (code c - 48))) cs acc.

Lemma code_digit_char d : 0 <= d < 10 -> code (digit_char d) = 48 + d.
Proof.
  intros H. unfold code, digit_char.
  rewrite N_ascii_embedding by lia. lia.
Qed.

Lemma digit_char_is_digit d : 0 <= d < 10 -> is_digit (digit_char d).
Proof.
  intros H. unfold is_digit, isdigit. rewrite code_digit_char by exact H.
  apply andb_true_iff. split; apply Z.leb_le; lia.
Qed.

Lemma is_digit_range a : is_digit a -> 0 <= code a - 48 < 10.
Proof.
  unfold is_digit, isdigit. intros H. apply andb_true_iff in H as [H1 H2].
  apply Z.leb_le in H1, H2. lia.
Qed.

Lemma dec_digits_S f n acc :
  dec_digits (S f) n acc =
  if n <? 10 then digit_char (n mod 10) :: acc
  else dec_digits f (n / 10) (digit_char (n mod 10) :: acc).
Proof. reflexivity. Qed.

Lemma dec_digits_numeral f :
  forall n acc, 0 <= n < 2 ^ Z.of_nat (S f) ->
    exists ds, dec_digits (S f) n acc = ds ++ acc /\ ds <> []
               /\ Forall is_digit ds /\ numeral ds 0 = n.
Proof.
  induction f as [|f IH]; intros n acc Hn; rewrite dec_digits_S.
  - assert (Hlt : n < 10) by (change (2 ^ Z.of_nat 1) with 2 in Hn; lia).
    apply Z.ltb_lt in Hlt as Hb. rewrite Hb.
    exists [digit_char (n mod 10)]. rewrite Z.mod_small by lia.
    repeat split; [discriminate|repeat constructor; apply digit_char_is_digit; lia|].
    unfold numeral. simpl. rewrite code_digit_char by lia. lia.
  - destruct (n <? 10) eqn:Hb.
    + apply Z.ltb_lt in Hb.
      exists [digit_char (n mod 10)]. rewrite Z.mod_small by lia.
      repeat split; [discriminate|repeat constructor; apply digit_char_is_digit; lia|].
      unfold numeral. simpl. rewrite code_digit_char by lia. lia.
    + apply Z.ltb_ge in Hb.
      assert (Hq : 0 <= n / 10 < 2 ^ Z.of_nat (S f)).
      { split; [apply Z.div_pos; lia|].
        apply Z.div_lt_upper_bound; [lia|].
        replace (Z.of_nat (S (S f))) with (Z.succ (Z.of_nat (S f))) in Hn by lia.
        rewrite Z.pow_succ_r in Hn by lia. lia. }
      destruct (IH (n / 10) (digit_char (n mod 10) :: acc) Hq)
        as (ds & Hds & Hne & Hall & Hnum).
      exists (ds ++ [digit_char (n mod 10)]).
      pose proof (Z.mod_pos_bound n 10 ltac:(lia)) as Hm.
      repeat split.
      * rewrite Hds. now rewrite <- app_assoc.
      * destruct ds; discriminate.
      * apply Forall_app. split; [exact Hall|].
        repeat constructor. now apply digit_char_is_digit.
      * unfold numeral in *. rewrite fold_left_app, Hnum. simpl.
        rewrite code_digit_char by lia.
        pose proof (Z.div_mod n 10 ltac:(lia)). lia.
Qed.

Lemma dec_unsigned_numeral n :
  0 <= n ->
  dec_unsigned n <> [] /\ Forall is_digit (dec_unsigned n) /\ numeral (dec_unsigned n) 0 = n.
Proof.
  intros Hn. unfold dec_unsigned.
  assert (Hb : 0 <= n < 2 ^ Z.of_nat (S (Z.to_nat (Z.log2 n)))).
  { split; [exact Hn|].
    pose proof (Z.log2_nonneg n) as Hl.
    replace (Z.of_nat (S (Z.to_nat (Z.log2 n)))) with (Z.succ (Z.log2 n)) by lia.
    destruct (Z.eq_dec n 0) as [->|Hz]; [reflexivity|].
    apply Z.log2_spec. lia. }
  destruct (dec_digits_numeral _ n [] Hb) as (ds & Hds & Hne & Hall & Hnum).
  rewrite Hds, app_nil_r. auto.
Qed.

Lemma numeral_ge cs :
  Forall is_digit cs -> forall acc, 0 <= acc -> acc <= numeral cs acc.
Proof.
  induction 1 as [|a cs Ha _ IH]; intros acc Hacc; [simpl; unfold numeral; simpl; lia|].
  unfold numeral. simpl. fold (numeral cs (acc * 10 + (code a - 48))).
  apply is_digit_range in Ha.
  specialize (IH (acc * 10 + (code a - 48)) ltac:(lia)). lia.
Qed.

(** As long as the number fits an [int], no step of the accumulation
    overflows. *)
Lemma numeral_wrapped_small cs :
  Forall is_digit cs -> forall acc, 0 <= acc -> numeral cs acc < 2147483648 ->
  numeral_wrapped cs acc = numeral cs acc.
Proof.
  induction 1 as [|a cs Ha Hcs IH]; intros acc Hacc Hlt; [reflexivity|].
  unfold numeral_wrapped, numeral in *. simpl in *.
  pose proof (is_digit_range _ Ha) as Hd.
  pose proof (numeral_ge cs Hcs (acc * 10 + (code a - 48)) ltac:(lia)) as Hge.
  unfold numeral in Hge.
  rewrite wrap_small by lia. apply IH; [lia|exact Hlt].
Qed.

Lemma read_number_loop_S n v :
  read_number_loop (S n) v =
  let* p := peek in
  if isdigit p then
    let* c := getchar in
    read_number_loop n (wrap (v * 10 + (c - 48)))
  else ret v.
Proof. reflexivity. Qed.

(** [read_number]'s loop consumes a string of digits up to the first
    character that is not one. *)
Lemma read_number_loop_ok cs :
  Forall is_digit cs ->
  forall rest s fuel acc,
    delimited rest = true -> stdin s = cs ++ rest -> (length cs < fuel)%nat ->
    read_number_loop fuel acc s = Ok (numeral_wrapped cs acc) (with_stdin s rest).
Proof.
  induction 1 as [|a cs Ha _ IH]; intros rest s fuel acc Hrest Hin Hfuel;
    (destruct fuel as [|fuel]; [simpl in Hfuel; lia|]); rewrite read_number_loop_S;
    simpl in Hin; step (peek_stdin s); rewrite Hin; cbn [head_code].
  - destruct (delimited_stop _ Hrest) as [-> _].
    rewrite <- Hin, with_stdin_same. reflexivity.
  - unfold is_digit in Ha. rewrite Ha.
    step (getchar_cons _ _ _ Hin).
    rewrite (IH rest (with_stdin s (cs ++ rest)) fuel _ Hrest eq_refl)
      by (simpl in Hfuel; lia).
    reflexivity.
Qed.

(** ** Symbols *)

Lemma read_symbol_loop_S n buf i :
  read_symbol_loop (S n) buf i =
  let* p := peek in
  if isalnum p || strchr_special p then
    if SYMBOL_MAX_LENGTH <=? i then err "Symbol name is too long"
    else
      let* c := getchar in
      read_symbol_loop n (buf ++ [to_char c]) (i + 1)
  else ret buf.
Proof. reflexivity. Qed.

(** [read_symbol]'s loop stores the symbol characters up to the first
    character that is not one, as long as the buffer has room. *)
Lemma read_symbol_loop_ok cs :
  Forall (fun a => symbol_char a = true) cs ->
  forall rest s fuel buf,
    delimited rest = true -> stdin s = cs ++ rest -> (length cs < fuel)%nat ->
    (length buf + length cs <= 128)%nat ->
    read_symbol_loop fuel buf (Z.of_nat (length buf)) s = Ok (buf ++ cs) (with_stdin s rest).
Proof.
  induction 1 as [|a cs Ha _ IH]; intros rest s fuel buf Hrest Hin Hfuel Hlen;
    (destruct fuel as [|fuel]; [simpl in Hfuel; lia|]); rewrite read_symbol_loop_S;
    simpl in Hin; step (peek_stdin s); rewrite Hin; cbn [head_code].
  - destruct (delimited_stop _ Hrest) as [_ ->].
    rewrite <- Hin, with_stdin_same, app_nil_r. reflexivity.
  - rewrite (symbol_char_accepted _ Ha).
    simpl in Hlen.
    replace (SYMBOL_MAX_LENGTH <=? Z.of_nat (length buf)) with false
      by (symmetry; apply Z.leb_gt; unfold SYMBOL_MAX_LENGTH; lia).
    step (getchar_cons _ _ _ Hin). rewrite to_char_code.
    replace (Z.of_nat (length buf) + 1) with (Z.of_nat (length (buf ++ [a])))
      by (rewrite length_app; simpl; lia).
    rewrite (IH rest (with_stdin s (cs ++ rest)) fuel _ Hrest eq_refl)
      by (rewrite ?length_app; simpl in *; lia).
    now rewrite <- app_assoc.
Qed.

Lemma c_string_plain cs :
  Forall (fun a => symbol_char a = true) cs -> c_string cs = string_of_list_ascii cs.
Proof.
  induction 1 as [|a cs Ha _ IH]; [reflexivity|]. simpl.
  destruct (symbol_char_facts a Ha) as (_ & _ & _ & -> & _). now rewrite IH.
Qed.

(** ** The printer on trees *)

Lemma repr_same_heap s s' p v : heap s' = heap s -> repr s p v -> repr s' p v.
Proof.
  intros E. induction 1; econstructor; eauto; now rewrite (obj_at_same_heap s s').
Qed.

Lemma print_S n o :
  print (S n) o =
  let* obj := deref o in
  match obj with
  | O_INT v => printf (dec v)
  | O_SYMBOL name => printf (list_ascii_of_string name)
  | O_CONS _ _ =>
      let* _ := printf (list_ascii_of_string "(") in
      let* _ := print_elements n (print n) o in
      printf (list_ascii_of_string ")")
  | O_NIL => printf (list_ascii_of_string "Nil")
  | O_TRUE => printf (list_ascii_of_string "True")
  | O_PRIMITIVE _ => printf (list_ascii_of_string "<primitive>")
  | O_FUNCTION _ _ => printf (list_ascii_of_string "<function>")
  end.
Proof. reflexivity. Qed.

Lemma print_elements_S n pr o :
  print_elements (S n) pr o =
  let* a := get_car o in
  let* _ := pr a in
  let* d := get_cdr o in
  if (d =? Nil)%nat then ret tt
  else
    let* _ := printf (list_ascii_of_string " ") in
    print_elements n pr d.
Proof. reflexivity. Qed.

(** [s] with [t] appended to the text written. *)
Definition written (s : State) (t : list ascii) : State :=
  with_stdout s (stdout s ++ t).

Lemma written_app s t u : written (written s t) u = written s (t ++ u).
Proof. unfold written, with_stdout. simpl. now rewrite app_assoc. Qed.

Definition atoms (s : State) : Prop :=
  obj_at s Nil = Some O_NIL /\ obj_at s True' = Some O_TRUE.

(** [print] on a tree with proper lists writes its text; the elements
    of a list are written by [print_elements], whose first element is
    the one already at hand. *)
Lemma print_text v :
  (proper v = true ->
   forall s p fuel, atoms s -> repr s p v -> (size v <= fuel)%nat ->
     print fuel p s = Ok tt (written s (text v)))
  /\ (proper_tail v = true ->
      forall s p a d tx fuel m, atoms s ->
        obj_at s p = Some (O_CONS a d) -> repr s d v ->
        (forall s', heap s' = heap s -> print m a s' = Ok tt (written s' tx)) ->
        (size v <= fuel)%nat -> (size v <= m)%nat ->
        print_elements fuel (print m) p s = Ok tt (written s (tx ++ tail_text v))).
Proof.
  induction v as [z|name| | |x [IHx _] y [IHy IHty]].
  - split; [|discriminate]. intros _ s p fuel _ Hr Hf.
    inversion Hr as [p' z' Hp| | | |]; subst.
    destruct fuel as [|fuel]; [simpl in Hf; lia|]. rewrite print_S.
    step (deref_ok _ _ _ Hp). reflexivity.
  - split; [|discriminate]. intros _ s p fuel _ Hr Hf.
    inversion Hr as [|p' n' Hp| | |]; subst.
    destruct fuel as [|fuel]; [simpl in Hf; lia|]. rewrite print_S.
    step (deref_ok _ _ _ Hp). reflexivity.
  - split.
    + intros _ s p fuel [HNil _] Hr Hf. inversion Hr; subst.
      destruct fuel as [|fuel]; [simpl in Hf; lia|]. rewrite print_S.
      step (deref_ok _ _ _ HNil). reflexivity.
    + intros _ s p a d tx fuel m [HNil _] Hp Hr Hpr Hf Hm. inversion Hr; subst.
      destruct fuel as [|fuel]; [simpl in Hf; lia|]. rewrite print_elements_S.
      step (get_car_ok _ _ _ _ Hp). step (Hpr s eq_refl).
      assert (Hp' : obj_at (written s tx) p = Some (O_CONS a Nil))
        by (now rewrite (obj_at_same_heap s)).
      step (get_cdr_ok _ _ _ _ Hp'). simpl. now rewrite app_nil_r.
  - split; [|discriminate]. intros _ s p fuel [_ HTrue] Hr Hf. inversion Hr; subst.
    destruct fuel as [|fuel]; [simpl in Hf; lia|]. rewrite print_S.
    step (deref_ok _ _ _ HTrue). reflexivity.
  - split.
    + intros Hpr s p fuel Hat Hr Hf. simpl in Hpr. apply andb_true_iff in Hpr as [Hpx Hpy].
      inversion Hr as [| | | |p' a d x' y' Hp Ha Hd]; subst.
      destruct fuel as [|fuel]; [simpl in Hf; lia|]. rewrite print_S. simpl in Hf.
      step (deref_ok _ _ _ Hp).
      unfold printf at 1. unfold bind at 1. fold (written s (list_ascii_of_string "(")).
      set (s1 := written s (list_ascii_of_string "(")).
      assert (Hat1 : atoms s1) by exact Hat.
      assert (Hd1 : repr s1 d y) by (apply (repr_same_heap s); [reflexivity|exact Hd]).
      assert (Hhead : forall s', heap s' = heap s1 ->
                                 print fuel a s' = Ok tt (written s' (text x))).
      { intros s' E. apply IHx; [exact Hpx| |apply (repr_same_heap s); [exact E|exact Ha]|lia].
        unfold atoms. now rewrite !(obj_at_same_heap s s') by exact E. }
      rewrite (bind_ok _ _ _ _ _
                 (IHty Hpy s1 p a d (text x) fuel fuel Hat1 Hp Hd1 Hhead
                    ltac:(lia) ltac:(lia))).
      unfold s1.
      unfold printf. rewrite written_app.
      fold (written (written s (list_ascii_of_string "(" ++ text x ++ tail_text y))
              (list_ascii_of_string ")")).
      rewrite written_app. simpl. now rewrite <- app_assoc.
    + intros Hpr s p a0 d0 tx fuel m Hat Hp Hr Hprint Hf Hm.
      simpl in Hpr. apply andb_true_iff in Hpr as [Hpx Hpy].
      inversion Hr as [| | | |p' a d x' y' Hd Ha Hdd]; subst.
      destruct fuel as [|fuel]; [simpl in Hf; lia|]. rewrite print_elements_S.
      simpl in Hf, Hm.
      step (get_car_ok _ _ _ _ Hp). step (Hprint s eq_refl).
      assert (Hp' : obj_at (written s tx) p = Some (O_CONS a0 d0))
        by (now rewrite (obj_at_same_heap s)).
      step (get_cdr_ok _ _ _ _ Hp').
      rewrite (pair_not_Nil s d0 a d (proj1 Hat) Hd).
      unfold printf at 1. unfold bind at 1.
      fold (written (written s tx) (list_ascii_of_string " ")).
      rewrite written_app.
      set (s1 := written s (tx ++ list_ascii_of_string " ")).
      assert (Hat1 : atoms s1) by exact Hat.
      assert (Hd1 : repr s1 d y) by (apply (repr_same_heap s); [reflexivity|exact Hdd]).
      assert (Hhead : forall s', heap s' = heap s1 ->
                                 print m a s' = Ok tt (written s' (text x))).
      { intros s' E. apply IHx; [exact Hpx| |apply (repr_same_heap s); [exact E|exact Ha]|lia].
        unfold atoms. now rewrite !(obj_at_same_heap s s') by exact E. }
      rewrite (IHty Hpy s1 d0 a d (text x) fuel m Hat1 Hd Hd1 Hhead
                 ltac:(lia) ltac:(lia)).
      unfold s1. rewrite written_app. simpl. now rewrite <- !app_assoc.
Qed.

(** ** Trees in a range of addresses *)

(** [tree lo hi s p v]: [p] designates [v], every cell of which lies at
    an address in [(lo, hi]]; the [Nil] ending a list is the atom. *)
Inductive tree (lo hi : nat) (s : State) : ptr -> value -> Prop :=
| tree_int p z :
    (lo < p <= hi)%nat -> obj_at s p = Some (O_INT z) -> tree lo hi s p (VInt z)
| tree_sym p n :
    (lo < p <= hi)%nat -> obj_at s p = Some (O_SYMBOL n) -> tree lo hi s p (VSym n)
| tree_nil : tree lo hi s Nil VNil
| tree_pair p a d x y :
    (lo < p <= hi)%nat -> obj_at s p = Some (O_CONS a d) ->
    tree lo hi s a x -> tree lo hi s d y -> tree lo hi s p (VPair x y).

Lemma tree_repr lo hi s p v : tree lo hi s p v -> repr s p v.
Proof. induction 1; econstructor; eauto. Qed.

Lemma tree_weaken lo hi lo' hi' s p v :
  (lo' <= lo)%nat -> (hi <= hi')%nat -> tree lo hi s p v -> tree lo' hi' s p v.
Proof. intros Hlo Hhi. induction 1; econstructor; eauto; lia. Qed.

(** A tree depends on the cells of its range only. *)
Lemma tree_stable lo hi s s' p v :
  (forall q, (lo < q <= hi)%nat -> obj_at s' q = obj_at s q) ->
  tree lo hi s p v -> tree lo hi s' p v.
Proof.
  intros Hsame. induction 1; econstructor; eauto; rewrite Hsame; auto.
Qed.

(** [seg lo hi s p ws e]: the cells from [p] up to, not including, [e]
    hold the trees [ws]. *)
Inductive seg (lo hi : nat) (s : State) : ptr -> list value -> ptr -> Prop :=
| seg_nil e : seg lo hi s e [] e
| seg_cons p a d w ws e :
    (lo < p <= hi)%nat -> obj_at s p = Some (O_CONS a d) ->
    tree lo hi s a w -> seg lo hi s d ws e -> seg lo hi s p (w :: ws) e.

Lemma seg_weaken lo hi hi' s p ws e :
  (hi <= hi')%nat -> seg lo hi s p ws e -> seg lo hi' s p ws e.
Proof.
  intros Hhi. induction 1; econstructor; eauto using tree_weaken; lia.
Qed.

Lemma seg_stable lo hi s s' p ws e :
  (forall q, (lo < q <= hi)%nat -> obj_at s' q = obj_at s q) ->
  seg lo hi s p ws e -> seg lo hi s' p ws e.
Proof.
  intros Hsame. induction 1; econstructor; eauto using tree_stable.
  rewrite Hsame; auto.
Qed.

Lemma seg_snoc lo hi s p ws e a d w :
  seg lo hi s p ws e ->
  (lo < e <= hi)%nat -> obj_at s e = Some (O_CONS a d) -> tree lo hi s a w ->
  seg lo hi s p (ws ++ [w]) d.
Proof.
  intros Hseg He Hobj Hw. induction Hseg; simpl.
  - econstructor; eauto. constructor.
  - econstructor; eauto.
Qed.

Lemma seg_tree lo hi s p ws e v :
  seg lo hi s p ws e -> tree lo hi s e v -> tree lo hi s p (fold_right VPair v ws).
Proof.
  intros Hseg Hv. induction Hseg; simpl; [exact Hv|].
  econstructor; eauto.
Qed.

(** ** The reader on printed trees *)

(** [rd] reads the text of [v], up to a delimiter, into fresh cells that
    hold [norm v]; the heap it finds is extended, not changed. *)
Definition reads (rd : M ptr) (v : value) : Prop :=
  forall s rest,
    delimited rest = true -> stdin s = text v ++ rest -> (1 <= length (heap s))%nat ->
    exists q s' ext,
      rd s = Ok q s' /\ stdin s' = rest /\ heap s' = heap s ++ ext
      /\ tree (length (heap s)) (length (heap s')) s' q (norm v).

Lemma read_S junk n :
  read junk (S n) =
  let* c := getchar in
  if isspace c then read junk n
  else if c =? EOF then ret NULL
  else if isdigit c then
    let* _ := ungetc c in
    read_number n junk
  else
    let* minus_digit :=
      (if c =? 45 then let* p := peek in ret (isdigit p) else ret false) in
    if minus_digit then read_number n 0
    else if isalpha c || strchr_special c then
      let* _ := ungetc c in
      read_symbol n
    else if c =? 34 then read_quoted_symbol n
    else if c =? 40 then read_list n (read junk n)
    else if c =? 39 then read_quote (read junk n)
    else err ("Syntax error" +:+ String "010"%char EmptyString).
Proof. reflexivity. Qed.

(** A non-negative integer. *)
Lemma reads_natural junk n z :
  junk <> 0 -> 0 <= z < 2147483648 -> (length (dec_unsigned z) + 2 <= n)%nat ->
  reads (read junk n) (VInt z).
Proof.
  intros Hjunk Hz Hn s rest Hrest Hin _.
  destruct (dec_unsigned_numeral z (proj1 Hz)) as (Hne & Hall & Hnum).
  simpl in Hin. unfold dec in Hin.
  replace (z <? 0) with false in Hin by (symmetry; apply Z.ltb_ge; lia).
  destruct (dec_unsigned z) as [|a cs] eqn:Hds; [congruence|].
  simpl in Hin. pose proof (Forall_inv Hall) as Ha.
  destruct n as [|n]; [simpl in Hn; lia|]. rewrite read_S.
  step (getchar_cons _ _ _ Hin).
  destruct (digit_facts a Ha) as (-> & _ & _).
  rewrite code_not_EOF. unfold is_digit in Ha. rewrite Ha.
  step (ungetc_code _ _ _ Hin).
  unfold read_number.
  rewrite (bind_ok _ _ _ _ _
             (read_number_loop_ok (a :: cs) Hall rest s n 0 Hrest Hin
                ltac:(simpl in *; lia))).
  rewrite numeral_wrapped_small by (try exact Hall; lia). rewrite Hnum.
  replace (junk =? 0) with false by (symmetry; now apply Z.eqb_neq).
  unfold new_object. eexists _, _, [O_INT z]. repeat split.
  simpl. rewrite length_app. simpl. constructor; [lia|].
  apply (obj_at_alloc_new (with_stdin s rest)).
Qed.

(** A negative integer: the sign is consumed by [read], the digits by
    [read_number], called with [0]. *)
Lemma reads_negative junk n z :
  -2147483648 < z < 0 -> (length (dec_unsigned (- z)) + 3 <= n)%nat ->
  reads (read junk n) (VInt z).
Proof.
  intros Hz Hn s rest Hrest Hin _.
  destruct (dec_unsigned_numeral (- z) ltac:(lia)) as (Hne & Hall & Hnum).
  simpl in Hin. unfold dec in Hin.
  replace (z <? 0) with true in Hin by (symmetry; apply Z.ltb_lt; lia).
  destruct (dec_unsigned (- z)) as [|a cs] eqn:Hds; [congruence|].
  simpl in Hin. pose proof (Forall_inv Hall) as Ha. unfold is_digit in Ha.
  destruct n as [|n]; [simpl in Hn; lia|]. rewrite read_S.
  step (getchar_cons _ _ _ Hin).
  change (code "-"%char) with 45.
  change (isspace 45) with false. change (45 =? EOF) with false.
  change (isdigit 45) with false. change (45 =? 45) with true. cbv iota.
  set (s1 := with_stdin s (a :: cs ++ rest)).
  assert (Hin1 : stdin s1 = (a :: cs) ++ rest) by reflexivity.
  rewrite (bind_ok _ _ _ (isdigit (code a)) s1)
    by (step (peek_stdin s1); reflexivity).
  rewrite Ha. unfold read_number.
  rewrite (bind_ok _ _ _ _ _
             (read_number_loop_ok (a :: cs) Hall rest s1 n 0 Hrest Hin1
                ltac:(simpl in *; lia))).
  rewrite numeral_wrapped_small by (try exact Hall; lia). rewrite Hnum.
  change (0 =? 0) with true. cbv iota.
  rewrite wrap_small by lia. replace (- - z) with z by lia.
  unfold new_object. eexists _, _, [O_INT z]. repeat split.
  simpl. rewrite length_app. simpl. constructor; [lia|].
  apply (obj_at_alloc_new (with_stdin s rest)).
Qed.

Lemma plain_name_inv n :
  plain_name n = true ->
  exists a cs,
    list_ascii_of_string n = a :: cs
    /\ Forall (fun a => symbol_char a = true) (a :: cs)
    /\ (length (a :: cs) <= 128)%nat
    /\ isdigit (code a) = false
    /\ ((code a =? 45) = true -> isdigit (head_code cs) = false \/ cs = []).
Proof.
  unfold plain_name. destruct (list_ascii_of_string n) as [|a cs]; intros H.
  - now rewrite andb_false_r in H.
  - apply andb_true_iff in H as [H H3]. apply andb_true_iff in H as [H1 H2].
    apply andb_true_iff in H3 as [H3 H4].
    exists a, cs. split; [reflexivity|].
    split.
    { clear -H1. revert H1. generalize (a :: cs). intros l.
      induction l as [|b l IH]; simpl; intros H; constructor;
        apply andb_true_iff in H as [Hb Hl]; auto. }
    split; [now apply Nat.leb_le|].
    split; [now apply negb_true_iff|].
    intros E. rewrite E in H4. simpl in H4.
    destruct cs as [|b cs']; [now right|left]. now apply negb_true_iff.
Qed.

(** A symbol with a plain name. *)
Lemma reads_symbol junk n name :
  plain_name name = true -> (length (list_ascii_of_string name) + 2 <= n)%nat ->
  reads (read junk n) (VSym name).
Proof.
  intros Hplain Hn s rest Hrest Hin _.
  destruct (plain_name_inv name Hplain) as (a & cs & Hcs & Hall & Hlen & Hnd & Hminus).
  assert (Hname : c_string (a :: cs) = name).
  { rewrite c_string_plain by exact Hall. rewrite <- Hcs.
    apply string_of_list_ascii_of_string. }
  simpl in Hin. rewrite Hcs in Hin, Hn. simpl in Hin.
  pose proof (Forall_inv Hall) as Ha. simpl in Ha.
  destruct (symbol_char_facts a Ha) as (Hsp & _ & _ & _ & Hstart).
  destruct n as [|n]; [simpl in Hn; lia|]. rewrite read_S.
  step (getchar_cons _ _ _ Hin).
  rewrite Hsp, code_not_EOF, Hnd.
  set (s1 := with_stdin s (cs ++ rest)).
  rewrite (bind_ok _ _ _ false s1).
  2:{ destruct (code a =? 45) eqn:E; [|reflexivity].
      step (peek_stdin s1). unfold ret. f_equal.
      change (stdin s1) with (cs ++ rest).
      destruct (Hminus eq_refl) as [Hd| ->].
      - destruct cs as [|b cs']; [|exact Hd]. simpl. apply (delimited_stop _ Hrest).
      - simpl. apply (delimited_stop _ Hrest). }
  rewrite (Hstart Hnd).
  step (ungetc_code _ _ _ Hin).
  unfold read_symbol.
  rewrite (bind_ok _ _ _ _ _
             (read_symbol_loop_ok (a :: cs) Hall rest s n [] Hrest Hin
                ltac:(simpl in *; lia) ltac:(simpl in *; lia))).
  rewrite app_nil_l, Hname.
  unfold new_object. eexists _, _, [O_SYMBOL name]. repeat split.
  simpl. rewrite length_app. simpl. constructor; [lia|].
  apply (obj_at_alloc_new (with_stdin s rest)).
Qed.

Lemma text_head v :
  readable v = true ->
  exists a t, text v = a :: t /\ isspace (code a) = false /\ (code a =? 41) = false.
Proof.
  destruct v as [z|name| | |x y]; simpl; intros H.
  - unfold dec. destruct (z <? 0) eqn:E.
    + eexists _, _. split; [reflexivity|]. split; reflexivity.
    + apply Z.ltb_ge in E.
      destruct (dec_unsigned_numeral z E) as (Hne & Hall & _).
      destruct (dec_unsigned z) as [|a cs]; [congruence|].
      exists a, cs. split; [reflexivity|].
      destruct (digit_facts a (Forall_inv Hall)) as (? & ? & _). auto.
  - destruct (plain_name_inv name H) as (a & cs & Hcs & Hall & _).
    exists a, cs. split; [exact Hcs|].
    destruct (symbol_char_facts a (Forall_inv Hall)) as (? & ? & _). auto.
  - eexists _, _. split; [reflexivity|]. split; reflexivity.
  - eexists _, _. split; [reflexivity|]. split; reflexivity.
  - eexists _, _. split; [reflexivity|]. split; reflexivity.
Qed.

Lemma tail_delimited y rest :
  readable_tail y = true -> delimited (tail_text y ++ ")"%char :: rest) = true.
Proof. destruct y; try discriminate; reflexivity. Qed.

(** ** Lists *)

Lemma read_list_loop_S n rd first last :
  read_list_loop (S n) rd first last =
  let* c := getchar in
  if isspace c then read_list_loop n rd first last
  else if c =? 41 then ret first
  else
    let* _ := ungetc c in
    let* e := rd in
    let* cell := cons e Nil in
    let* _ := (if (first =? Nil)%nat then ret tt else set_cdr last cell) in
    read_list_loop n rd (if (first =? Nil)%nat then cell else first) cell.
Proof. reflexivity. Qed.

Lemma set_cdr_ok s p a d v :
  obj_at s p = Some (O_CONS a d) ->
  set_cdr p v s = Ok tt (with_heap s (<[pred p := O_CONS a v]> (heap s))).
Proof.
  intros H. unfold set_cdr. step (deref_ok _ _ _ H). unfold store. now rewrite H.
Qed.

Lemma obj_at_ext s s' ext q :
  heap s' = heap s ++ ext -> (q <= length (heap s))%nat -> obj_at s' q = obj_at s q.
Proof.
  intros E Hq. destruct q as [|i]; [reflexivity|]. simpl. rewrite E.
  apply lookup_app_l. lia.
Qed.

(** The list under construction: the cells from [first] up to [last]
    are linked and hold the trees read so far; [last] still ends the
    list.  All of it lies above [lo]. *)
Definition partial (lo : nat) (s : State) (first last : ptr) (ws : list value) : Prop :=
  exists init wl el,
    ws = init ++ [wl]
    /\ seg lo (pred last) s first init last
    /\ (lo < last <= length (heap s))%nat
    /\ obj_at s last = Some (O_CONS el Nil)
    /\ tree lo (pred last) s el wl.

Lemma seg_first lo hi s first ws last :
  seg lo hi s first ws last -> (lo < last)%nat -> (lo < first)%nat.
Proof. destruct 1; intros; lia. Qed.

Lemma partial_first lo s first last ws :
  partial lo s first last ws -> (1 <= lo)%nat -> (first =? Nil)%nat = false.
Proof.
  intros (init & wl & el & _ & Hseg & Hlast & _) Hlo.
  pose proof (seg_first _ _ _ _ _ _ Hseg (proj1 Hlast)) as Hf.
  apply Nat.eqb_neq. unfold Nil. lia.
Qed.

Lemma partial_tree lo s first last ws :
  partial lo s first last ws -> tree lo (length (heap s)) s first (vlist ws).
Proof.
  intros (init & wl & el & -> & Hseg & Hlast & Hobj & Hel).
  unfold vlist. rewrite fold_right_app. simpl.
  apply (seg_tree lo (length (heap s)) s first init last).
  - apply (seg_weaken lo (pred last)); [lia|exact Hseg].
  - econstructor; [exact Hlast|exact Hobj| |constructor].
    apply (tree_weaken lo (pred last)); [lia|lia|exact Hel].
Qed.

(** The first element of a list. *)
Lemma list_first rd x n s rest :
  reads rd x -> readable x = true -> delimited rest = true ->
  stdin s = text x ++ rest -> (1 <= length (heap s))%nat ->
  exists c s' ext,
    read_list_loop (S n) rd Nil Nil s = read_list_loop n rd c c s'
    /\ stdin s' = rest /\ heap s' = heap s ++ ext
    /\ partial (length (heap s)) s' c c [norm x].
Proof.
  intros Hrd Hx Hrest Hin Hheap.
  destruct (text_head x Hx) as (a & t & Ht & Hsp & Hcl).
  destruct (Hrd s rest Hrest Hin Hheap) as (q & s2 & ext2 & Hread & Hin2 & Hh2 & Hq).
  rewrite Ht in Hin. simpl in Hin.
  rewrite read_list_loop_S. step (getchar_cons _ _ _ Hin). rewrite Hsp, Hcl.
  step (ungetc_code _ _ _ Hin). step Hread.
  exists (S (length (heap s2))), (with_heap s2 (heap s2 ++ [O_CONS q Nil])),
    (ext2 ++ [O_CONS q Nil]).
  split; [reflexivity|]. split; [exact Hin2|].
  split; [simpl; rewrite Hh2; now rewrite <- app_assoc|].
  exists [], (norm x), q. split; [reflexivity|]. split; [constructor|].
  split; [simpl; rewrite length_app, Hh2, length_app; simpl; lia|].
  split; [apply obj_at_alloc_new|].
  simpl. apply (tree_stable _ _ s2); [|exact Hq].
  intros p Hp. apply (obj_at_ext s2 _ [O_CONS q Nil]); [reflexivity|lia].
Qed.

(** A further element: its cell is linked behind [last]. *)
Lemma list_next rd x n s rest h0 ext first last ws :
  reads rd x -> readable x = true -> delimited rest = true ->
  stdin s = text x ++ rest -> heap s = h0 ++ ext -> (1 <= length h0)%nat ->
  partial (length h0) s first last ws ->
  exists c s' ext',
    read_list_loop (S n) rd first last s = read_list_loop n rd first c s'
    /\ stdin s' = rest /\ heap s' = h0 ++ ext'
    /\ partial (length h0) s' first c (ws ++ [norm x]).
Proof.
  intros Hrd Hx Hrest Hin Hh Hh0 Hpart.
  pose proof (partial_first _ _ _ _ _ Hpart Hh0) as Hfirst.
  destruct Hpart as (init & wl & el & -> & Hseg & Hlast & Hobj & Hel).
  assert (Hlen : (length h0 <= length (heap s))%nat)
    by (rewrite Hh, length_app; lia).
  destruct (text_head x Hx) as (a & t & Ht & Hsp & Hcl).
  destruct (Hrd s rest Hrest Hin ltac:(lia)) as (q & s2 & ext2 & Hread & Hin2 & Hh2 & Hq).
  rewrite Ht in Hin. simpl in Hin.
  rewrite read_list_loop_S. step (getchar_cons _ _ _ Hin). rewrite Hsp, Hcl.
  step (ungetc_code _ _ _ Hin). step Hread.
  unfold cons, new_object. unfold bind at 1. rewrite Hfirst.
  set (c := S (length (heap s2))).
  set (s3 := with_heap s2 (heap s2 ++ [O_CONS q Nil])).
  assert (Hh3 : heap s3 = heap s ++ ext2 ++ [O_CONS q Nil])
    by (simpl; rewrite Hh2; now rewrite <- app_assoc).
  assert (Hobj3 : obj_at s3 last = Some (O_CONS el Nil)).
  { rewrite (obj_at_ext s s3 _ last Hh3) by lia. exact Hobj. }
  step (set_cdr_ok s3 last el Nil c Hobj3).
  set (s4 := with_heap s3 (<[pred last := O_CONS el c]> (heap s3))).
  assert (Hlen2 : length (heap s2) = (length (heap s) + length ext2)%nat)
    by (rewrite Hh2, length_app; lia).
  assert (Hold : forall p, (p <= length (heap s))%nat -> p <> last ->
                           obj_at s4 p = obj_at s p).
  { intros p Hp Hne. unfold s4.
    rewrite (obj_at_store_ne s3 last p _ _ Hobj3) by congruence.
    apply (obj_at_ext s s3 _ p Hh3 Hp). }
  assert (Hnew : forall p, (length (heap s) < p <= length (heap s2))%nat ->
                           obj_at s4 p = obj_at s2 p).
  { intros p Hp. unfold s4.
    rewrite (obj_at_store_ne s3 last p _ _ Hobj3) by lia.
    apply (obj_at_ext s2 s3 [O_CONS q Nil]); [reflexivity|lia]. }
  exists c, s4, (<[(pred last - length h0)%nat := O_CONS el c]> (ext ++ ext2 ++ [O_CONS q Nil])).
  split; [reflexivity|]. split; [exact Hin2|]. split.
  { unfold s4. simpl. rewrite Hh2, Hh, <- !app_assoc.
    apply insert_app_r_alt. lia. }
  exists (init ++ [wl]), (norm x), q. split; [reflexivity|].
  assert (Hc : pred c = length (heap s2)) by reflexivity.
  split.
  { apply (seg_snoc _ _ _ _ _ last el c wl).
    - apply (seg_weaken _ (pred last)); [lia|].
      apply (seg_stable _ _ s); [|exact Hseg].
      intros p Hp. apply Hold; lia.
    - lia.
    - unfold s4. apply (obj_at_store_eq s3 last _ _ Hobj3).
    - apply (tree_weaken (length h0) (pred last)); [lia|lia|].
      apply (tree_stable _ _ s); [|exact Hel].
      intros p Hp. apply Hold; lia. }
  split; [unfold s4, s3; simpl; rewrite length_insert, length_app; simpl; lia|].
  split.
  { unfold s4. rewrite (obj_at_store_ne s3 last c _ _ Hobj3) by (unfold c; lia).
    apply obj_at_alloc_new. }
  rewrite Hc. apply (tree_weaken (length (heap s)) (length (heap s2))); [lia|lia|].
  apply (tree_stable _ _ s2); [|exact Hq]. intros p Hp. now apply Hnew.
Qed.

Lemma partial_same_heap lo s s' first last ws :
  heap s' = heap s -> partial lo s first last ws -> partial lo s' first last ws.
Proof.
  intros E (init & wl & el & Hws & Hseg & Hlast & Hobj & Hel).
  exists init, wl, el. split; [exact Hws|].
  split; [apply (seg_stable _ _ s); [intros; now apply obj_at_same_heap|exact Hseg]|].
  split; [now rewrite E|].
  split; [now rewrite (obj_at_same_heap s s')|].
  apply (tree_stable _ _ s); [intros; now apply obj_at_same_heap|exact Hel].
Qed.

(** The rest of a list, after at least one element: each further
    element follows one space, and the closing parenthesis ends the
    list. *)
Lemma list_tail rd y :
  readable_tail y = true ->
  Forall (fun x => readable x = true /\ reads rd x) (elements y) ->
  forall fuel s h0 ext first last ws rest,
    heap s = h0 ++ ext -> (1 <= length h0)%nat ->
    partial (length h0) s first last ws ->
    stdin s = tail_text y ++ ")"%char :: rest ->
    (2 * length (elements y) + 1 <= fuel)%nat ->
    exists s' ext',
      read_list_loop fuel rd first last s = Ok first s' /\ stdin s' = rest
      /\ heap s' = h0 ++ ext'
      /\ tree (length h0) (length (heap s')) s' first
           (vlist (ws ++ map norm (elements y))).
Proof.
  induction y as [| | | |x _ y IH]; try discriminate.
  - intros _ _ fuel s h0 ext first last ws rest Hh Hh0 Hpart Hin Hfuel.
    destruct fuel as [|fuel]; [simpl in Hfuel; lia|].
    simpl in Hin. rewrite read_list_loop_S. step (getchar_cons _ _ _ Hin).
    exists (with_stdin s rest), ext.
    split; [reflexivity|]. split; [reflexivity|]. split; [exact Hh|].
    simpl. rewrite app_nil_r.
    apply (partial_tree _ (with_stdin s rest) first last).
    now apply (partial_same_heap _ s).
  - intros Hy Hall fuel s h0 ext first last ws rest Hh Hh0 Hpart Hin Hfuel.
    simpl in Hy. apply andb_true_iff in Hy as [Hx Hy].
    simpl in Hall. inversion Hall as [|x' l' [_ Hrx] Hall']; subst.
    simpl in Hfuel. destruct fuel as [|[|fuel]]; [lia|lia|].
    simpl in Hin. rewrite <- app_assoc in Hin.
    rewrite read_list_loop_S. step (getchar_cons _ _ _ Hin).
    change (isspace (code " "%char)) with true. cbv iota.
    set (s1 := with_stdin s (text x ++ tail_text y ++ ")"%char :: rest)).
    destruct (list_next rd x fuel s1 (tail_text y ++ ")"%char :: rest) h0 ext
                first last ws Hrx Hx (tail_delimited y rest Hy) eq_refl Hh Hh0
                (partial_same_heap _ s s1 _ _ _ eq_refl Hpart))
      as (c & s2 & ext2 & Hstep & Hin2 & Hh2 & Hpart2).
    rewrite Hstep.
    destruct (IH Hy Hall' fuel s2 h0 ext2 first c (ws ++ [norm x]) rest
                Hh2 Hh0 Hpart2 Hin2 ltac:(lia))
      as (s3 & ext3 & Hloop & Hin3 & Hh3 & Htree).
    exists s3, ext3. split; [exact Hloop|]. split; [exact Hin3|].
    split; [exact Hh3|]. simpl. now rewrite <- app_assoc in Htree.
Qed.

Lemma read_open junk n s r :
  stdin s = "("%char :: r ->
  read junk (S n) s = read_list_loop n (read junk n) Nil Nil (with_stdin s r).
Proof.
  intros Hin. rewrite read_S. step (getchar_cons _ _ _ Hin). reflexivity.
Qed.

Lemma norm_tail_elements y :
  readable_tail y = true -> norm_tail y = vlist (map norm (elements y)).
Proof.
  induction y as [| | | |x _ y IH]; try discriminate; [reflexivity|].
  simpl. intros H. apply andb_true_iff in H as [_ H]. now rewrite IH.
Qed.

(** A list: the opening parenthesis, the first element, the rest. *)
Lemma reads_list junk n x y :
  readable x = true -> readable_tail y = true ->
  reads (read junk n) x ->
  Forall (fun e => readable e = true /\ reads (read junk n) e) (elements y) ->
  (2 * length (elements y) + 2 <= n)%nat ->
  reads (read junk (S n)) (VPair x y).
Proof.
  intros Hx Hy Hrx Hall Hn s rest Hrest Hin Hheap.
  simpl in Hin. rewrite <- !app_assoc in Hin. simpl in Hin.
  rewrite (read_open junk n s _ Hin).
  destruct n as [|n]; [lia|].
  set (s1 := with_stdin s (text x ++ tail_text y ++ ")"%char :: rest)).
  destruct (list_first (read junk (S n)) x n s1 (tail_text y ++ ")"%char :: rest)
              Hrx Hx (tail_delimited y rest Hy) eq_refl Hheap)
    as (c & s2 & ext2 & Hstep & Hin2 & Hh2 & Hpart2).
  rewrite Hstep.
  destruct (list_tail (read junk (S n)) y Hy Hall n s2 (heap s) ext2 c c [norm x] rest
              Hh2 Hheap Hpart2 Hin2 ltac:(lia))
    as (s3 & ext3 & Hloop & Hin3 & Hh3 & Htree).
  exists c, s3, ext3. split; [exact Hloop|]. split; [exact Hin3|].
  split; [exact Hh3|]. simpl. rewrite (norm_tail_elements y Hy). exact Htree.
Qed.

Lemma elements_facts y :
  readable_tail y = true ->
  Forall (fun e => readable e = true /\ (size e < size y)%nat
                   /\ (length (text e) <= length (tail_text y))%nat) (elements y)
  /\ (2 * length (elements y) <= length (tail_text y))%nat.
Proof.
  induction y as [| | | |x _ y IH]; try discriminate; [split; [constructor|simpl; lia]|].
  simpl. intros H. apply andb_true_iff in H as [Hx Hy].
  destruct (IH Hy) as [Hall Hlen].
  destruct (text_head x Hx) as (a & t & Ht & _).
  assert (Hpos : (1 <= length (text x))%nat) by (rewrite Ht; simpl; lia).
  rewrite length_app. split; [|lia].
  constructor; [repeat split; [exact Hx|lia|lia]|].
  eapply Forall_impl; [exact Hall|]. simpl. intros e (He & Hs & Hl).
  repeat split; [exact He|lia|lia].
Qed.

(** [read] reads every readable tree back from its text. *)
Lemma read_text junk :
  junk <> 0 ->
  forall k v, (size v <= k)%nat -> readable v = true ->
  forall n, (length (text v) + 2 <= n)%nat -> reads (read junk n) v.
Proof.
  intros Hjunk. induction k as [|k IH]; intros v Hk Hv n Hn.
  { destruct v; simpl in Hk; lia. }
  destruct v as [z|name| | |x y].
  - simpl in Hv. apply andb_true_iff in Hv as [H1 H2].
    apply Z.ltb_lt in H1, H2. simpl in Hn. unfold dec in Hn.
    destruct (z <? 0) eqn:E.
    + apply Z.ltb_lt in E. apply reads_negative; [lia|]. simpl in Hn. lia.
    + apply Z.ltb_ge in E. apply reads_natural; [exact Hjunk|lia|exact Hn].
  - apply reads_symbol; [exact Hv|exact Hn].
  - exact (reads_symbol junk n "Nil" eq_refl Hn).
  - exact (reads_symbol junk n "True" eq_refl Hn).
  - simpl in Hv. apply andb_true_iff in Hv as [Hx Hy].
    destruct (elements_facts y Hy) as [Hall Hlen].
    simpl in Hn, Hk. rewrite !length_app in Hn. simpl in Hn.
    destruct n as [|n]; [lia|].
    apply reads_list; [exact Hx|exact Hy| | |lia].
    + apply IH; [lia|exact Hx|lia].
    + eapply Forall_impl; [exact Hall|]. simpl. intros e (He & Hs & Hl).
      split; [exact He|]. apply IH; [lia|exact He|lia].
Qed.

(** ** The round trip *)

Lemma readable_proper v :
  (readable v = true -> proper v = true)
  /\ (readable_tail v = true -> proper_tail v = true).
Proof.
  induction v as [| | | |x [IHx _] y [_ IHy]]; simpl; try (split; congruence).
  split; intros H; apply andb_true_iff in H as [Hx Hy];
    apply andb_true_iff; auto.
Qed.

Lemma norm_proper v :
  (proper v = true -> proper (norm v) = true)
  /\ (proper_tail v = true -> proper_tail (norm_tail v) = true).
Proof.
  induction v as [| | | |x [IHx _] y [_ IHy]]; simpl; try (split; congruence).
  split; intros H; apply andb_true_iff in H as [Hx Hy];
    apply andb_true_iff; auto.
Qed.

Lemma norm_size v : size (norm v) = size v /\ size (norm_tail v) = size v.
Proof.
  induction v as [| | | |x [IHx _] y [_ IHy]]; simpl; auto.
Qed.

(** The tree read back has the text of the tree printed. *)
Lemma norm_text v :
  text (norm v) = text v /\ tail_text (norm_tail v) = tail_text v.
Proof.
  induction v as [| | | |x [IHx _] y [_ IHy]]; simpl; auto.
  rewrite IHx, IHy. auto.
Qed.

Lemma printed_text v s p fuel :
  proper v = true -> atoms s -> repr s p v -> (size v <= fuel)%nat ->
  printed fuel s p = Some (text v).
Proof.
  intros Hv Hat Hr Hf. unfold printed.
  rewrite (proj1 (print_text v) Hv (with_stdout s []) p fuel Hat
             (repr_same_heap s (with_stdout s []) p v eq_refl Hr) Hf).
  reflexivity.
Qed.

(** What comes back from the text of a readable tree [v]: the tree
    [norm v], in cells of its own. *)
Lemma read_back junk v s fuel :
  junk <> 0 -> readable v = true -> atoms s ->
  (length (text v) + 2 <= fuel)%nat ->
  exists q s1,
    read junk fuel (with_stdin s (text v)) = Ok q s1
    /\ stdin s1 = [] /\ atoms s1 /\ repr s1 q (norm v).
Proof.
  intros Hjunk Hv Hat Hf.
  destruct (read_text junk Hjunk (size v) v (Nat.le_refl _) Hv fuel Hf
              (with_stdin s (text v)) [] eq_refl
              ltac:(simpl; now rewrite app_nil_r)
              (Nil_allocated s (proj1 Hat)))
    as (q & s1 & ext & Hread & Hin & Hh & Htree).
  exists q, s1. split; [exact Hread|]. split; [exact Hin|].
  split; [|exact (tree_repr _ _ _ _ _ Htree)].
  destruct Hat as [HNil HTrue].
  split; rewrite (obj_at_ext (with_stdin s (text v)) s1 ext _ Hh);
    try assumption; [apply (Nil_allocated s HNil)|].
  apply obj_at_lt in HTrue. exact (proj2 HTrue).
Qed.

(** A symbol read from the quoted text ["a b"] prints as [a b], of
    which [read] takes the first word only. *)
Lemma symbol_with_space_not_reprinted :
  exists s p,
    read 1 5 (initial_state (to_char 34 :: list_ascii_of_string "a b" ++ [to_char 34]))
    = Ok p s
    /\ obj_at s p = Some (O_SYMBOL "a b")
    /\ repr s p (VSym "a b")
    /\ printed 5 s p = Some (list_ascii_of_string "a b")
    /\ reprinted 1 5 s p = Some (list_ascii_of_string "a").
Proof.
  eexists _, _. split; [vm_compute; reflexivity|].
  split; [reflexivity|]. split; [constructor; reflexivity|].
  split; vm_compute; reflexivity.
Qed.

(** C2, as far as it holds.  Let [v] be a readable tree: built from
    integers of magnitude below 2^31, symbols with a plain name (one to
    128 letters, digits and characters of [+-_<>=?*], not starting with
    a digit or with a minus sign and a digit), [Nil], [True] and proper
    lists of readable trees; and let the value [read_number] finds in
    its missing argument be non-zero.  Then, with fuel enough for the
    size and the text of [v], printing the object that holds [v] writes
    [text v], and printing it, reading that text back as one expression
    and printing the object read writes [text v] again. *)
Theorem print_read_print junk v s p fuel :
  junk <> 0 -> readable v = true -> atoms s -> repr s p v ->
  (size v + length (text v) + 2 <= fuel)%nat ->
  printed fuel s p = Some (text v) /\ reprinted junk fuel s p = Some (text v).
Proof.
  intros Hjunk Hv Hat Hr Hf.
  pose proof (proj1 (readable_proper v) Hv) as Hp.
  assert (Hprint : printed fuel s p = Some (text v))
    by (apply printed_text; [exact Hp|exact Hat|exact Hr|lia]).
  split; [exact Hprint|].
  unfold reprinted. rewrite Hprint.
  destruct (read_back junk v s fuel Hjunk Hv Hat ltac:(lia))
    as (q & s1 & Hread & _ & Hat1 & Hq).
  rewrite Hread. rewrite <- (proj1 (norm_text v)).
  apply printed_text; [exact (proj1 (norm_proper v) Hp)|exact Hat1|exact Hq|].
  rewrite (proj1 (norm_size v)). lia.
Qed.

(** The list [(1 (2 -3) foo Nil)] in a heap. *)
Definition s_round : State :=
  mkState [O_NIL; O_TRUE; O_INT 1; O_INT 2; O_INT (-3); O_SYMBOL "foo";
           O_CONS 5 1; O_CONS 4 7; O_CONS 1 1; O_CONS 6 9; O_CONS 8 10;
           O_CONS 3 11]%nat [] [] [].

Definition v_round : value :=
  vlist [VInt 1; vlist [VInt 2; VInt (-3)]; VSym "foo"; VNil].

Lemma print_read_print_witness :
  printed 40 s_round 12%nat = Some (list_ascii_of_string "(1 (2 -3) foo Nil)")
  /\ reprinted 1 40 s_round 12%nat = Some (list_ascii_of_string "(1 (2 -3) foo Nil)").
Proof.
  apply (print_read_print 1 v_round s_round 12%nat 40%nat).
  - discriminate.
  - reflexivity.
  - split; reflexivity.
  - unfold v_round, vlist. simpl.
    repeat (first [ apply repr_nil
                  | eapply repr_int; reflexivity
                  | eapply repr_sym; reflexivity
                  | eapply repr_pair; [reflexivity| |] ]).
  - vm_compute. lia.
Defined.

(** * Further properties of the reader *)

(** ** White space and the end of the input *)

Definition is_space (a : ascii) : Prop := isspace (code a) = true.

Lemma getchar_end s : stdin s = [] -> getchar s = Ok EOF s.
Proof. intros H. unfold getchar. now rewrite H. Qed.

(** X1.  [read] skips the white space before an expression; when nothing
    but white space is left it returns the null pointer and allocates
    nothing. *)
Theorem read_skips_whitespace junk ws n s rest :
  Forall is_space ws -> stdin s = ws ++ rest ->
  read junk (length ws + n) s = read junk n (with_stdin s rest)
  /\ (rest = [] -> read junk (length ws + S n) s = Ok NULL (with_stdin s [])).
Proof.
  intros Hws. revert s.
  assert (Hskip : forall m s, stdin s = ws ++ rest ->
            read junk (length ws + m) s = read junk m (with_stdin s rest)).
  { induction Hws as [|a ws Ha _ IH]; intros m s Hin; simpl in Hin.
    - simpl. now rewrite <- Hin, with_stdin_same.
    - change (length (a :: ws) + m)%nat with (S (length ws + m)).
      rewrite read_S. step (getchar_cons _ _ _ Hin).
      unfold is_space in Ha. rewrite Ha.
      now rewrite (IH m (with_stdin s (ws ++ rest)) eq_refl). }
  intros s Hin. split; [now apply Hskip|].
  intros ->. rewrite (Hskip (S n) s Hin), read_S.
  now rewrite (bind_ok _ _ _ _ _ (getchar_end (with_stdin s []) eq_refl)).
Qed.

Lemma read_skips_whitespace_witness :
  read 1 (length (list_ascii_of_string "   ") + 3)
    (initial_state (list_ascii_of_string "   " ++ list_ascii_of_string "7"))
  = read 1 3 (with_stdin (initial_state (list_ascii_of_string "   " ++ list_ascii_of_string "7"))
                (list_ascii_of_string "7"))
  /\ (list_ascii_of_string "7" = [] ->
      read 1 (length (list_ascii_of_string "   ") + 4)
        (initial_state (list_ascii_of_string "   " ++ list_ascii_of_string "7"))
      = Ok NULL (with_stdin (initial_state (list_ascii_of_string "   " ++ list_ascii_of_string "7")) [])).
Proof.
  apply (read_skips_whitespace 1 (list_ascii_of_string "   ") 3).
  - repeat constructor.
  - reflexivity.
Defined.

(** ** The empty list *)

Lemma read_list_loop_spaces rd first last ws :
  Forall is_space ws ->
  forall n s rest, stdin s = ws ++ rest ->
    read_list_loop (length ws + n) rd first last s
    = read_list_loop n rd first last (with_stdin s rest).
Proof.
  induction 1 as [|a ws Ha _ IH]; intros n s rest Hin; simpl in Hin.
  - simpl. now rewrite <- Hin, with_stdin_same.
  - change (length (a :: ws) + n)%nat with (S (length ws + n)).
    rewrite read_list_loop_S. step (getchar_cons _ _ _ Hin).
    unfold is_space in Ha. rewrite Ha.
    now rewrite (IH n (with_stdin s (ws ++ rest)) rest eq_refl).
Qed.

(** X2.  A pair of parentheses with nothing but white space between them
    reads as the atom [Nil]; no object is allocated. *)
Theorem read_empty_list junk ws n s rest :
  Forall is_space ws -> stdin s = "("%char :: ws ++ ")"%char :: rest ->
  read junk (S (length ws + S n)) s = Ok Nil (with_stdin s rest).
Proof.
  intros Hws Hin. rewrite (read_open junk _ s _ Hin).
  rewrite (read_list_loop_spaces _ Nil Nil ws Hws (S n)
             (with_stdin s (ws ++ ")"%char :: rest)) (")"%char :: rest) eq_refl).
  rewrite read_list_loop_S.
  now rewrite (bind_ok _ _ _ _ _
                 (getchar_cons (with_stdin s (")"%char :: rest)) ")"%char rest eq_refl)).
Qed.

Lemma read_empty_list_witness :
  read 1 (S (length (list_ascii_of_string "  ") + 1))
    (initial_state (list_ascii_of_string "(  ) x"))
  = Ok Nil (with_stdin (initial_state (list_ascii_of_string "(  ) x"))
              (list_ascii_of_string " x")).
Proof.
  apply (read_empty_list 1 (list_ascii_of_string "  ") 0).
  - repeat constructor.
  - reflexivity.
Defined.

(** ** The quote abbreviation *)

Lemma read_quote_char junk n s r :
  stdin s = "'"%char :: r ->
  read junk (S n) s = read_quote (read junk n) (with_stdin s r).
Proof.
  intros Hin. rewrite read_S. step (getchar_cons _ _ _ Hin). reflexivity.
Qed.

Lemma read_quote_tree junk n v s rest :
  junk <> 0 -> readable v = true -> delimited rest = true ->
  stdin s = "'"%char :: text v ++ rest ->
  (1 <= length (heap s))%nat -> (length (text v) + 2 <= n)%nat ->
  exists q s' ext,
    read junk (S n) s = Ok q s' /\ stdin s' = rest /\ heap s' = heap s ++ ext
    /\ repr s' q (vlist [VSym "quote"; norm v]).
Proof.
  intros Hjunk Hv Hrest Hin Hheap Hn.
  rewrite (read_quote_char junk n s _ Hin). unfold read_quote.
  unfold new_object at 1. unfold bind at 1.
  set (s1 := with_heap (with_stdin s (text v ++ rest))
               (heap (with_stdin s (text v ++ rest)) ++ [O_SYMBOL "quote"])).
  destruct (read_text junk Hjunk (size v) v (Nat.le_refl _) Hv n Hn s1 rest Hrest eq_refl
              ltac:(simpl; rewrite length_app; simpl; lia))
    as (e & s2 & ext & Hread & Hin2 & Hh2 & Htree).
  step Hread. unfold cons, new_object, bind.
  eexists _, _, ([O_SYMBOL "quote"] ++ ext ++ [O_CONS e Nil; O_CONS (S (length (heap s))) (S (length (heap s2)))]).
  split; [reflexivity|]. split; [exact Hin2|].
  split; [simpl; rewrite Hh2; simpl; now rewrite <- !app_assoc|].
  set (s3 := with_heap _ _).
  assert (Hh3 : heap s3 = heap s ++ [O_SYMBOL "quote"] ++ ext
                          ++ [O_CONS e Nil; O_CONS (S (length (heap s))) (S (length (heap s2)))]).
  { unfold s3. simpl. rewrite Hh2. simpl. now rewrite <- !app_assoc. }
  assert (Hpre2 : heap s2 `prefix_of` heap s3).
  { unfold s3. simpl. rewrite <- app_assoc. now apply prefix_app_r. }
  assert (Hpre1 : heap s1 `prefix_of` heap s3).
  { etransitivity; [|exact Hpre2]. rewrite Hh2. now apply prefix_app_r. }
  eapply repr_pair.
  - apply (obj_at_alloc_new (with_heap s2 (heap s2 ++ [O_CONS e Nil]))).
  - apply repr_sym. apply (prefix_obj_at s1 s3 _ _ Hpre1).
    apply (obj_at_alloc_new (with_stdin s (text v ++ rest))).
  - eapply repr_pair.
    + apply (obj_at_alloc_old (with_heap s2 (heap s2 ++ [O_CONS e Nil]))).
      apply obj_at_alloc_new.
    + apply (repr_prefix s2 s3 _ _ Hpre2). exact (tree_repr _ _ _ _ _ Htree).
    + apply repr_nil.
Qed.

(** X3.  An apostrophe before the text of a readable tree [v] reads as the
    two-element list [(quote v)], built in fresh cells. *)
Theorem read_quote_form junk n v s rest :
  junk <> 0 -> readable v = true -> delimited rest = true ->
  stdin s = "'"%char :: text v ++ rest ->
  (1 <= length (heap s))%nat -> (length (text v) + 2 <= n)%nat ->
  exists q s' ext,
    read junk (S n) s = Ok q s' /\ stdin s' = rest /\ heap s' = heap s ++ ext
    /\ repr s' q (vlist [VSym "quote"; norm v]).
Proof. apply read_quote_tree. Qed.

Definition s_quote : State := initial_state (list_ascii_of_string "'(a 1)").

Lemma read_quote_form_witness :
  exists q s' ext,
    read 1 9 s_quote = Ok q s' /\ stdin s' = [] /\ heap s' = heap s_quote ++ ext
    /\ repr s' q (vlist [VSym "quote"; norm (vlist [VSym "a"; VInt 1])]).
Proof.
  apply (read_quote_form 1 8 (vlist [VSym "a"; VInt 1]) s_quote []).
  - discriminate.
  - reflexivity.
  - reflexivity.
  - reflexivity.
  - simpl; lia.
  - vm_compute. lia.
Defined.



(** ** Quoted symbols *)

Lemma read_quoted_symbol_loop_S n buf i :
  read_quoted_symbol_loop (S n) buf i =
  let* c := getchar in
  if negb (c =? 34) then
    if SYMBOL_MAX_LENGTH <=? i then err "Symbol name is too long"
    else read_quoted_symbol_loop n (buf ++ [to_char c]) (i + 1)
  else ret buf.
Proof. reflexivity. Qed.

Definition not_quote (a : ascii) : Prop := a <> "034"%char.

Lemma not_quote_code a : not_quote a -> (code a =? 34) = false.
Proof.
  intros H. apply Z.eqb_neq. intros E. apply H. now apply code_inj in E.
Qed.

Lemma read_quoted_symbol_loop_ok cs :
  Forall not_quote cs ->
  forall rest s fuel buf,
    stdin s = cs ++ "034"%char :: rest -> (length cs < fuel)%nat ->
    (length buf + length cs <= 128)%nat ->
    read_quoted_symbol_loop fuel buf (Z.of_nat (length buf)) s
    = Ok (buf ++ cs) (with_stdin s rest).
Proof.
  induction 1 as [|a cs Ha _ IH]; intros rest s fuel buf Hin Hfuel Hlen;
    (destruct fuel as [|fuel]; [simpl in Hfuel; lia|]);
    rewrite read_quoted_symbol_loop_S; simpl in Hin; step (getchar_cons _ _ _ Hin).
  - rewrite app_nil_r. reflexivity.
  - rewrite (not_quote_code a Ha). cbn [negb]. cbv iota.
    simpl in Hlen.
    replace (SYMBOL_MAX_LENGTH <=? Z.of_nat (length buf)) with false
      by (symmetry; apply Z.leb_gt; unfold SYMBOL_MAX_LENGTH; lia).
    rewrite to_char_code.
    replace (Z.of_nat (length buf) + 1) with (Z.of_nat (length (buf ++ [a])))
      by (rewrite length_app; simpl; lia).
    rewrite (IH rest (with_stdin s (cs ++ "034"%char :: rest)) fuel _ eq_refl)
      by (rewrite ?length_app; simpl in *; lia).
    now rewrite <- app_assoc.
Qed.

Lemma read_double_quote junk n s r :
  stdin s = "034"%char :: r ->
  read junk (S n) s = read_quoted_symbol n (with_stdin s r).
Proof.
  intros Hin. rewrite read_S. step (getchar_cons _ _ _ Hin). reflexivity.
Qed.

(** X4.  Between double quotes any characters are taken for the name of a
    symbol, white space and parentheses included, up to 128 of them;
    the name stored is the text up to its first null character. *)
Theorem read_quoted_symbol_text junk n cs s rest :
  Forall not_quote cs -> (length cs <= 128)%nat ->
  stdin s = "034"%char :: cs ++ "034"%char :: rest -> (length cs < n)%nat ->
  read junk (S n) s
  = Ok (S (length (heap s)))
       (with_heap (with_stdin s rest) (heap s ++ [O_SYMBOL (c_string cs)])).
Proof.
  intros Hcs Hlen Hin Hn. rewrite (read_double_quote junk n s _ Hin).
  unfold read_quoted_symbol.
  rewrite (bind_ok _ _ _ _ _
             (read_quoted_symbol_loop_ok cs Hcs rest
                (with_stdin s (cs ++ "034"%char :: rest)) n [] eq_refl Hn
                ltac:(simpl; lia))).
  reflexivity.
Qed.

Definition s_quoted : State :=
  initial_state ("034"%char :: list_ascii_of_string "a (b" ++ ["034"%char]).

Lemma read_quoted_symbol_text_witness :
  read 1 6 s_quoted
  = Ok (S (length (heap s_quoted)))
       (with_heap (with_stdin s_quoted [])
          (heap s_quoted ++ [O_SYMBOL (c_string (list_ascii_of_string "a (b"))])).
Proof.
  apply (read_quoted_symbol_text 1 5 (list_ascii_of_string "a (b") s_quoted []).
  - repeat constructor; discriminate.
  - simpl; lia.
  - reflexivity.
  - simpl; lia.
Defined.

(** The end of the input inside a quoted symbol is not noticed: the
    loop keeps storing the value of [EOF] until the buffer is full. *)
Lemma read_quoted_symbol_loop_end s :
  stdin s = [] ->
  forall k i buf fuel,
    (i + k = 128)%nat -> (k < fuel)%nat ->
    read_quoted_symbol_loop fuel buf (Z.of_nat i) s = Error "Symbol name is too long".
Proof.
  intros Hin. induction k as [|k IH]; intros i buf fuel Hi Hfuel;
    (destruct fuel as [|fuel]; [lia|]); rewrite read_quoted_symbol_loop_S;
    step (getchar_end s Hin); change (negb (EOF =? 34)) with true; cbv iota.
  - replace (SYMBOL_MAX_LENGTH <=? Z.of_nat i) with true
      by (symmetry; apply Z.leb_le; unfold SYMBOL_MAX_LENGTH; lia).
    reflexivity.
  - replace (SYMBOL_MAX_LENGTH <=? Z.of_nat i) with false
      by (symmetry; apply Z.leb_gt; unfold SYMBOL_MAX_LENGTH; lia).
    replace (Z.of_nat i + 1) with (Z.of_nat (S i)) by lia.
    apply IH; lia.
Qed.

Lemma read_quoted_symbol_loop_overlong cs rest :
  Forall not_quote cs ->
  forall s i buf fuel,
    stdin s = cs ++ rest -> (i <= 128)%nat ->
    (128 < i + length cs)%nat \/ rest = [] -> (128 - i < fuel)%nat ->
    read_quoted_symbol_loop fuel buf (Z.of_nat i) s = Error "Symbol name is too long".
Proof.
  induction 1 as [|a cs Ha _ IH]; intros s i buf fuel Hin Hi Hlong Hfuel.
  - simpl in Hin, Hlong. destruct Hlong as [Hlong| ->]; [lia|].
    apply (read_quoted_symbol_loop_end s Hin (128 - i)); lia.
  - destruct fuel as [|fuel]; [lia|]. rewrite read_quoted_symbol_loop_S.
    simpl in Hin. step (getchar_cons _ _ _ Hin).
    rewrite (not_quote_code a Ha). cbn [negb]. cbv iota.
    destruct (SYMBOL_MAX_LENGTH <=? Z.of_nat i) eqn:E; [reflexivity|].
    apply Z.leb_gt in E. unfold SYMBOL_MAX_LENGTH in E.
    replace (Z.of_nat i + 1) with (Z.of_nat (S i)) by lia.
    apply (IH (with_stdin s (cs ++ rest))); [reflexivity|lia| |lia].
    simpl in Hlong. destruct Hlong; [left; lia|now right].
Qed.

(** X5.  A quoted symbol of more than 128 characters, or one whose closing
    quote is missing, ends the program with the message of the length
    check. *)
Theorem read_quoted_symbol_overlong junk n cs s rest :
  Forall not_quote cs -> stdin s = "034"%char :: cs ++ rest ->
  (128 < length cs)%nat \/ rest = [] -> (128 < n)%nat ->
  read junk (S n) s = Error "Symbol name is too long".
Proof.
  intros Hcs Hin Hlong Hn. rewrite (read_double_quote junk n s _ Hin).
  unfold read_quoted_symbol, bind.
  pose proof (read_quoted_symbol_loop_overlong cs rest Hcs
                (with_stdin s (cs ++ rest)) 0 [] n eq_refl ltac:(lia) Hlong ltac:(lia))
    as Hloop.
  change (Z.of_nat 0) with 0 in Hloop. now rewrite Hloop.
Qed.

(** The text of an opening quote and [abc], with no closing quote. *)
Lemma read_quoted_symbol_overlong_witness :
  read 1 130 (initial_state ("034"%char :: list_ascii_of_string "abc" ++ []))
  = Error "Symbol name is too long".
Proof.
  apply (read_quoted_symbol_overlong 1 129 (list_ascii_of_string "abc")
           (initial_state ("034"%char :: list_ascii_of_string "abc" ++ [])) []).
  - repeat constructor; discriminate.
  - reflexivity.
  - now right.
  - lia.
Defined.

(** ** Symbols that do not fit *)

Lemma read_symbol_loop_overlong cs rest :
  Forall (fun a => symbol_char a = true) cs ->
  forall s i buf fuel,
    stdin s = cs ++ rest -> (i <= 128)%nat -> (128 < i + length cs)%nat ->
    (128 - i < fuel)%nat ->
    read_symbol_loop fuel buf (Z.of_nat i) s = Error "Symbol name is too long".
Proof.
  induction 1 as [|a cs Ha _ IH]; intros s i buf fuel Hin Hi Hlong Hfuel;
    [simpl in Hlong; lia|].
  destruct fuel as [|fuel]; [lia|]. rewrite read_symbol_loop_S.
  simpl in Hin. step (peek_stdin s). rewrite Hin. cbn [head_code].
  rewrite (symbol_char_accepted _ Ha).
  destruct (SYMBOL_MAX_LENGTH <=? Z.of_nat i) eqn:E; [reflexivity|].
  apply Z.leb_gt in E. unfold SYMBOL_MAX_LENGTH in E.
  step (getchar_cons _ _ _ Hin).
  replace (Z.of_nat i + 1) with (Z.of_nat (S i)) by lia.
  apply (IH (with_stdin s (cs ++ rest))); [reflexivity|lia|simpl in Hlong; lia|lia].
Qed.

(** X6.  A run of more than 128 symbol characters is not read as a symbol:
    [read_symbol] ends the program with an error. *)
Theorem read_symbol_too_long fuel cs s rest :
  Forall (fun a => symbol_char a = true) cs -> (128 < length cs)%nat ->
  stdin s = cs ++ rest -> (128 < fuel)%nat ->
  read_symbol fuel s = Error "Symbol name is too long".
Proof.
  intros Hcs Hlen Hin Hfuel. unfold read_symbol, bind.
  pose proof (read_symbol_loop_overlong cs rest Hcs s 0 [] fuel Hin ltac:(lia)
                ltac:(simpl; lia) ltac:(lia)) as Hloop.
  change (Z.of_nat 0) with 0 in Hloop. now rewrite Hloop.
Qed.

Definition long_name : list ascii := repeat "x"%char 129.

Lemma read_symbol_too_long_witness :
  read_symbol 129 (initial_state (long_name ++ [])) = Error "Symbol name is too long".
Proof.
  apply (read_symbol_too_long 129 long_name (initial_state (long_name ++ [])) []).
  - apply Forall_forall. intros a Ha. apply list_elem_of_In, repeat_spec in Ha. now subst.
  - vm_compute. lia.
  - reflexivity.
  - lia.
Defined.


(** ** What the reader leaves alone *)

Section ReaderFrame.

(** [h0] is the heap the reader is entered with. *)
Variable h0 : list Object.

Definition above (p : ptr) : Prop := (length h0 < p)%nat.

(** [m] keeps the cells of [h0], the frames and the output as they
    are, and its results satisfy [Q]. *)
Definition reader_keeps {A} (m : M A) (Q : A -> Prop) : Prop :=
  forall s a s', h0 `prefix_of` heap s -> m s = Ok a s' ->
    h0 `prefix_of` heap s' /\ frames s' = frames s /\ stdout s' = stdout s /\ Q a.

Lemma rk_ret {A} (a : A) (Q : A -> Prop) : Q a -> reader_keeps (ret a) Q.
Proof. intros HQ s a' s' Hpre [= <- <-]. auto. Qed.

Lemma rk_bind {A B} (m : M A) (k : A -> M B) Q1 Q :
  reader_keeps m Q1 -> (forall a, Q1 a -> reader_keeps (k a) Q) ->
  reader_keeps (bind m k) Q.
Proof.
  intros Hm Hk s b s' Hpre H. apply bind_inv in H as (a & s1 & H1 & H2).
  destruct (Hm _ _ _ Hpre H1) as (Hpre1 & Hf1 & Ho1 & HQ1).
  destruct (Hk a HQ1 _ _ _ Hpre1 H2) as (Hpre2 & Hf2 & Ho2 & HQ).
  repeat split; [exact Hpre2|congruence|congruence|exact HQ].
Qed.

Lemma rk_weaken {A} (m : M A) (Q Q' : A -> Prop) :
  reader_keeps m Q -> (forall a, Q a -> Q' a) -> reader_keeps m Q'.
Proof.
  intros Hm HQ s a s' Hpre H. destruct (Hm _ _ _ Hpre H) as (? & ? & ? & ?). auto.
Qed.

Lemma rk_err {A} msg (Q : A -> Prop) : reader_keeps (err msg) Q.
Proof. intros s a s' _ H. discriminate. Qed.

Lemma rk_out_of_fuel {A} (Q : A -> Prop) : reader_keeps out_of_fuel Q.
Proof. intros s a s' _ H. discriminate. Qed.

Lemma rk_getchar : reader_keeps getchar any.
Proof.
  intros s c s' Hpre H. unfold getchar in H.
  destruct (stdin s); injection H as <- <-; repeat split; auto.
Qed.

Lemma rk_ungetc c : reader_keeps (ungetc c) any.
Proof.
  intros s u s' Hpre H. unfold ungetc in H.
  destruct (c =? EOF); injection H as <- <-; repeat split; auto.
Qed.

Lemma rk_peek : reader_keeps peek any.
Proof.
  unfold peek. eapply rk_bind; [apply rk_getchar|intros c _].
  eapply rk_bind; [apply rk_ungetc|intros u _]. now apply rk_ret.
Qed.

Lemma rk_new_object o : reader_keeps (new_object o) above.
Proof.
  intros s p s' Hpre [= <- <-]. repeat split; simpl.
  - now apply prefix_app_r.
  - apply prefix_length in Hpre. unfold above. lia.
Qed.

Lemma rk_set_cdr p v : above p -> reader_keeps (set_cdr p v) any.
Proof.
  intros Hp s u s' Hpre H. apply set_cdr_inv in H as (a & d & _ & ->).
  repeat split; simpl. apply prefix_insert_beyond; [exact Hpre|].
  unfold above in Hp. lia.
Qed.

Lemma rk_read_number_loop fuel : forall v, reader_keeps (read_number_loop fuel v) any.
Proof.
  induction fuel as [|n IH]; intros v; [apply rk_out_of_fuel|].
  rewrite read_number_loop_S. eapply rk_bind; [apply rk_peek|intros p _].
  destruct (isdigit p); [|now apply rk_ret].
  eapply rk_bind; [apply rk_getchar|intros c _]. apply IH.
Qed.

Lemma rk_read_symbol_loop fuel : forall buf i, reader_keeps (read_symbol_loop fuel buf i) any.
Proof.
  induction fuel as [|n IH]; intros buf i; [apply rk_out_of_fuel|].
  rewrite read_symbol_loop_S. eapply rk_bind; [apply rk_peek|intros p _].
  destruct (_ || _); [|now apply rk_ret].
  destruct (_ <=? _); [apply rk_err|].
  eapply rk_bind; [apply rk_getchar|intros c _]. apply IH.
Qed.

Lemma rk_read_quoted_symbol_loop fuel :
  forall buf i, reader_keeps (read_quoted_symbol_loop fuel buf i) any.
Proof.
  induction fuel as [|n IH]; intros buf i; [apply rk_out_of_fuel|].
  rewrite read_quoted_symbol_loop_S. eapply rk_bind; [apply rk_getchar|intros c _].
  destruct (negb _); [|now apply rk_ret].
  destruct (_ <=? _); [apply rk_err|apply IH].
Qed.

(** What [read] may return: the null pointer at the end of the input,
    [Nil] for an empty list, or an object of its own. *)
Definition read_result (q : ptr) : Prop := q = NULL \/ q = Nil \/ above q.

Lemma rk_read_list_loop fuel rd :
  reader_keeps rd read_result ->
  forall first last,
    first = Nil \/ (above first /\ above last) ->
    reader_keeps (read_list_loop fuel rd first last) read_result.
Proof.
  intros Hrd. induction fuel as [|n IH]; intros first last Hinv;
    [apply rk_out_of_fuel|].
  rewrite read_list_loop_S. eapply rk_bind; [apply rk_getchar|intros c _].
  destruct (isspace c); [now apply IH|].
  destruct (c =? 41).
  { apply rk_ret. destruct Hinv as [->|[Hf _]]; [right; now left|right; now right]. }
  eapply rk_bind; [apply rk_ungetc|intros u _].
  eapply rk_bind; [exact Hrd|intros e _].
  eapply rk_bind; [apply rk_new_object|intros cell Hcell].
  destruct (first =? Nil)%nat eqn:E.
  - eapply rk_bind; [now apply (rk_ret tt any)|intros _ _].
    apply IH. right. now split.
  - apply Nat.eqb_neq in E. destruct Hinv as [->|[Hf Hl]]; [congruence|].
    eapply rk_bind; [now apply rk_set_cdr|intros _ _].
    apply IH. right. now split.
Qed.

Lemma rk_read junk fuel : reader_keeps (read junk fuel) read_result.
Proof.
  induction fuel as [|n IH]; [apply rk_out_of_fuel|].
  rewrite read_S. eapply rk_bind; [apply rk_getchar|intros c _].
  destruct (isspace c); [exact IH|].
  destruct (c =? EOF); [apply rk_ret; now left|].
  assert (Hnum : forall sign, reader_keeps (read_number n sign) read_result).
  { intros sign. unfold read_number.
    eapply rk_bind; [apply rk_read_number_loop|intros v _].
    eapply rk_weaken; [apply rk_new_object|]. intros p Hp. right. now right. }
  destruct (isdigit c).
  { eapply rk_bind; [apply rk_ungetc|intros u _]. apply Hnum. }
  eapply rk_bind with (Q1 := any).
  { destruct (c =? 45); [|now apply rk_ret].
    eapply rk_bind; [apply rk_peek|intros p _]. now apply rk_ret. }
  intros minus_digit _. destruct minus_digit; [apply Hnum|].
  destruct (_ || _).
  { eapply rk_bind; [apply rk_ungetc|intros u _]. unfold read_symbol.
    eapply rk_bind; [apply rk_read_symbol_loop|intros buf _].
    eapply rk_weaken; [apply rk_new_object|]. intros p Hp. right. now right. }
  destruct (c =? 34).
  { unfold read_quoted_symbol.
    eapply rk_bind; [apply rk_read_quoted_symbol_loop|intros buf _].
    eapply rk_weaken; [apply rk_new_object|]. intros p Hp. right. now right. }
  destruct (c =? 40); [apply rk_read_list_loop; [exact IH|now left]|].
  destruct (c =? 39); [|apply rk_err].
  unfold read_quote.
  eapply rk_bind; [apply rk_new_object|intros o _].
  eapply rk_bind; [exact IH|intros e _].
  eapply rk_bind; [apply rk_new_object|intros d _].
  eapply rk_weaken; [apply rk_new_object|]. intros p Hp. right. now right.
Qed.

End ReaderFrame.

(** X7.  Whatever the input, [read] only allocates: the objects of the heap
    it is entered with, the frames and the text written stay as they
    are, and what it returns is the null pointer (end of the input),
    [Nil] (an empty list) or an object it has allocated. *)
Theorem read_only_allocates junk fuel s q s' :
  read junk fuel s = Ok q s' ->
  heap s `prefix_of` heap s' /\ frames s' = frames s /\ stdout s' = stdout s
  /\ (q = NULL \/ q = Nil \/ (length (heap s) < q)%nat).
Proof.
  intros H. now apply (rk_read (heap s) junk fuel s q s').
Qed.

Definition read_session : result ptr :=
  read 1 20 (initial_state (list_ascii_of_string "(a (b) 'c 12)")).

Lemma read_only_allocates_witness :
  heap (initial_state (list_ascii_of_string "(a (b) 'c 12)"))
    `prefix_of` heap (state_of read_session)
  /\ frames (state_of read_session) = frames (initial_state (list_ascii_of_string "(a (b) 'c 12)"))
  /\ stdout (state_of read_session) = stdout (initial_state (list_ascii_of_string "(a (b) 'c 12)"))
  /\ (value_of read_session = NULL \/ value_of read_session = Nil
      \/ (length (heap (initial_state (list_ascii_of_string "(a (b) 'c 12)")))
          < value_of read_session)%nat).
Proof.
  apply (read_only_allocates 1 20). vm_compute. reflexivity.
Defined.

(** * Further properties of the printer *)

Definition writes {A} (m : M A) : Prop :=
  forall s a s', m s = Ok a s' -> exists t, s' = written s t.

Lemma written_nil s : written s [] = s.
Proof. destruct s. unfold written, with_stdout. simpl. now rewrite app_nil_r. Qed.

Lemma writes_same {A} (m : M A) :
  (forall s a s', m s = Ok a s' -> s' = s) -> writes m.
Proof. intros Hm s a s' H. exists []. rewrite written_nil. eauto. Qed.

Lemma writes_bind {A B} (m : M A) (k : A -> M B) :
  writes m -> (forall a, writes (k a)) -> writes (bind m k).
Proof.
  intros Hm Hk s b s' H. apply bind_inv in H as (a & s1 & H1 & H2).
  destruct (Hm _ _ _ H1) as [t1 ->]. destruct (Hk a _ _ _ H2) as [t2 ->].
  exists (t1 ++ t2). apply written_app.
Qed.

Lemma writes_printf t : writes (printf t).
Proof. intros s a s' [= <- <-]. now exists t. Qed.

Lemma writes_get_car p : writes (get_car p).
Proof. apply writes_same. intros s a s' H. now apply get_car_inv in H. Qed.

Lemma writes_get_cdr p : writes (get_cdr p).
Proof. apply writes_same. intros s a s' H. now apply get_cdr_inv in H. Qed.

Lemma writes_deref p : writes (deref p).
Proof. apply writes_same. intros s a s' H. now apply deref_inv in H. Qed.

Lemma writes_ret {A} (a : A) : writes (ret a).
Proof. apply writes_same. now intros s a' s' [= _ <-]. Qed.

Lemma writes_print_elements fuel pr :
  (forall o, writes (pr o)) -> forall o, writes (print_elements fuel pr o).
Proof.
  intros Hpr. induction fuel as [|n IH]; intros o; [intros s a s' H; discriminate|].
  rewrite print_elements_S.
  apply writes_bind; [apply writes_get_car|intros a].
  apply writes_bind; [apply Hpr|intros _].
  apply writes_bind; [apply writes_get_cdr|intros d].
  destruct (d =? Nil)%nat; [apply writes_ret|].
  apply writes_bind; [apply writes_printf|intros _]. apply IH.
Qed.

(** X8.  [print] does nothing but append text to the output: the heap, the
    frames and the input are as before. *)
Theorem print_only_writes fuel o s u s' :
  print fuel o s = Ok u s' ->
  exists t, stdout s' = stdout s ++ t
            /\ heap s' = heap s /\ frames s' = frames s /\ stdin s' = stdin s.
Proof.
  assert (Hw : forall fuel o, writes (print fuel o)).
  { clear. induction fuel as [|n IH]; intros o; [intros s a s' H; discriminate|].
    rewrite print_S. apply writes_bind; [apply writes_deref|intros obj].
    destruct obj; try apply writes_printf.
    apply writes_bind; [apply writes_printf|intros _].
    apply writes_bind; [now apply writes_print_elements|intros _].
    apply writes_printf. }
  intros H. destruct (Hw fuel o s u s' H) as [t ->]. exists t. auto.
Qed.

Lemma print_only_writes_witness :
  exists t, stdout (state_of (print 9 12%nat s_round)) = stdout s_round ++ t
            /\ heap (state_of (print 9 12%nat s_round)) = heap s_round
            /\ frames (state_of (print 9 12%nat s_round)) = frames s_round
            /\ stdin (state_of (print 9 12%nat s_round)) = stdin s_round.
Proof.
  apply (print_only_writes 9 12%nat s_round tt). vm_compute. reflexivity.
Defined.


(** * Counting and name resolution *)

(** X9.  [count] returns the number of pairs of a chain that ends in [Nil],
    and [-1] for a chain that ends in any other object. *)
Theorem count_length_or_minus_one s p l e fuel :
  cells s p l e -> not_pair s e -> (length l < fuel)%nat ->
  count fuel p s = Ok (if (e =? Nil)%nat then Z.of_nat (length l) else -1) s.
Proof.
  intros Hcells He Hfuel. unfold count.
  now rewrite (count_from_cells _ _ _ _ Hcells He fuel 0 Hfuel).
Qed.

(** In [s_round] the chain from address 8 holds the integers at 4 and
    5 and ends in [Nil]; the pair of two integers at address 13 of the
    second heap ends in the integer at 4. *)
Lemma count_length_or_minus_one_witness :
  count 3 8%nat s_round = Ok (if (Nil =? Nil)%nat then Z.of_nat (length [4; 5]%nat) else -1) s_round.
Proof.
  apply (count_length_or_minus_one s_round 8%nat [4; 5]%nat Nil 3).
  - eapply cells_step; [reflexivity|]. eapply cells_step; [reflexivity|]. constructor.
  - exists O_NIL. split; [reflexivity|discriminate].
  - simpl; lia.
Defined.

(** [unbound fr e name d]: neither the frame [e] nor any of the [d]
    frames above it binds [name], and the last of them has no parent. *)
Inductive unbound (fr : list Env) : envptr -> string -> nat -> Prop :=
| unbound_root e f name :
    fr !! e = Some f -> ht f !! name = None -> parent f = ENULL ->
    unbound fr (S e) name 0
| unbound_up e f name d :
    fr !! e = Some f -> ht f !! name = None -> parent f <> ENULL ->
    unbound fr (parent f) name d ->
    unbound fr (S e) name (S d).

(** X10.  A name bound in no frame of the chain ends the program with a
    message that names it; the state is not changed before. *)
Theorem env_lookup_undefined s e name d fuel :
  unbound (frames s) e name d -> (d < fuel)%nat ->
  env_lookup fuel e name s = Error ("Undefined symbol: " +:+ name).
Proof.
  intros H. revert fuel.
  induction H as [e f name Hf Hnone Hpar|e f name d Hf Hnone Hpar Hup IH];
    intros fuel Hfuel; (destruct fuel as [|k]; [lia|]); simpl;
    unfold env_get, bind; simpl; rewrite Hf; simpl; rewrite Hnone.
  - now rewrite Hpar.
  - apply Nat.eqb_neq in Hpar. rewrite Hpar. apply IH. lia.
Qed.

(** A root frame that binds [a], a child frame that binds [b]. *)
Definition s_frames : State :=
  mkState [O_NIL; O_TRUE; O_INT 1; O_INT 2]
          [mkEnv {["a" := 3%nat]} ENULL; mkEnv {["b" := 4%nat]} 1%nat] [] [].

Lemma env_lookup_undefined_witness :
  env_lookup 2 2%nat "c" s_frames = Error ("Undefined symbol: " +:+ "c").
Proof.
  apply (env_lookup_undefined s_frames 2%nat "c" 1 2); [|lia].
  eapply (unbound_up _ 1%nat); [reflexivity|reflexivity|discriminate|].
  eapply (unbound_root _ 0%nat); reflexivity.
Defined.

(** ** define and lookup *)

(** X11.  After [(define name e)] the name resolves, from the frame the
    definition was made in, to the value of [e], whatever it was bound
    to before in that frame or its parents; the other frames and the
    heap are as the evaluation of [e] left them. *)
Theorem define_then_lookup ev env s dargs xs d e name value s1 f n k :
  obj_at s Nil = Some O_NIL ->
  obj_at s dargs = Some (O_CONS xs d) ->
  obj_at s d = Some (O_CONS e Nil) ->
  obj_at s xs = Some (O_SYMBOL name) ->
  ev env e s = Ok value s1 ->
  obj_at s1 dargs = Some (O_CONS xs d) ->
  obj_at s1 xs = Some (O_SYMBOL name) ->
  frame_at s1 env = Some f ->
  exists s',
    primitive_define (S (S (S n))) ev env dargs s = Ok value s'
    /\ env_lookup (S k) env name s' = Ok value s'
    /\ heap s' = heap s1
    /\ length (frames s') = length (frames s1)
    /\ forall i, S i <> env -> frames s' !! i = frames s1 !! i.
Proof.
  intros HNil Hdargs Hd Hxs Hev Hdargs1 Hxs1 Hf.
  eexists. split;
    [exact (define_symbol ev env s dargs xs d e name value s1 f n
              HNil Hdargs Hd Hxs Hev Hdargs1 Hxs1 Hf)|].
  destruct env as [|i]; [discriminate|]. simpl in Hf.
  split.
  - simpl. unfold env_get, bind. simpl.
    rewrite list_lookup_insert_eq by (now apply lookup_lt_Some in Hf).
    simpl. now rewrite lookup_insert_eq.
  - split; [reflexivity|]. split; [simpl; apply length_insert|].
    intros j Hj. simpl. apply list_lookup_insert_ne. congruence.
Qed.


Definition s_def : State := state_of (load 20 1 "(define x (quote y))").

(** The argument list of [(define x (quote y))] is the cell at address
    27; the value is the symbol [y] at address 30. *)
Lemma define_then_lookup_witness :
  exists s',
    primitive_define 3 (eval 5) 1%nat 27%nat s_def = Ok 30%nat s'
    /\ env_lookup 1 1%nat "x" s' = Ok 30%nat s'
    /\ heap s' = heap s_def
    /\ length (frames s') = length (frames s_def)
    /\ forall i, S i <> 1%nat -> frames s' !! i = frames s_def !! i.
Proof.
  eapply (define_then_lookup (eval 5) 1%nat s_def 27%nat 26%nat 32%nat 29%nat "x"
            30%nat s_def _ 0 0); vm_compute; reflexivity.
Defined.

(** ** The root environment *)

(** The bindings [add_primitives] makes: the primitive objects are
    allocated one after the other, above [base]. *)
Fixpoint bind_table (table : list (string * Primitive)) (base : nat)
    (m : gmap string ptr) : gmap string ptr :=
  match table with
  | [] => m
  | (name, _) :: rest => bind_table rest (S base) (<[name := S base]> m)
  end.

Lemma frame_at_insert s e f f' :
  frame_at s e = Some f ->
  frame_at (with_frames s (<[pred e := f']> (frames s))) e = Some f'.
Proof.
  destruct e as [|i]; [discriminate|]. simpl. intros H.
  apply list_lookup_insert_eq. now apply lookup_lt_Some in H.
Qed.

Lemma add_primitives_ok table :
  forall s env f,
    frame_at s env = Some f ->
    add_primitives env table s
    = Ok tt (mkState (heap s ++ map (fun x => O_PRIMITIVE (snd x)) table)
               (<[pred env := mkEnv (bind_table table (length (heap s)) (ht f)) (parent f)]>
                  (frames s))
               (stdin s) (stdout s)).
Proof.
  induction table as [|[name fn] rest IH]; intros s env f Hf.
  - simpl. unfold ret. f_equal. destruct s as [h fr i o]. simpl in *.
    rewrite app_nil_r. f_equal.
    destruct env as [|e]; [discriminate|]. simpl in *.
    replace (mkEnv (ht f) (parent f)) with f by now destruct f.
    symmetry. now apply list_insert_id.
  - cbn [add_primitives].
    set (s1 := with_heap s (heap s ++ [O_PRIMITIVE fn])).
    assert (Hf1 : frame_at s1 env = Some f) by exact Hf.
    set (f2 := mkEnv (<[name := S (length (heap s))]> (ht f)) (parent f)).
    assert (Hadd : add_primitive env name fn s
                   = Ok tt (with_frames s1 (<[pred env := f2]> (frames s1)))).
    { unfold add_primitive.
      rewrite (bind_ok _ _ _ (S (length (heap s))) s1) by reflexivity.
      apply (ht_insert_ok s1 env f name _ Hf1). }
    step Hadd.
    rewrite (IH _ env f2 (frame_at_insert s1 env f f2 Hf1)).
    f_equal. simpl. rewrite length_app, <- app_assoc, list_insert_insert_eq. simpl.
    replace (length (heap s) + 1)%nat with (S (length (heap s))) by lia.
    reflexivity.
Qed.

Lemma bind_table_other table :
  forall base m name,
    name ∉ map fst table -> bind_table table base m !! name = m !! name.
Proof.
  induction table as [|[n fn] rest IH]; intros base m name Hname; [reflexivity|].
  simpl in *. rewrite not_elem_of_cons in Hname. destruct Hname as [Hne Hrest].
  rewrite IH by exact Hrest. now apply lookup_insert_ne.
Qed.

(** With distinct names, entry [i] of the table is bound to object
    [i] of those allocated. *)
Lemma bind_table_lookup table :
  NoDup (map fst table) ->
  forall base m i name fn,
    table !! i = Some (name, fn) ->
    bind_table table base m !! name = Some (S (base + i)).
Proof.
  induction table as [|[n f0] rest IH]; intros Hnd base m i name fn Hi;
    [discriminate|].
  simpl in Hnd. apply NoDup_cons in Hnd as [Hn Hnd]. simpl.
  destruct i as [|i]; simpl in Hi.
  - injection Hi as -> ->. rewrite bind_table_other by exact Hn.
    rewrite lookup_insert_eq. f_equal. lia.
  - rewrite (IH Hnd (S base) _ i name fn Hi). f_equal. lia.
Qed.

(** X12.  [env_init] creates one frame without a parent.  In it [Nil] and
    [True] are bound to the two atoms and each of the twenty-one
    primitive names to a primitive object of its own that holds the C
    function registered under this name; the heap is extended by these
    objects and nothing else changes. *)
Theorem env_init_bindings s :
  exists s' f,
    env_init s = Ok (S (length (frames s))) s'
    /\ heap s' = heap s ++ map (fun x => O_PRIMITIVE (snd x)) primitive_table
    /\ frames s' = frames s ++ [f]
    /\ stdin s' = stdin s /\ stdout s' = stdout s
    /\ parent f = ENULL
    /\ ht f !! "Nil" = Some Nil /\ ht f !! "True" = Some True'
    /\ forall name fn, In (name, fn) primitive_table ->
         exists p, ht f !! name = Some p /\ obj_at s' p = Some (O_PRIMITIVE fn).
Proof.
  unfold env_init, env_create. unfold bind at 1.
  set (s1 := with_frames s (frames s ++ [mkEnv ∅ ENULL])).
  assert (Hf1 : frame_at s1 (S (length (frames s))) = Some (mkEnv ∅ ENULL)).
  { simpl. rewrite lookup_app_r by lia. now rewrite Nat.sub_diag. }
  step (ht_insert_ok s1 _ _ "Nil" Nil Hf1).
  set (f2 := mkEnv (<["Nil" := Nil]> ∅) ENULL).
  set (s2 := with_frames s1 (<[pred (S (length (frames s))) := f2]> (frames s1))).
  pose proof (frame_at_insert s1 _ _ f2 Hf1) as Hf2. fold s2 in Hf2.
  step (ht_insert_ok s2 _ _ "True" True' Hf2).
  set (f3 := mkEnv (<["True" := True']> (<["Nil" := Nil]> ∅)) ENULL).
  set (s3 := with_frames s2 (<[pred (S (length (frames s))) := f3]> (frames s2))).
  pose proof (frame_at_insert s2 _ _ f3 Hf2) as Hf3. fold s3 in Hf3.
  step (add_primitives_ok primitive_table s3 _ _ Hf3).
  set (f4 := mkEnv (bind_table primitive_table (length (heap s3)) (ht f3)) (parent f3)).
  assert (Hnd : NoDup (map fst primitive_table)).
  { apply (bool_decide_unpack _). vm_compute. exact I. }
  assert (Hnames : forall name : string,
             name = "Nil" \/ name = "True" -> name ∉ map fst primitive_table).
  { intros name [-> | ->]; apply (bool_decide_unpack _); vm_compute; exact I. }
  exists (mkState (heap s3 ++ map (fun x => O_PRIMITIVE (snd x)) primitive_table)
            (<[pred (S (length (frames s))) := f4]> (frames s3)) (stdin s3) (stdout s3)), f4.
  split; [reflexivity|]. split; [reflexivity|].
  split.
  { cbn [frames]. unfold s3, s2, s1. cbn [frames with_frames pred].
    rewrite !list_insert_insert_eq.
    rewrite insert_app_r_alt by lia. now rewrite Nat.sub_diag. }
  split; [reflexivity|]. split; [reflexivity|]. split; [reflexivity|].
  unfold f4. cbn [ht].
  split; [rewrite bind_table_other by (apply Hnames; now left); reflexivity|].
  split; [rewrite bind_table_other by (apply Hnames; now right); reflexivity|].
  intros name fn Hin.
  apply list_elem_of_In, list_elem_of_lookup in Hin as [i Hi].
  exists (S (length (heap s3) + i)). split; [now apply (bind_table_lookup _ Hnd _ _ i name fn)|].
  cbn [obj_at heap]. rewrite lookup_app_r by lia.
  replace (length (heap s3) + i - length (heap s3))%nat with i by lia.
  rewrite list_lookup_fmap, Hi. reflexivity.
Qed.


(** * Further properties of the evaluator *)

(** ** Calls of something that is not a function *)

(** X13.  A list whose first element evaluates to an object that is neither
    a primitive nor a closure is not a call: the program ends with an
    error and the arguments are not looked at. *)
Theorem eval_head_not_function n env o s f args p s1 obj f1 args1 :
  obj_at s o = Some (O_CONS f args) ->
  eval n env f s = Ok p s1 ->
  obj_at s1 o = Some (O_CONS f1 args1) ->
  obj_at s1 p = Some obj ->
  type_of obj <> OT_PRIMITIVE -> type_of obj <> OT_FUNCTION ->
  eval (S n) env o s = Error "The first element of list must be a function".
Proof.
  intros Ho Hf Ho1 Hp Hnp Hnf. rewrite eval_S.
  destruct o as [|i]; [discriminate|]. cbn [Nat.eqb NULL].
  step (deref_ok _ _ _ Ho). step Hf. step (get_cdr_ok _ _ _ _ Ho1).
  step (get_type_ok _ _ _ Hp).
  destruct obj; try reflexivity; [now elim Hnp|now elim Hnf].
Qed.

Definition s_call : State := state_of (load 20 1 "(1 2)").

(** The list [(1 2)] is the cell at address 25, its head the integer
    at address 24. *)
Lemma eval_head_not_function_witness :
  eval 2 1%nat 25%nat s_call = Error "The first element of list must be a function".
Proof.
  eapply (eval_head_not_function 1 1%nat 25%nat s_call 24%nat _ 24%nat s_call (O_INT 1));
    first [vm_compute; reflexivity | discriminate].
Defined.

(** ** Closures applied to too few arguments *)

(** The binding loop of [apply] runs over the parameters and does not
    test the argument list.  When the arguments run out first it reads
    the fields of [Nil], which are null: the parameter at hand is bound
    to the null pointer and the argument pointer becomes null.  If that
    parameter was the last one the loop ends there; otherwise the next
    round reads through the null pointer. *)
Lemma bind_params_short s0 params ps e :
  cells s0 params ps e -> not_pair s0 e ->
  forall s child names args vals f fuel,
    heap s = heap s0 -> obj_at s0 Nil = Some O_NIL ->
    Forall2 (symbol_named s0) ps names ->
    cells s0 args vals Nil -> (length vals < length ps)%nat ->
    frame_at s child = Some f -> (length ps < fuel)%nat ->
    bind_params fuel child params args s
    = if (length ps =? S (length vals))%nat
      then Ok tt (with_frames s
                    (<[pred child := mkEnv (bind_list names (vals ++ [NULL]) (ht f))
                                           (parent f)]> (frames s)))
      else Crash.
Proof.
  induction 1 as [p|p a d l e Hp Hcells IH];
    intros He s child names args vals f fuel Hheap HNil Hnames Hargs Hlen Hf Hfuel;
    [simpl in Hlen; lia|].
  destruct fuel as [|k]; [lia|].
  inversion Hnames as [|? n ? names' Hn Hnames']; subst.
  unfold symbol_named in Hn.
  rewrite <- (obj_at_same_heap _ _ p Hheap) in Hp.
  rewrite <- (obj_at_same_heap _ _ a Hheap) in Hn.
  simpl bind_params.
  step (get_type_ok _ _ _ Hp). cbn [type_of ObjectType_eqb].
  step (get_car_ok _ _ _ _ Hp). step (get_name_ok _ _ _ Hn).
  inversion Hargs as [|? v dargs vals' ? Hv Hargs']; subst.
  - (* no argument is left *)
    rewrite <- (obj_at_same_heap _ _ Nil Hheap) in HNil.
    step (field_car_Nil _ _ HNil).
    step (ht_insert_ok s child f n NULL Hf).
    set (f' := mkEnv (<[n := NULL]> (ht f)) (parent f)).
    set (s' := with_frames s (<[pred child := f']> (frames s))).
    assert (Hp' : obj_at s' p = Some (O_CONS a d)) by exact Hp.
    assert (HNil' : obj_at s' Nil = Some O_NIL) by exact HNil.
    step (get_cdr_ok _ _ _ _ Hp'). step (field_cdr_Nil _ _ HNil').
    destruct k as [|k]; [simpl in Hfuel; lia|].
    inversion Hcells as [|? a' d' l' ? Hd Hcells']; subst.
    + (* it was the last parameter *)
      inversion Hnames'; subst.
      destruct He as (o & Ho & Hty).
      assert (Ho' : obj_at s' e = Some o)
        by (rewrite <- (obj_at_same_heap _ _ e Hheap) in Ho; exact Ho).
      simpl bind_params. step (get_type_ok _ _ _ Ho').
      replace (ObjectType_eqb (type_of o) OT_CONS) with false
        by (destruct o; try reflexivity; now elim Hty).
      reflexivity.
    + (* another parameter follows *)
      inversion Hnames' as [|? n' ? names'' Hn' Hnames'']; subst.
      unfold symbol_named in Hn'.
      assert (Hd' : obj_at s' d = Some (O_CONS a' d'))
        by (rewrite <- (obj_at_same_heap _ _ d Hheap) in Hd; exact Hd).
      assert (Hn'' : obj_at s' a' = Some (O_SYMBOL n'))
        by (rewrite <- (obj_at_same_heap _ _ a' Hheap) in Hn'; exact Hn').
      simpl bind_params.
      step (get_type_ok _ _ _ Hd'). cbn [type_of ObjectType_eqb].
      step (get_car_ok _ _ _ _ Hd'). step (get_name_ok _ _ _ Hn'').
      reflexivity.
  - (* an argument is left *)
    rewrite <- (obj_at_same_heap _ _ args Hheap) in Hv.
    step (field_car_ok _ _ _ _ Hv).
    step (ht_insert_ok s child f n v Hf).
    set (f' := mkEnv (<[n := v]> (ht f)) (parent f)).
    set (s' := with_frames s (<[pred child := f']> (frames s))).
    assert (Hp' : obj_at s' p = Some (O_CONS a d)) by exact Hp.
    assert (Hv' : obj_at s' args = Some (O_CONS v dargs)) by exact Hv.
    step (get_cdr_ok _ _ _ _ Hp'). step (field_cdr_ok _ _ _ _ Hv').
    rewrite (IH He s' child names' dargs vals' f' k);
      [|exact Hheap|exact HNil|exact Hnames'|exact Hargs'|simpl in Hlen; lia
       |eapply frame_at_insert; exact Hf|simpl in Hfuel; lia].
    cbn [length Nat.eqb].
    destruct (length l =? S (length vals'))%nat; [|reflexivity].
    unfold s'. unfold with_frames at 1. cbn [heap frames stdin stdout with_frames].
    rewrite list_insert_insert_eq. reflexivity.
Qed.

Lemma set_parent_new s env :
  set_parent (S (length (frames s))) env (with_frames s (frames s ++ [mkEnv ∅ ENULL]))
  = Ok tt (with_frames s (frames s ++ [mkEnv ∅ env])).
Proof.
  unfold set_parent, env_get, env_put, bind, frame_at. cbn [frames with_frames].
  rewrite lookup_app_r by lia. rewrite Nat.sub_diag. cbn.
  rewrite lookup_app_r by lia. rewrite Nat.sub_diag. cbn.
  unfold with_frames. cbn. f_equal. f_equal.
  rewrite insert_app_r_alt by lia. now rewrite Nat.sub_diag.
Qed.

(** X14.  A closure applied to fewer arguments than it has parameters:
    no arity error is raised.  The arguments are evaluated; when
    exactly one argument is missing, the last parameter is bound to
    the null pointer and the body is evaluated in the new frame; when
    more are missing, the call ends in a read through the null
    pointer. *)
Theorem apply_too_few_arguments fuel ev env o args s params body r s1 ps e names vals :
  obj_at s o = Some (O_FUNCTION params body) ->
  eval_args fuel ev env args s = Ok r s1 ->
  obj_at s1 o = Some (O_FUNCTION params body) ->
  obj_at s1 Nil = Some O_NIL ->
  cells s1 params ps e -> not_pair s1 e -> Forall2 (symbol_named s1) ps names ->
  cells s1 r vals Nil ->
  (length vals < length ps)%nat -> (length ps < fuel)%nat ->
  apply fuel ev env o args s
  = if (length ps =? S (length vals))%nat
    then progn fuel ev (S (length (frames s1))) body
           (with_frames s1
              (frames s1 ++ [mkEnv (bind_list names (vals ++ [NULL]) ∅) env]))
    else Crash.
Proof.
  intros Ho Hargs Ho1 HNil Hparams He Hnames Hvals Hlen Hfuel.
  unfold apply. step (deref_ok _ _ _ Ho). step Hargs.
  unfold env_create at 1. unfold bind at 1.
  step (set_parent_new s1 env).
  set (s3 := with_frames s1 (frames s1 ++ [mkEnv ∅ env])).
  assert (Hf : frame_at s3 (S (length (frames s1))) = Some (mkEnv ∅ env)).
  { simpl. rewrite lookup_app_r by lia. now rewrite Nat.sub_diag. }
  unfold bind at 1.
  rewrite (bind_params_short s1 params ps e Hparams He s3 _ names r vals _ fuel
             eq_refl HNil Hnames Hvals Hlen Hf Hfuel).
  destruct (length ps =? S (length vals))%nat; [|reflexivity].
  set (s4 := with_frames s3 _).
  assert (Ho4 : obj_at s4 o = Some (O_FUNCTION params body)) by exact Ho1.
  step (get_body_ok _ _ _ _ Ho4).
  f_equal. unfold s4, s3, with_frames. cbn [heap frames stdin stdout pred ht parent].
  f_equal. rewrite insert_app_r_alt by lia. now rewrite Nat.sub_diag.
Qed.

(** The call [((lambda (x y) x) 1)], after its operator has been
    evaluated to the closure at address 36: the argument list is the
    cell at address 35. *)
Definition s_few : State :=
  state_of (eval 10 1%nat 25%nat (state_of (load 30 1 "((lambda (x y) x) 1)"))).

(** The call [((lambda (x y z) x) 1)], likewise. *)
Definition s_fewer : State :=
  state_of (eval 10 1%nat 25%nat (state_of (load 30 1 "((lambda (x y z) x) 1)"))).

Ltac prove_cells :=
  repeat first [ apply cells_end
               | eapply cells_step; [vm_compute; reflexivity|] ].

(** In [s_few] one argument is missing: [y] is bound to the null
    pointer and the body [x] is evaluated.  In [s_fewer], where the
    closure is at address 38 and the argument list at address 37, two
    are missing. *)
Lemma apply_too_few_arguments_witness :
  apply 10 (eval 10) 1%nat 36%nat 35%nat s_few
  = progn 10 (eval 10)
      (S (length (frames (state_of (eval_args 10 (eval 10) 1%nat 35%nat s_few))))) 32%nat
      (with_frames (state_of (eval_args 10 (eval 10) 1%nat 35%nat s_few))
         (frames (state_of (eval_args 10 (eval 10) 1%nat 35%nat s_few))
          ++ [mkEnv (bind_list ["x"; "y"] ([34%nat] ++ [NULL]) ∅) 1%nat]))
  /\ apply 10 (eval 10) 1%nat 38%nat 37%nat s_fewer = Crash.
Proof.
  split.
  - etransitivity.
    + eapply (apply_too_few_arguments 10 (eval 10) 1%nat 36%nat 35%nat s_few 27%nat 32%nat
                37%nat (state_of (eval_args 10 (eval 10) 1%nat 35%nat s_few))
                [26; 28]%nat Nil ["x"; "y"] [34%nat]).
      * vm_compute; reflexivity.
      * vm_compute; reflexivity.
      * vm_compute; reflexivity.
      * vm_compute; reflexivity.
      * prove_cells.
      * exists O_NIL. split; [vm_compute; reflexivity|discriminate].
      * repeat constructor.
      * prove_cells.
      * simpl; lia.
      * simpl; lia.
    + reflexivity.
  - etransitivity.
    + eapply (apply_too_few_arguments 10 (eval 10) 1%nat 38%nat 37%nat s_fewer 27%nat 34%nat
                39%nat (state_of (eval_args 10 (eval 10) 1%nat 37%nat s_fewer))
                [26; 28; 30]%nat Nil ["x"; "y"; "z"] [36%nat]).
      * vm_compute; reflexivity.
      * vm_compute; reflexivity.
      * vm_compute; reflexivity.
      * vm_compute; reflexivity.
      * prove_cells.
      * exists O_NIL. split; [vm_compute; reflexivity|discriminate].
      * repeat constructor.
      * prove_cells.
      * simpl; lia.
      * simpl; lia.
    + reflexivity.
Defined.

(** With one argument missing the call returns: here the value of [x],
    the integer 1. *)
Example apply_one_argument_missing :
  observe (run 30 1 "((lambda (x y) x) 1)") = Returned (Some (O_INT 1)) "".
Proof. vm_compute. reflexivity. Qed.

(** ** and, or with arguments *)

Lemma and_trace ev env args s vals rest s1 :
  seq_trace ev env args s vals rest s1 ->
  Forall (fun v => v <> Nil) vals ->
  forall fuel, (length vals < fuel)%nat ->
  (rest = Nil -> primitive_and fuel ev env args s = Ok True' s1)
  /\ (forall a s2,
        rest <> Nil -> get_car rest s1 = Ok a s1 -> ev env a s1 = Ok Nil s2 ->
        primitive_and fuel ev env args s = Ok Nil s2).
Proof.
  induction 1 as [args s|args a s v s1 d vals rest s2 Hne Hcar Hev Hcdr Htrace IH];
    intros Hvals fuel Hfuel; (destruct fuel as [|k]; [simpl in Hfuel; lia|]).
  - split.
    + intros ->. reflexivity.
    + intros a s2 Hne Hcar Hev. apply Nat.eqb_neq in Hne.
      simpl. rewrite Hne. step Hcar. step Hev. reflexivity.
  - apply Forall_cons in Hvals as [Hv Hvals].
    apply Nat.eqb_neq in Hne, Hv.
    assert (Hstep : primitive_and (S k) ev env args s = primitive_and k ev env d s1).
    { simpl. rewrite Hne. step Hcar. step Hev. rewrite Hv. step Hcdr. reflexivity. }
    rewrite Hstep. apply IH; [assumption|simpl in Hfuel; lia].
Qed.

Lemma or_trace ev env args s vals rest s1 :
  seq_trace ev env args s vals rest s1 ->
  Forall (fun v => v = Nil) vals ->
  forall fuel, (length vals < fuel)%nat ->
  (rest = Nil -> primitive_or fuel ev env args s = Ok Nil s1)
  /\ (forall a v s2,
        rest <> Nil -> get_car rest s1 = Ok a s1 -> ev env a s1 = Ok v s2 ->
        v <> Nil -> primitive_or fuel ev env args s = Ok True' s2).
Proof.
  induction 1 as [args s|args a s v s1 d vals rest s2 Hne Hcar Hev Hcdr Htrace IH];
    intros Hvals fuel Hfuel; (destruct fuel as [|k]; [simpl in Hfuel; lia|]).
  - split.
    + intros ->. reflexivity.
    + intros a v s2 Hne Hcar Hev Hv. apply Nat.eqb_neq in Hne, Hv.
      simpl. rewrite Hne. step Hcar. step Hev. rewrite Hv. reflexivity.
  - apply Forall_cons in Hvals as [-> Hvals].
    apply Nat.eqb_neq in Hne.
    assert (Hstep : primitive_or (S k) ev env args s = primitive_or k ev env d s1).
    { simpl. rewrite Hne. step Hcar. step Hev. rewrite Nat.eqb_refl. cbn [negb].
      step Hcdr. reflexivity. }
    rewrite Hstep. apply IH; [assumption|simpl in Hfuel; lia].
Qed.

(** X15.  [and] evaluates its arguments in order, each in the state the
    one before has left, as long as their values are not [Nil]
    ([seq_trace]): when the list ends so, it returns [True]; at the
    first argument whose value is [Nil] it returns [Nil], in the state
    this evaluation has left, and nothing that follows in the argument
    list is looked at.  [or] does the same as long as the values are
    [Nil]: when the list ends so, it returns [Nil]; at the first
    argument whose value is not [Nil] it returns [True], not the value
    found. *)
Theorem and_or_short_circuit :
  (forall fuel ev env args s vals rest s1,
      seq_trace ev env args s vals rest s1 ->
      Forall (fun v => v <> Nil) vals ->
      (length vals < fuel)%nat ->
      (rest = Nil -> primitive_and fuel ev env args s = Ok True' s1)
      /\ (forall a s2,
            rest <> Nil -> get_car rest s1 = Ok a s1 -> ev env a s1 = Ok Nil s2 ->
            primitive_and fuel ev env args s = Ok Nil s2))
  /\ (forall fuel ev env args s vals rest s1,
      seq_trace ev env args s vals rest s1 ->
      Forall (fun v => v = Nil) vals ->
      (length vals < fuel)%nat ->
      (rest = Nil -> primitive_or fuel ev env args s = Ok Nil s1)
      /\ (forall a v s2,
            rest <> Nil -> get_car rest s1 = Ok a s1 -> ev env a s1 = Ok v s2 ->
            v <> Nil -> primitive_or fuel ev env args s = Ok True' s2)).
Proof.
  split; intros fuel ev env args s vals rest s1 Htrace Hvals Hfuel.
  - now apply (and_trace ev env args s vals rest s1).
  - now apply (or_trace ev env args s vals rest s1).
Qed.

Definition s_or : State := state_of (load 20 1 "(or 7 undefined)").

(** Four argument lists in one text. *)
Definition s_junction : State :=
  state_of (load 60 1 "((and 1 2) (and 1 Nil undefined) (or Nil Nil) (or Nil 7 undefined))").

(** The argument lists of [(and 1 2)], [(and 1 Nil undefined)],
    [(or Nil Nil)] and [(or Nil 7 undefined)] are the cells at the
    addresses 27, 34, 43 and 50.  Integers and the symbol [Nil]
    evaluate without a change of state; the symbol [undefined], which
    is not bound, is never evaluated. *)
Lemma and_or_short_circuit_witness :
  primitive_and 5 (eval 5) 1%nat 27%nat s_junction = Ok True' s_junction
  /\ primitive_and 5 (eval 5) 1%nat 34%nat s_junction = Ok Nil s_junction
  /\ primitive_or 5 (eval 5) 1%nat 43%nat s_junction = Ok Nil s_junction
  /\ primitive_or 5 (eval 5) 1%nat 50%nat s_junction = Ok True' s_junction.
Proof.
  destruct and_or_short_circuit as [Hand Hor].
  split; [|split; [|split]].
  - apply (Hand 5%nat (eval 5) 1%nat 27%nat s_junction [26; 28]%nat Nil s_junction);
      [ |repeat (constructor; [unfold Nil; lia|]); constructor|simpl; lia|reflexivity].
    apply (seq_trace_step (eval 5) 1%nat 27%nat 26%nat s_junction 26%nat s_junction
             29%nat [28%nat] Nil s_junction);
      [unfold Nil; lia|vm_compute; reflexivity|vm_compute; reflexivity
      |vm_compute; reflexivity|].
    apply (seq_trace_step (eval 5) 1%nat 29%nat 28%nat s_junction 28%nat s_junction
             Nil [] Nil s_junction);
      [unfold Nil; lia|vm_compute; reflexivity|vm_compute; reflexivity
      |vm_compute; reflexivity|].
    apply seq_trace_stop.
  - apply (proj2 (Hand 5%nat (eval 5) 1%nat 34%nat s_junction [33%nat] 36%nat s_junction
                    ltac:(apply (seq_trace_step (eval 5) 1%nat 34%nat 33%nat s_junction
                                   33%nat s_junction 36%nat [] 36%nat s_junction);
                          [unfold Nil; lia|vm_compute; reflexivity|vm_compute; reflexivity
                          |vm_compute; reflexivity|apply seq_trace_stop])
                    ltac:(repeat (constructor; [unfold Nil; lia|]); constructor)
                    ltac:(simpl; lia))
             35%nat s_junction);
      [unfold Nil; lia|vm_compute; reflexivity|vm_compute; reflexivity].
  - apply (Hor 5%nat (eval 5) 1%nat 43%nat s_junction [Nil; Nil] Nil s_junction);
      [ |repeat constructor|simpl; lia|reflexivity].
    apply (seq_trace_step (eval 5) 1%nat 43%nat 42%nat s_junction Nil s_junction
             45%nat [Nil] Nil s_junction);
      [unfold Nil; lia|vm_compute; reflexivity|vm_compute; reflexivity
      |vm_compute; reflexivity|].
    apply (seq_trace_step (eval 5) 1%nat 45%nat 44%nat s_junction Nil s_junction
             Nil [] Nil s_junction);
      [unfold Nil; lia|vm_compute; reflexivity|vm_compute; reflexivity
      |vm_compute; reflexivity|].
    apply seq_trace_stop.
  - apply (proj2 (Hor 5%nat (eval 5) 1%nat 50%nat s_junction [Nil] 52%nat s_junction
                    ltac:(apply (seq_trace_step (eval 5) 1%nat 50%nat 49%nat s_junction
                                   Nil s_junction 52%nat [] 52%nat s_junction);
                          [unfold Nil; lia|vm_compute; reflexivity|vm_compute; reflexivity
                          |vm_compute; reflexivity|apply seq_trace_stop])
                    ltac:(repeat constructor)
                    ltac:(simpl; lia))
             51%nat 51%nat s_junction);
      [unfold Nil; lia|vm_compute; reflexivity|vm_compute; reflexivity|unfold Nil; lia].
Defined.

(** ** Results of the predicates *)

Definition is_predicate (fn : Primitive) : bool :=
  match fn with
  | P_and | P_or | P_eq | P_gt | P_lt | P_obj_eq => true
  | _ => false
  end.

Lemma primitive_and_atom fuel ev env : forall args s r s',
  primitive_and fuel ev env args s = Ok r s' -> r = True' \/ r = Nil.
Proof.
  induction fuel as [|n IH]; intros args s r s' H; [discriminate|].
  simpl in H. destruct (args =? Nil)%nat; [injection H as <- _; now left|].
  apply bind_inv in H as (a & s1 & _ & H). apply bind_inv in H as (v & s2 & _ & H).
  destruct (v =? Nil)%nat; [injection H as <- _; now right|].
  apply bind_inv in H as (d & s3 & _ & H). eauto.
Qed.

Lemma primitive_or_atom fuel ev env : forall args s r s',
  primitive_or fuel ev env args s = Ok r s' -> r = True' \/ r = Nil.
Proof.
  induction fuel as [|n IH]; intros args s r s' H; [discriminate|].
  simpl in H. destruct (args =? Nil)%nat; [injection H as <- _; now right|].
  apply bind_inv in H as (a & s1 & _ & H). apply bind_inv in H as (v & s2 & _ & H).
  destruct (negb (v =? Nil)%nat); [injection H as <- _; now left|].
  apply bind_inv in H as (d & s3 & _ & H). eauto.
Qed.

Lemma compare_ints_atom msg1 msg2 cmp fuel ev env args s r s' :
  compare_ints msg1 msg2 cmp fuel ev env args s = Ok r s' -> r = True' \/ r = Nil.
Proof.
  unfold compare_ints. intros H.
  apply bind_inv in H as (cnt & s1 & _ & H). destruct (negb _); [discriminate|].
  apply bind_inv in H as (l & s2 & _ & H).
  apply bind_inv in H as (a & s3 & _ & H).
  apply bind_inv in H as (ta & s4 & _ & H). destruct (negb _); [discriminate|].
  apply bind_inv in H as (d & s5 & _ & H).
  apply bind_inv in H as (b & s6 & _ & H).
  apply bind_inv in H as (tb & s7 & _ & H). destruct (negb _); [discriminate|].
  apply bind_inv in H as (x & s8 & _ & H).
  apply bind_inv in H as (y & s9 & _ & H).
  injection H as <- _. destruct (cmp x y); auto.
Qed.

(** X16.  [and], [or], [=], [>], [<] and [eq] return nothing but the two
    atoms [True] and [Nil], whatever the arguments evaluate to. *)
Theorem predicates_return_atoms fn fuel ev env args s r s' :
  is_predicate fn = true ->
  call_primitive fn fuel ev env args s = Ok r s' ->
  r = True' \/ r = Nil.
Proof.
  intros Hfn H. destruct fn; try discriminate; simpl in H.
  - eapply primitive_and_atom; eauto.
  - eapply compare_ints_atom; eauto.
  - eapply compare_ints_atom; eauto.
  - eapply compare_ints_atom; eauto.
  - unfold primitive_obj_eq in H.
    apply bind_inv in H as (cnt & s1 & _ & H). destruct (negb _); [discriminate|].
    apply bind_inv in H as (l & s2 & _ & H).
    apply bind_inv in H as (a & s3 & _ & H).
    apply bind_inv in H as (d & s4 & _ & H).
    apply bind_inv in H as (b & s5 & _ & H).
    injection H as <- _. destruct (a =? b)%nat; auto.
  - eapply primitive_or_atom; eauto.
Qed.

Lemma predicates_return_atoms_witness :
  value_of (call_primitive P_or 3 (eval 3) 1%nat 27%nat s_or) = True'
  \/ value_of (call_primitive P_or 3 (eval 3) 1%nat 27%nat s_or) = Nil.
Proof.
  apply (predicates_return_atoms P_or 3 (eval 3) 1%nat 27%nat s_or _
           (state_of (call_primitive P_or 3 (eval 3) 1%nat 27%nat s_or)));
    vm_compute; reflexivity.
Defined.


(** ** Arity checks *)

Lemma count_list s args l fuel :
  obj_at s Nil = Some O_NIL -> cells s args l Nil -> (length l < fuel)%nat ->
  count fuel args s = Ok (Z.of_nat (length l)) s.
Proof. intros HNil Hcells Hfuel. now apply count_cells. Qed.

(** X17.  The primitives that count their arguments first reject a wrong
    number of them before anything is evaluated: the error does not
    depend on the evaluator, and [ev] is never called. *)
Theorem arity_errors fuel ev env args s l :
  obj_at s Nil = Some O_NIL -> cells s args l Nil -> (length l < fuel)%nat ->
  (length l <> 2%nat ->
   primitive_cons fuel ev env args s = Error "cons accepts two arguments only"
   /\ primitive_define fuel ev env args s
      = Error "define accepts two arguments only, with first one being a symbol"
   /\ primitive_eq fuel ev env args s = Error "= accepts two arguments only"
   /\ primitive_gt fuel ev env args s = Error "> accepts two arguments only"
   /\ primitive_lt fuel ev env args s = Error "< accepts two arguments only"
   /\ primitive_obj_eq fuel ev env args s = Error "eq accepts two arguments only")
  /\ (length l <> 1%nat ->
      primitive_println fuel ev env args s = Error "println takes one argument only"
      /\ primitive_quote fuel ev env args s = Error "quote accepts one argument only")
  /\ ((length l < 2)%nat ->
      primitive_multi fuel ev env args s = Error "* accepts at least two arguments"
      /\ primitive_while fuel ev env args s = Error "while needs at least two arguments")
  /\ (length l <> 2%nat -> length l <> 3%nat ->
      primitive_if fuel ev env args s = Error "if needs two or three arguments").
Proof.
  intros HNil Hcells Hfuel.
  pose proof (count_list s args l fuel HNil Hcells Hfuel) as Hcount.
  split; [|split; [|split]].
  - intros Hne.
    assert (E : negb (Z.of_nat (length l) =? 2) = true)
      by (apply negb_true_iff, Z.eqb_neq; lia).
    unfold primitive_cons, primitive_define, primitive_eq, primitive_gt, primitive_lt,
      primitive_obj_eq, compare_ints.
    repeat split; step Hcount; now rewrite E.
  - intros Hne.
    assert (E : negb (Z.of_nat (length l) =? 1) = true)
      by (apply negb_true_iff, Z.eqb_neq; lia).
    unfold primitive_println, primitive_quote.
    split; step Hcount; now rewrite E.
  - intros Hlt.
    assert (E : (Z.of_nat (length l) <? 2) = true) by (apply Z.ltb_lt; lia).
    unfold primitive_multi, primitive_while.
    split; step Hcount; now rewrite E.
  - intros H2 H3.
    assert (E : negb (Z.of_nat (length l) =? 2) && negb (Z.of_nat (length l) =? 3) = true).
    { apply andb_true_iff. split; apply negb_true_iff, Z.eqb_neq; lia. }
    unfold primitive_if. step Hcount. now rewrite E.
Qed.

(** On the one-element argument list of [s_or] at address 29. *)
Lemma arity_errors_witness :
  (length [28%nat] <> 2%nat ->
   primitive_cons 3 (eval 3) 1%nat 29%nat s_or = Error "cons accepts two arguments only"
   /\ primitive_define 3 (eval 3) 1%nat 29%nat s_or
      = Error "define accepts two arguments only, with first one being a symbol"
   /\ primitive_eq 3 (eval 3) 1%nat 29%nat s_or = Error "= accepts two arguments only"
   /\ primitive_gt 3 (eval 3) 1%nat 29%nat s_or = Error "> accepts two arguments only"
   /\ primitive_lt 3 (eval 3) 1%nat 29%nat s_or = Error "< accepts two arguments only"
   /\ primitive_obj_eq 3 (eval 3) 1%nat 29%nat s_or = Error "eq accepts two arguments only")
  /\ (length [28%nat] <> 1%nat ->
      primitive_println 3 (eval 3) 1%nat 29%nat s_or = Error "println takes one argument only"
      /\ primitive_quote 3 (eval 3) 1%nat 29%nat s_or = Error "quote accepts one argument only")
  /\ ((length [28%nat] < 2)%nat ->
      primitive_multi 3 (eval 3) 1%nat 29%nat s_or = Error "* accepts at least two arguments"
      /\ primitive_while 3 (eval 3) 1%nat 29%nat s_or
         = Error "while needs at least two arguments")
  /\ (length [28%nat] <> 2%nat -> length [28%nat] <> 3%nat ->
      primitive_if 3 (eval 3) 1%nat 29%nat s_or = Error "if needs two or three arguments").
Proof.
  apply (arity_errors 3 (eval 3) 1%nat 29%nat s_or [28%nat]).
  - vm_compute; reflexivity.
  - prove_cells.
  - simpl; lia.
Defined.

(** ** Integer comparison *)

(** X18.  Applied to two arguments whose values are integers, [=], [>] and
    [<] compare the two numbers and return [True] or [Nil]; the state
    is the one the evaluation of the arguments ends in. *)
Theorem comparison_of_integers fuel ev env args a b s r s1 va vb x y :
  obj_at s Nil = Some O_NIL -> cells s args [a; b] Nil ->
  eval_args fuel ev env args s = Ok r s1 ->
  cells s1 r [va; vb] Nil ->
  obj_at s1 va = Some (O_INT x) -> obj_at s1 vb = Some (O_INT y) ->
  (2 < fuel)%nat ->
  primitive_eq fuel ev env args s = Ok (if x =? y then True' else Nil) s1
  /\ primitive_gt fuel ev env args s = Ok (if x >? y then True' else Nil) s1
  /\ primitive_lt fuel ev env args s = Ok (if x <? y then True' else Nil) s1.
Proof.
  intros HNil Hcells Hargs Hr Hva Hvb Hfuel.
  pose proof (count_list s args [a; b] fuel HNil Hcells Hfuel) as Hcount.
  inversion Hr as [|? ? d ? ? Hr1 Hr']; subst.
  inversion Hr' as [|? ? d' ? ? Hr2 Hr'']; subst.
  inversion Hr''; subst.
  assert (Hcmp : forall msg1 msg2 cmp,
             compare_ints msg1 msg2 cmp fuel ev env args s
             = Ok (if cmp x y then True' else Nil) s1).
  { intros msg1 msg2 cmp. unfold compare_ints. step Hcount.
    change (negb (Z.of_nat (length [a; b]) =? 2)) with false. cbv iota.
    step Hargs. step (get_car_ok _ _ _ _ Hr1). step (get_type_ok _ _ _ Hva).
    cbn [type_of ObjectType_eqb negb].
    step (get_cdr_ok _ _ _ _ Hr1). step (get_car_ok _ _ _ _ Hr2).
    step (get_type_ok _ _ _ Hvb). cbn [type_of ObjectType_eqb negb].
    step (get_value_ok _ _ _ Hva). step (get_value_ok _ _ _ Hvb). reflexivity. }
  repeat split; apply Hcmp.
Qed.


Definition s_cmp : State := state_of (load 30 1 "(< 3 (+ 2 2))").

(** The argument list of [(< 3 (+ 2 2))] is the cell at address 27;
    the list of values is built at address 35 and holds the integer
    3 at address 26 and the new integer 4 at address 38. *)
Lemma comparison_of_integers_witness :
  primitive_eq 10 (eval 10) 1%nat 27%nat s_cmp
  = Ok (if 3 =? 4 then True' else Nil) (state_of (eval_args 10 (eval 10) 1%nat 27%nat s_cmp))
  /\ primitive_gt 10 (eval 10) 1%nat 27%nat s_cmp
     = Ok (if 3 >? 4 then True' else Nil) (state_of (eval_args 10 (eval 10) 1%nat 27%nat s_cmp))
  /\ primitive_lt 10 (eval 10) 1%nat 27%nat s_cmp
     = Ok (if 3 <? 4 then True' else Nil) (state_of (eval_args 10 (eval 10) 1%nat 27%nat s_cmp)).
Proof.
  apply (comparison_of_integers 10 (eval 10) 1%nat 27%nat 26%nat 29%nat s_cmp 35%nat
           (state_of (eval_args 10 (eval 10) 1%nat 27%nat s_cmp)) 26%nat 38%nat 3 4).
  - vm_compute; reflexivity.
  - prove_cells.
  - vm_compute; reflexivity.
  - prove_cells.
  - vm_compute; reflexivity.
  - vm_compute; reflexivity.
  - lia.
Defined.

(** ** Arithmetic *)

(** [wrap] depends on the residue modulo 2^32 only. *)
Lemma wrap_mod a : wrap a mod 4294967296 = a mod 4294967296.
Proof.
  unfold wrap. rewrite Zminus_mod_idemp_l. f_equal. lia.
Qed.

Lemma wrap_congr a b : a mod 4294967296 = b mod 4294967296 -> wrap a = wrap b.
Proof.
  intros H. unfold wrap. f_equal.
  rewrite (Z.add_mod a), (Z.add_mod b), H by lia. reflexivity.
Qed.

Lemma wrap_add_l a b : wrap (wrap a + b) = wrap (a + b).
Proof.
  apply wrap_congr. rewrite (Z.add_mod (wrap a)), wrap_mod by lia.
  now rewrite <- Z.add_mod by lia.
Qed.

Lemma wrap_sub_l a b : wrap (wrap a - b) = wrap (a - b).
Proof.
  apply wrap_congr. rewrite (Zminus_mod (wrap a)), wrap_mod.
  now rewrite <- Zminus_mod.
Qed.

Lemma wrap_mul_l a b : wrap (wrap a * b) = wrap (a * b).
Proof.
  apply wrap_congr. rewrite (Z.mul_mod (wrap a)), wrap_mod by lia.
  now rewrite <- Z.mul_mod by lia.
Qed.

(** The pointers [ps] designate integers with the values [zs]. *)
Definition ints (s : State) (ps : list ptr) (zs : list Z) : Prop :=
  Forall2 (fun p z => obj_at s p = Some (O_INT z)) ps zs.

Definition sum_of (zs : list Z) : Z := fold_right Z.add 0 zs.
Definition product_of (zs : list Z) : Z := fold_right Z.mul 1 zs.

Lemma plus_loop_S n args sum :
  plus_loop (S n) args sum =
  if (args =? Nil)%nat then ret sum
  else
    let* a := get_car args in
    let* t := get_type a in
    if negb (ObjectType_eqb t OT_INT) then err "+ accepts only integers"
    else
      let* v := get_value a in
      let* d := get_cdr args in
      plus_loop n d (wrap (sum + v)).
Proof. reflexivity. Qed.

Lemma multi_loop_S n args total first :
  multi_loop (S n) args total first =
  if (args =? Nil)%nat then ret total
  else
    let* a := get_car args in
    let* t := get_type a in
    if negb (ObjectType_eqb t OT_INT) then err "* accepts only integers"
    else
      let* v := get_value a in
      let* d := get_cdr args in
      if first then multi_loop n d (Some v) false
      else
        match total with
        | Some x => multi_loop n d (Some (wrap (x * v))) false
        | None => crash
        end.
Proof. reflexivity. Qed.

Lemma plus_loop_sum s args ps :
  obj_at s Nil = Some O_NIL -> cells s args ps Nil ->
  forall zs acc fuel, ints s ps zs -> (length ps < fuel)%nat ->
    plus_loop fuel args acc s
    = Ok (match zs with [] => acc | _ => wrap (acc + sum_of zs) end) s.
Proof.
  intros HNil Hcells. remember Nil as e eqn:He.
  induction Hcells as [p|p a d l e Hp Hcells IH]; intros zs acc fuel Hints Hfuel;
    (destruct fuel as [|n]; [simpl in Hfuel; lia|]); rewrite plus_loop_S; subst.
  - inversion Hints; subst. reflexivity.
  - rewrite (pair_not_Nil _ _ _ _ HNil Hp).
    inversion Hints as [|? z ? zs' Hz Hints']; subst.
    step (get_car_ok _ _ _ _ Hp). step (get_type_ok _ _ _ Hz).
    cbn [type_of ObjectType_eqb negb].
    step (get_value_ok _ _ _ Hz). step (get_cdr_ok _ _ _ _ Hp).
    rewrite (IH eq_refl HNil zs' (wrap (acc + z)) n Hints' ltac:(simpl in Hfuel; lia)).
    do 2 f_equal. destruct zs' as [|z' zs'].
    + simpl. f_equal. lia.
    + rewrite wrap_add_l. f_equal. simpl. lia.
Qed.

(** X19.  [+] returns a new integer: the sum of the values of its
    arguments, reduced to 32 bits; without arguments it is 0. *)
Theorem plus_is_sum fuel ev env args s r s1 ps zs :
  eval_args fuel ev env args s = Ok r s1 ->
  obj_at s1 Nil = Some O_NIL -> cells s1 r ps Nil -> ints s1 ps zs ->
  (length ps < fuel)%nat ->
  primitive_plus fuel ev env args s
  = Ok (S (length (heap s1))) (with_heap s1 (heap s1 ++ [O_INT (wrap (sum_of zs))])).
Proof.
  intros Hargs HNil Hcells Hints Hfuel. unfold primitive_plus. step Hargs.
  step (plus_loop_sum s1 r ps HNil Hcells zs 0 fuel Hints Hfuel).
  destruct zs; reflexivity.
Qed.

Lemma minus_loop_S' n args diff first :
  minus_loop (S n) args diff first =
  if (args =? Nil)%nat then ret diff
  else
    let* a := get_car args in
    let* t := get_type a in
    if negb (ObjectType_eqb t OT_INT) then err "+ accepts only integers"
    else
      let* v := get_value a in
      let* d := get_cdr args in
      if first then
        if (d =? Nil)%nat then ret (Some (wrap (- v)))
        else minus_loop n d (Some v) false
      else
        match diff with
        | Some x => minus_loop n d (Some (wrap (x - v))) false
        | None => crash
        end.
Proof. reflexivity. Qed.

Lemma minus_loop_rest s args ps :
  obj_at s Nil = Some O_NIL -> cells s args ps Nil ->
  forall zs x fuel, ints s ps zs -> (length ps < fuel)%nat ->
    minus_loop fuel args (Some x) false s
    = Ok (Some (match zs with [] => x | _ => wrap (x - sum_of zs) end)) s.
Proof.
  intros HNil Hcells. remember Nil as e eqn:He.
  induction Hcells as [p|p a d l e Hp Hcells IH]; intros zs x fuel Hints Hfuel;
    (destruct fuel as [|n]; [simpl in Hfuel; lia|]); rewrite minus_loop_S'; subst.
  - inversion Hints; subst. reflexivity.
  - rewrite (pair_not_Nil _ _ _ _ HNil Hp).
    inversion Hints as [|? z ? zs' Hz Hints']; subst.
    step (get_car_ok _ _ _ _ Hp). step (get_type_ok _ _ _ Hz).
    cbn [type_of ObjectType_eqb negb].
    step (get_value_ok _ _ _ Hz). step (get_cdr_ok _ _ _ _ Hp).
    rewrite (IH eq_refl HNil zs' (wrap (x - z)) n Hints' ltac:(simpl in Hfuel; lia)).
    do 2 f_equal. destruct zs' as [|z' zs'].
    + simpl. f_equal. lia.
    + rewrite wrap_sub_l. f_equal. simpl. lia.
Qed.

Lemma minus_loop_first s args ps zs fuel :
  obj_at s Nil = Some O_NIL -> cells s args ps Nil -> ints s ps zs ->
  (length ps < fuel)%nat ->
  minus_loop fuel args None true s
  = Ok (match zs with
        | [] => None
        | [z] => Some (wrap (- z))
        | z :: rest => Some (wrap (z - sum_of rest))
        end) s.
Proof.
  intros HNil Hcells Hints Hfuel.
  destruct fuel as [|n]; [lia|]. rewrite minus_loop_S'.
  inversion Hcells as [|? a d l ? Hp Hcells']; subst.
  - inversion Hints; subst. reflexivity.
  - rewrite (pair_not_Nil _ _ _ _ HNil Hp).
    inversion Hints as [|? z ? zs' Hz Hints']; subst.
    step (get_car_ok _ _ _ _ Hp). step (get_type_ok _ _ _ Hz).
    cbn [type_of ObjectType_eqb negb].
    step (get_value_ok _ _ _ Hz). step (get_cdr_ok _ _ _ _ Hp).
    inversion Hcells' as [|? a' d' l' ? Hd Hcells'']; subst.
    + inversion Hints'; subst. reflexivity.
    + rewrite (pair_not_Nil _ _ _ _ HNil Hd).
      rewrite (minus_loop_rest s d (a' :: l') HNil Hcells' zs' z n Hints'
                 ltac:(simpl in *; lia)).
      inversion Hints'; subst. reflexivity.
Qed.

(** X20.  [-] with one argument negates it; with more it subtracts the
    others from the first; the result is a new integer, reduced to 32
    bits.  With no argument at all the result is read from a variable
    that was never set. *)
Theorem minus_is_difference fuel ev env args s r s1 ps zs :
  eval_args fuel ev env args s = Ok r s1 ->
  obj_at s1 Nil = Some O_NIL -> cells s1 r ps Nil -> ints s1 ps zs ->
  (length ps < fuel)%nat ->
  primitive_minus fuel ev env args s
  = match zs with
    | [] => Crash
    | [z] => Ok (S (length (heap s1))) (with_heap s1 (heap s1 ++ [O_INT (wrap (- z))]))
    | z :: rest =>
        Ok (S (length (heap s1))) (with_heap s1 (heap s1 ++ [O_INT (wrap (z - sum_of rest))]))
    end.
Proof.
  intros Hargs HNil Hcells Hints Hfuel. unfold primitive_minus. step Hargs.
  step (minus_loop_first s1 r ps zs fuel HNil Hcells Hints Hfuel).
  destruct zs as [|z [|z' zs]]; reflexivity.
Qed.

Lemma multi_loop_rest s args ps :
  obj_at s Nil = Some O_NIL -> cells s args ps Nil ->
  forall zs x fuel, ints s ps zs -> (length ps < fuel)%nat ->
    multi_loop fuel args (Some x) false s
    = Ok (Some (match zs with [] => x | _ => wrap (x * product_of zs) end)) s.
Proof.
  intros HNil Hcells. remember Nil as e eqn:He.
  induction Hcells as [p|p a d l e Hp Hcells IH]; intros zs x fuel Hints Hfuel;
    (destruct fuel as [|n]; [simpl in Hfuel; lia|]); rewrite multi_loop_S; subst.
  - inversion Hints; subst. reflexivity.
  - rewrite (pair_not_Nil _ _ _ _ HNil Hp).
    inversion Hints as [|? z ? zs' Hz Hints']; subst.
    step (get_car_ok _ _ _ _ Hp). step (get_type_ok _ _ _ Hz).
    cbn [type_of ObjectType_eqb negb].
    step (get_value_ok _ _ _ Hz). step (get_cdr_ok _ _ _ _ Hp).
    rewrite (IH eq_refl HNil zs' (wrap (x * z)) n Hints' ltac:(simpl in Hfuel; lia)).
    do 2 f_equal. destruct zs' as [|z' zs'].
    + simpl. f_equal. lia.
    + rewrite wrap_mul_l. f_equal. simpl. lia.
Qed.

Lemma multi_loop_first s args ps z1 z2 zs fuel :
  obj_at s Nil = Some O_NIL -> cells s args ps Nil -> ints s ps (z1 :: z2 :: zs) ->
  (length ps < fuel)%nat ->
  multi_loop fuel args None true s = Ok (Some (wrap (product_of (z1 :: z2 :: zs)))) s.
Proof.
  intros HNil Hcells Hints Hfuel.
  destruct fuel as [|n]; [lia|]. rewrite multi_loop_S.
  inversion Hints as [|p ? ps' ? Hz Hints']; subst.
  inversion Hcells as [|? ? d ? ? Hp Hcells']; subst.
  rewrite (pair_not_Nil _ _ _ _ HNil Hp).
  step (get_car_ok _ _ _ _ Hp). step (get_type_ok _ _ _ Hz).
  cbn [type_of ObjectType_eqb negb].
  step (get_value_ok _ _ _ Hz). step (get_cdr_ok _ _ _ _ Hp).
  now rewrite (multi_loop_rest s d ps' HNil Hcells' (z2 :: zs) z1 n Hints'
                 ltac:(simpl in *; lia)).
Qed.

(** X21.  [*] needs two arguments or more and returns a new integer: the
    product of their values, reduced to 32 bits. *)
Theorem multi_is_product fuel ev env args l s r s1 ps z1 z2 zs :
  obj_at s Nil = Some O_NIL -> cells s args l Nil -> (2 <= length l < fuel)%nat ->
  eval_args fuel ev env args s = Ok r s1 ->
  obj_at s1 Nil = Some O_NIL -> cells s1 r ps Nil -> ints s1 ps (z1 :: z2 :: zs) ->
  (length ps < fuel)%nat ->
  primitive_multi fuel ev env args s
  = Ok (S (length (heap s1)))
       (with_heap s1 (heap s1 ++ [O_INT (wrap (product_of (z1 :: z2 :: zs)))])).
Proof.
  intros HNil Hl Hlen Hargs HNil1 Hcells Hints Hfuel. unfold primitive_multi.
  step (count_list s args l fuel HNil Hl (proj2 Hlen)).
  replace (Z.of_nat (length l) <? 2) with false by (symmetry; apply Z.ltb_ge; lia).
  step Hargs.
  step (multi_loop_first s1 r ps z1 z2 zs fuel HNil1 Hcells Hints Hfuel).
  reflexivity.
Qed.


Definition s_sum : State := state_of (load 30 1 "(+ 1 (- 5) 2147483647)").
Definition s_sub : State := state_of (load 30 1 "(- 10 1 2)").
Definition s_mul : State := state_of (load 30 1 "(* 65536 65536 3)").

Ltac prove_ints := repeat (constructor; [vm_compute; reflexivity|]); constructor.

(** The argument list of [(+ 1 (- 5) 2147483647)] is the cell at
    address 27; the values are listed from address 35. *)
Lemma plus_is_sum_witness :
  primitive_plus 10 (eval 10) 1%nat 27%nat s_sum
  = Ok (S (length (heap (state_of (eval_args 10 (eval 10) 1%nat 27%nat s_sum)))))
       (with_heap (state_of (eval_args 10 (eval 10) 1%nat 27%nat s_sum))
          (heap (state_of (eval_args 10 (eval 10) 1%nat 27%nat s_sum))
           ++ [O_INT (wrap (sum_of [1; -5; 2147483647]))])).
Proof.
  apply (plus_is_sum 10 (eval 10) 1%nat 27%nat s_sum 35%nat
           (state_of (eval_args 10 (eval 10) 1%nat 27%nat s_sum)) [26; 37; 33]%nat).
  - vm_compute; reflexivity.
  - vm_compute; reflexivity.
  - prove_cells.
  - prove_ints.
  - simpl; lia.
Defined.

Lemma minus_is_difference_witness :
  primitive_minus 10 (eval 10) 1%nat 27%nat s_sub
  = Ok (S (length (heap (state_of (eval_args 10 (eval 10) 1%nat 27%nat s_sub)))))
       (with_heap (state_of (eval_args 10 (eval 10) 1%nat 27%nat s_sub))
          (heap (state_of (eval_args 10 (eval 10) 1%nat 27%nat s_sub))
           ++ [O_INT (wrap (10 - sum_of [1; 2]))])).
Proof.
  apply (minus_is_difference 10 (eval 10) 1%nat 27%nat s_sub 32%nat
           (state_of (eval_args 10 (eval 10) 1%nat 27%nat s_sub)) [26; 28; 30]%nat
           [10; 1; 2]).
  - vm_compute; reflexivity.
  - vm_compute; reflexivity.
  - prove_cells.
  - prove_ints.
  - simpl; lia.
Defined.

Lemma multi_is_product_witness :
  primitive_multi 10 (eval 10) 1%nat 27%nat s_mul
  = Ok (S (length (heap (state_of (eval_args 10 (eval 10) 1%nat 27%nat s_mul)))))
       (with_heap (state_of (eval_args 10 (eval 10) 1%nat 27%nat s_mul))
          (heap (state_of (eval_args 10 (eval 10) 1%nat 27%nat s_mul))
           ++ [O_INT (wrap (product_of [65536; 65536; 3]))])).
Proof.
  apply (multi_is_product 10 (eval 10) 1%nat 27%nat [26; 28; 30]%nat s_mul 32%nat
           (state_of (eval_args 10 (eval 10) 1%nat 27%nat s_mul)) [26; 28; 30]%nat).
  - vm_compute; reflexivity.
  - prove_cells.
  - simpl; lia.
  - vm_compute; reflexivity.
  - vm_compute; reflexivity.
  - prove_cells.
  - prove_ints.
  - simpl; lia.
Defined.

(** *** Values that are not integers *)

Definition not_int (s : State) (p : ptr) : Prop :=
  exists o, obj_at s p = Some o /\ type_of o <> OT_INT.

Lemma not_int_type s p :
  not_int s p ->
  exists o, get_type p s = Ok (type_of o) s
            /\ negb (ObjectType_eqb (type_of o) OT_INT) = true.
Proof.
  intros (o & Ho & Hty). exists o. split; [now apply get_type_ok|].
  destruct o; try reflexivity. now elim Hty.
Qed.

Lemma cells_app_inv s ps1 : forall r p ps2 e,
  cells s r (ps1 ++ p :: ps2) e ->
  exists c d, cells s r ps1 c /\ obj_at s c = Some (O_CONS p d) /\ cells s d ps2 e.
Proof.
  induction ps1 as [|a ps1 IH]; intros r p ps2 e H; simpl in H;
    inversion H as [|? ? d ? ? Hr H']; subst.
  - exists r, d. repeat split; [constructor|assumption|assumption].
  - destruct (IH d p ps2 e H') as (c & d' & Hc & Hobj & Hrest).
    exists c, d'. repeat split; [econstructor; eauto|assumption|assumption].
Qed.

Lemma plus_loop_rejects s ps1 : forall r c p d zs acc fuel,
  obj_at s Nil = Some O_NIL ->
  cells s r ps1 c -> obj_at s c = Some (O_CONS p d) -> not_int s p ->
  ints s ps1 zs -> (length ps1 < fuel)%nat ->
  plus_loop fuel r acc s = Error "+ accepts only integers".
Proof.
  induction ps1 as [|a ps1 IH]; intros r c p d zs acc fuel HNil Hcells Hc Hp Hints Hfuel;
    (destruct fuel as [|n]; [simpl in Hfuel; lia|]); rewrite plus_loop_S;
    inversion Hcells as [|? ? d0 ? ? Hr Hcells']; subst.
  - rewrite (pair_not_Nil _ _ _ _ HNil Hc). step (get_car_ok _ _ _ _ Hc).
    destruct (not_int_type s p Hp) as (o & Hty & E). step Hty. now rewrite E.
  - rewrite (pair_not_Nil _ _ _ _ HNil Hr).
    inversion Hints as [|? z ? zs' Hz Hints']; subst.
    step (get_car_ok _ _ _ _ Hr). step (get_type_ok _ _ _ Hz).
    cbn [type_of ObjectType_eqb negb].
    step (get_value_ok _ _ _ Hz). step (get_cdr_ok _ _ _ _ Hr).
    apply (IH d0 c p d zs'); auto. simpl in Hfuel. lia.
Qed.

Lemma minus_loop_rejects s ps1 : forall r c p d zs x fuel,
  obj_at s Nil = Some O_NIL ->
  cells s r ps1 c -> obj_at s c = Some (O_CONS p d) -> not_int s p ->
  ints s ps1 zs -> (length ps1 < fuel)%nat ->
  minus_loop fuel r (Some x) false s = Error "+ accepts only integers".
Proof.
  induction ps1 as [|a ps1 IH]; intros r c p d zs x fuel HNil Hcells Hc Hp Hints Hfuel;
    (destruct fuel as [|n]; [simpl in Hfuel; lia|]); rewrite minus_loop_S';
    inversion Hcells as [|? ? d0 ? ? Hr Hcells']; subst.
  - rewrite (pair_not_Nil _ _ _ _ HNil Hc). step (get_car_ok _ _ _ _ Hc).
    destruct (not_int_type s p Hp) as (o & Hty & E). step Hty. now rewrite E.
  - rewrite (pair_not_Nil _ _ _ _ HNil Hr).
    inversion Hints as [|? z ? zs' Hz Hints']; subst.
    step (get_car_ok _ _ _ _ Hr). step (get_type_ok _ _ _ Hz).
    cbn [type_of ObjectType_eqb negb].
    step (get_value_ok _ _ _ Hz). step (get_cdr_ok _ _ _ _ Hr).
    apply (IH d0 c p d zs'); auto. simpl in Hfuel. lia.
Qed.

Lemma multi_loop_rejects s ps1 : forall r c p d zs x fuel,
  obj_at s Nil = Some O_NIL ->
  cells s r ps1 c -> obj_at s c = Some (O_CONS p d) -> not_int s p ->
  ints s ps1 zs -> (length ps1 < fuel)%nat ->
  multi_loop fuel r (Some x) false s = Error "* accepts only integers".
Proof.
  induction ps1 as [|a ps1 IH]; intros r c p d zs x fuel HNil Hcells Hc Hp Hints Hfuel;
    (destruct fuel as [|n]; [simpl in Hfuel; lia|]); rewrite multi_loop_S;
    inversion Hcells as [|? ? d0 ? ? Hr Hcells']; subst.
  - rewrite (pair_not_Nil _ _ _ _ HNil Hc). step (get_car_ok _ _ _ _ Hc).
    destruct (not_int_type s p Hp) as (o & Hty & E). step Hty. now rewrite E.
  - rewrite (pair_not_Nil _ _ _ _ HNil Hr).
    inversion Hints as [|? z ? zs' Hz Hints']; subst.
    step (get_car_ok _ _ _ _ Hr). step (get_type_ok _ _ _ Hz).
    cbn [type_of ObjectType_eqb negb].
    step (get_value_ok _ _ _ Hz). step (get_cdr_ok _ _ _ _ Hr).
    apply (IH d0 c p d zs'); auto. simpl in Hfuel. lia.
Qed.

(** X22.  When one of the values is not an integer, the first such value
    ends [+], [-] and [*] with an error; the message of [-] is the one
    of [+]. *)
Theorem arithmetic_rejects_non_integers fuel ev env args l s r s1 ps1 p ps2 zs :
  obj_at s Nil = Some O_NIL -> cells s args l Nil -> (length l < fuel)%nat ->
  eval_args fuel ev env args s = Ok r s1 ->
  obj_at s1 Nil = Some O_NIL -> cells s1 r (ps1 ++ p :: ps2) Nil ->
  ints s1 ps1 zs -> not_int s1 p -> (length ps1 < fuel)%nat ->
  primitive_plus fuel ev env args s = Error "+ accepts only integers"
  /\ primitive_minus fuel ev env args s = Error "+ accepts only integers"
  /\ ((2 <= length l)%nat ->
      primitive_multi fuel ev env args s = Error "* accepts only integers").
Proof.
  intros HNil Hl Hlen Hargs HNil1 Hcells Hints Hp Hfuel.
  destruct (cells_app_inv s1 ps1 r p ps2 Nil Hcells) as (c & d & Hc1 & Hc & _).
  destruct (not_int_type s1 p Hp) as (o & Hty & E).
  split; [|split].
  - unfold primitive_plus. step Hargs. unfold bind.
    now rewrite (plus_loop_rejects s1 ps1 r c p d zs 0 fuel HNil1 Hc1 Hc Hp Hints Hfuel).
  - unfold primitive_minus. step Hargs.
    assert (Hloop : minus_loop fuel r None true s1 = Error "+ accepts only integers").
    { destruct fuel as [|n]; [lia|]. rewrite minus_loop_S'.
      inversion Hc1 as [|? a d0 l0 ? Hr Hc1']; subst.
      - rewrite (pair_not_Nil _ _ _ _ HNil1 Hc). step (get_car_ok _ _ _ _ Hc).
        step Hty. now rewrite E.
      - rewrite (pair_not_Nil _ _ _ _ HNil1 Hr).
        inversion Hints as [|? z ? zs' Hz Hints']; subst.
        step (get_car_ok _ _ _ _ Hr). step (get_type_ok _ _ _ Hz).
        cbn [type_of ObjectType_eqb negb].
        step (get_value_ok _ _ _ Hz). step (get_cdr_ok _ _ _ _ Hr).
        assert (Hd0 : (d0 =? Nil)%nat = false).
        { inversion Hc1'; subst; eapply pair_not_Nil; eauto. }
        rewrite Hd0.
        apply (minus_loop_rejects s1 l0 d0 c p d zs'); auto. simpl in Hfuel. lia. }
    unfold bind. now rewrite Hloop.
  - intros H2. unfold primitive_multi.
    step (count_list s args l fuel HNil Hl Hlen).
    replace (Z.of_nat (length l) <? 2) with false by (symmetry; apply Z.ltb_ge; lia).
    step Hargs.
    assert (Hloop : multi_loop fuel r None true s1 = Error "* accepts only integers").
    { destruct fuel as [|n]; [lia|]. rewrite multi_loop_S.
      inversion Hc1 as [|? a d0 l0 ? Hr Hc1']; subst.
      - rewrite (pair_not_Nil _ _ _ _ HNil1 Hc). step (get_car_ok _ _ _ _ Hc).
        step Hty. now rewrite E.
      - rewrite (pair_not_Nil _ _ _ _ HNil1 Hr).
        inversion Hints as [|? z ? zs' Hz Hints']; subst.
        step (get_car_ok _ _ _ _ Hr). step (get_type_ok _ _ _ Hz).
        cbn [type_of ObjectType_eqb negb].
        step (get_value_ok _ _ _ Hz). step (get_cdr_ok _ _ _ _ Hr).
        apply (multi_loop_rejects s1 l0 d0 c p d zs'); auto. simpl in Hfuel. lia. }
    unfold bind. now rewrite Hloop.
Qed.


Definition s_bad : State := state_of (load 30 1 "(- 1 True)").

(** The values of the arguments of [(- 1 True)] are the integer at
    address 26 and the atom [True]. *)
Lemma arithmetic_rejects_non_integers_witness :
  primitive_plus 10 (eval 10) 1%nat 27%nat s_bad = Error "+ accepts only integers"
  /\ primitive_minus 10 (eval 10) 1%nat 27%nat s_bad = Error "+ accepts only integers"
  /\ ((2 <= length [26; 28]%nat)%nat ->
      primitive_multi 10 (eval 10) 1%nat 27%nat s_bad = Error "* accepts only integers").
Proof.
  apply (arithmetic_rejects_non_integers 10 (eval 10) 1%nat 27%nat [26; 28]%nat s_bad
           30%nat (state_of (eval_args 10 (eval 10) 1%nat 27%nat s_bad))
           [26%nat] True' [] [1]).
  - vm_compute; reflexivity.
  - prove_cells.
  - simpl; lia.
  - vm_compute; reflexivity.
  - vm_compute; reflexivity.
  - prove_cells.
  - prove_ints.
  - exists O_TRUE. split; [vm_compute; reflexivity|discriminate].
  - simpl; lia.
Defined.

(** ** quote *)

Lemma quote_list fuel ev env args s l :
  obj_at s Nil = Some O_NIL -> cells s args l Nil -> (length l < fuel)%nat ->
  primitive_quote fuel ev env args s
  = match l with
    | [a] => Ok a s
    | _ => Error "quote accepts one argument only"
    end.
Proof.
  intros HNil Hcells Hfuel. unfold primitive_quote.
  step (count_list s args l fuel HNil Hcells Hfuel).
  destruct l as [|a [|b l]]; try reflexivity.
  - inversion Hcells as [|? ? d ? ? Hp H']; subst. inversion H'; subst.
    cbn. now apply get_car_ok with (d := Nil).
  - cbn [length].
    replace (negb (Z.of_nat (S (S (length l))) =? 1)) with true; [reflexivity|].
    symmetry. apply negb_true_iff, Z.eqb_neq. lia.
Qed.

(** X23.  [quote] returns its one argument as it stands: nothing is
    evaluated and the state does not change; any other number of
    arguments is an error. *)
Theorem quote_returns_argument fuel ev env args s l :
  obj_at s Nil = Some O_NIL -> cells s args l Nil -> (length l < fuel)%nat ->
  primitive_quote fuel ev env args s
  = match l with
    | [a] => Ok a s
    | _ => Error "quote accepts one argument only"
    end.
Proof. apply quote_list. Qed.

(** The argument list of [(quote y)] in [s_def] is the cell at
    address 31. *)
Lemma quote_returns_argument_witness :
  primitive_quote 2 (eval 0) 1%nat 31%nat s_def = Ok 30%nat s_def.
Proof.
  apply (quote_returns_argument 2 (eval 0) 1%nat 31%nat s_def [30%nat]).
  - vm_compute; reflexivity.
  - prove_cells.
  - simpl; lia.
Defined.

(** ** cons and setcar *)

Lemma obj_at_store_other s p q x :
  (0 < p)%nat -> p <> q ->
  obj_at (with_heap s (<[pred p := x]> (heap s))) q = obj_at s q.
Proof.
  intros Hp Hne. destruct p as [|i]; [lia|]. destruct q as [|j]; [reflexivity|].
  simpl. apply list_lookup_insert_ne. congruence.
Qed.

Lemma set_car_ok s p a d v :
  obj_at s p = Some (O_CONS a d) ->
  set_car p v s = Ok tt (with_heap s (<[pred p := O_CONS v d]> (heap s))).
Proof.
  intros H. unfold set_car. step (deref_ok _ _ _ H). unfold store. now rewrite H.
Qed.

(** X24.  [cons] returns the first cell of the list of values that
    [eval_args] has built, after storing the second value into its
    [cdr] field: a pair of the two values.  No other object changes. *)
Theorem cons_builds_pair fuel ev env args a b s r s1 va d vb d' :
  obj_at s Nil = Some O_NIL -> cells s args [a; b] Nil -> (2 < fuel)%nat ->
  eval_args fuel ev env args s = Ok r s1 ->
  obj_at s1 r = Some (O_CONS va d) -> obj_at s1 d = Some (O_CONS vb d') ->
  exists s2,
    primitive_cons fuel ev env args s = Ok r s2
    /\ obj_at s2 r = Some (O_CONS va vb)
    /\ (forall q, q <> r -> obj_at s2 q = obj_at s1 q)
    /\ frames s2 = frames s1 /\ stdout s2 = stdout s1.
Proof.
  intros HNil Hcells Hfuel Hargs Hr Hd.
  exists (with_heap s1 (<[pred r := O_CONS va vb]> (heap s1))).
  split.
  - unfold primitive_cons.
    step (count_list s args [a; b] fuel HNil Hcells Hfuel).
    change (negb (Z.of_nat (length [a; b]) =? 2)) with false. cbv iota.
    step Hargs. step (get_cdr_ok _ _ _ _ Hr). step (get_car_ok _ _ _ _ Hd).
    step (set_cdr_ok s1 r va d vb Hr). reflexivity.
  - split; [exact (obj_at_store_eq s1 r _ _ Hr)|].
    split; [|split; reflexivity].
    intros q Hq. apply obj_at_store_other; [|congruence].
    apply obj_at_lt in Hr. lia.
Qed.

(** X25.  [setcar] evaluates its arguments first; given two values of which
    the first is a pair, it stores the second into the [car] field of
    that pair and returns the pair; a first value of another type is
    an error. *)
Theorem setcar_stores fuel ev env args s r s1 va vb o :
  eval_args fuel ev env args s = Ok r s1 ->
  obj_at s1 Nil = Some O_NIL -> cells s1 r [va; vb] Nil ->
  obj_at s1 va = Some o -> (2 < fuel)%nat ->
  primitive_setcar fuel ev env args s
  = match o with
    | O_CONS _ y => Ok va (with_heap s1 (<[pred va := O_CONS vb y]> (heap s1)))
    | _ => Error "setcar accepts two arguments only, with first being a cons cell"
    end.
Proof.
  intros Hargs HNil Hcells Hva Hfuel. unfold primitive_setcar. step Hargs.
  step (count_list s1 r [va; vb] fuel HNil Hcells Hfuel).
  change (negb (Z.of_nat (length [va; vb]) =? 2)) with false. cbv iota.
  inversion Hcells as [|? ? d ? ? Hr H']; subst.
  inversion H' as [|? ? d' ? ? Hd H'']; subst.
  step (get_car_ok _ _ _ _ Hr). step (get_type_ok _ _ _ Hva).
  destruct o; try reflexivity.
  cbn [type_of ObjectType_eqb negb].
  step (get_cdr_ok _ _ _ _ Hr). step (get_car_ok _ _ _ _ Hd).
  step (set_car_ok s1 va _ _ vb Hva). reflexivity.
Qed.

(** ** println *)

(** X26.  [println] evaluates its one argument, writes the text of the
    value and a newline, and returns [Nil]. *)
Theorem println_writes_line fuel ev env args a s p s1 v :
  obj_at s Nil = Some O_NIL -> obj_at s args = Some (O_CONS a Nil) ->
  ev env a s = Ok p s1 ->
  atoms s1 -> repr s1 p v -> proper v = true -> (size v <= fuel)%nat -> (1 < fuel)%nat ->
  primitive_println fuel ev env args s
  = Ok Nil (written s1 (text v ++ ["010"%char])).
Proof.
  intros HNil Hargs Hev Hat Hrepr Hv Hsize Hfuel. unfold primitive_println.
  assert (Hcells : cells s args [a] Nil) by (econstructor; [exact Hargs|constructor]).
  step (count_list s args [a] fuel HNil Hcells ltac:(simpl; lia)).
  change (negb (Z.of_nat (length [a]) =? 1)) with false. cbv iota.
  step (get_car_ok _ _ _ _ Hargs). step Hev.
  step (proj1 (print_text v) Hv s1 p fuel Hat Hrepr Hsize).
  rewrite <- written_app. reflexivity.
Qed.

(** ** if *)

(** X27.  [if] evaluates its first argument; when the value is not [Nil] it
    evaluates the second argument and returns its value; otherwise it
    returns [Nil] when there is no third argument and evaluates the
    third one when there is.  The branch not taken is not evaluated. *)
Theorem if_selects_branch fuel ev env args c t rest s v s1 :
  obj_at s Nil = Some O_NIL -> cells s args (c :: t :: rest) Nil ->
  (length rest <= 1)%nat -> (3 < fuel)%nat ->
  ev env c s = Ok v s1 ->
  cells s1 args (c :: t :: rest) Nil ->
  primitive_if fuel ev env args s
  = if (v =? Nil)%nat
    then match rest with
         | [] => Ok Nil s1
         | e :: _ => ev env e s1
         end
    else ev env t s1.
Proof.
  intros HNil Hcells Hrest Hfuel Hev Hcells1. unfold primitive_if.
  step (count_list s args (c :: t :: rest) fuel HNil Hcells
          ltac:(simpl; lia)).
  inversion Hcells as [|? ? d ? ? Hp H']; subst.
  inversion Hcells1 as [|? ? d1 ? ? Hp1 H1]; subst.
  inversion H1 as [|? ? dd ? ? Hd1 H2]; subst.
  destruct rest as [|e [|e' rest]]; [| |simpl in Hrest; lia].
  - change (negb (Z.of_nat (length [c; t]) =? 2) && negb (Z.of_nat (length [c; t]) =? 3))
      with false. cbv iota.
    step (get_car_ok _ _ _ _ Hp). step Hev.
    destruct (v =? Nil)%nat; cbn [negb]; cbv iota.
    + reflexivity.
    + step (get_cdr_ok _ _ _ _ Hp1). step (get_car_ok _ _ _ _ Hd1). reflexivity.
  - change (negb (Z.of_nat (length [c; t; e]) =? 2)
            && negb (Z.of_nat (length [c; t; e]) =? 3)) with false. cbv iota.
    step (get_car_ok _ _ _ _ Hp). step Hev.
    inversion H2 as [|? ? ddd ? ? Hdd H3]; subst.
    destruct (v =? Nil)%nat; cbn [negb]; cbv iota.
    + change (Z.of_nat (length [c; t; e]) =? 2) with false. cbv iota.
      step (get_cdr_ok _ _ _ _ Hp1). step (get_cdr_ok _ _ _ _ Hd1).
      step (get_car_ok _ _ _ _ Hdd). reflexivity.
    + step (get_cdr_ok _ _ _ _ Hp1). step (get_car_ok _ _ _ _ Hd1). reflexivity.
Qed.

(** ** Closures without a body *)

(** X28.  A closure with an empty body, which [lambda] accepts, cannot be
    applied: after the arguments have been evaluated and bound, [progn]
    returns a variable it has never set. *)
Theorem apply_empty_body fuel ev env o args s params r s1 ps e names vals tail :
  obj_at s o = Some (O_FUNCTION params Nil) ->
  eval_args fuel ev env args s = Ok r s1 ->
  obj_at s1 o = Some (O_FUNCTION params Nil) ->
  cells s1 params ps e -> not_pair s1 e -> Forall2 (symbol_named s1) ps names ->
  cells s1 r vals tail ->
  (length ps <= length vals)%nat -> (length ps < fuel)%nat ->
  apply fuel ev env o args s = Crash.
Proof.
  intros Ho Hargs Ho1 Hparams He Hnames Hvals Hlen Hfuel.
  unfold apply. step (deref_ok _ _ _ Ho). step Hargs.
  unfold env_create at 1. unfold bind at 1.
  step (set_parent_new s1 env).
  set (s3 := with_frames s1 (frames s1 ++ [mkEnv ∅ env])).
  assert (Hf : frame_at s3 (S (length (frames s1))) = Some (mkEnv ∅ env)).
  { simpl. rewrite lookup_app_r by lia. now rewrite Nat.sub_diag. }
  step (bind_params_loop s1 params ps e Hparams He s3 _ names r vals tail _ fuel
          eq_refl Hnames Hvals Hlen Hf Hfuel).
  set (s4 := with_frames s3 _).
  assert (Ho4 : obj_at s4 o = Some (O_FUNCTION params Nil)) by exact Ho1.
  step (get_body_ok _ _ _ _ Ho4).
  destruct fuel as [|n]; [lia|]. reflexivity.
Qed.

(** ** Objects that evaluation cannot change *)

(** X29.  Whatever is evaluated, an integer, a symbol, an atom, a primitive
    or a closure that exists stays the object it is, and a pair stays a
    pair: the only fields ever written are the [car] and [cdr] fields
    of pairs. *)
Theorem evaluation_writes_pairs_only fuel env o s v s' :
  eval fuel env o s = Ok v s' -> stable s s'.
Proof. apply steps_eval. Qed.


(** * Runs that instantiate the theorems above *)

Definition s_cons : State := state_of (load 30 1 "(cons 1 (quote (2)))").

(** The argument list of [(cons 1 (quote (2)))] is the cell at address
    27; [eval_args] builds the cells 34 and 35 for the values at 26 and
    31. *)
Lemma cons_builds_pair_witness :
  exists s2,
    primitive_cons 10 (eval 10) 1%nat 27%nat s_cons = Ok 34%nat s2
    /\ obj_at s2 34%nat = Some (O_CONS 26%nat 31%nat)
    /\ (forall q, q <> 34%nat ->
          obj_at s2 q = obj_at (state_of (eval_args 10 (eval 10) 1%nat 27%nat s_cons)) q)
    /\ frames s2 = frames (state_of (eval_args 10 (eval 10) 1%nat 27%nat s_cons))
    /\ stdout s2 = stdout (state_of (eval_args 10 (eval 10) 1%nat 27%nat s_cons)).
Proof.
  apply (cons_builds_pair 10 (eval 10) 1%nat 27%nat 26%nat 29%nat s_cons 34%nat
           (state_of (eval_args 10 (eval 10) 1%nat 27%nat s_cons)) 26%nat 35%nat 31%nat Nil).
  - vm_compute; reflexivity.
  - prove_cells.
  - lia.
  - vm_compute; reflexivity.
  - vm_compute; reflexivity.
  - vm_compute; reflexivity.
Defined.

Definition s_set : State := state_of (load 30 1 "(setcar (quote (1 2)) 5)").

(** The argument list of [(setcar (quote (1 2)) 5)] is the cell at
    address 33; the values are the list at address 29 and the integer
    at address 34, listed from address 36. *)
Lemma setcar_stores_witness :
  primitive_setcar 10 (eval 10) 1%nat 33%nat s_set
  = Ok 29%nat
       (with_heap (state_of (eval_args 10 (eval 10) 1%nat 33%nat s_set))
          (<[pred 29%nat := O_CONS 34%nat 31%nat]>
             (heap (state_of (eval_args 10 (eval 10) 1%nat 33%nat s_set))))).
Proof.
  apply (setcar_stores 10 (eval 10) 1%nat 33%nat s_set 36%nat
           (state_of (eval_args 10 (eval 10) 1%nat 33%nat s_set)) 29%nat 34%nat
           (O_CONS 28%nat 31%nat)).
  - vm_compute; reflexivity.
  - vm_compute; reflexivity.
  - prove_cells.
  - vm_compute; reflexivity.
  - lia.
Defined.

Definition s_pr : State := state_of (load 30 1 "(println (quote (a (b) 3)))").

(** The argument list of [(println (quote (a (b) 3)))] is the cell at
    address 36, its element the [quote] form at address 27, whose
    value is the list at address 29. *)
Lemma println_writes_line_witness :
  primitive_println 10 (eval 10) 1%nat 36%nat s_pr
  = Ok Nil (written s_pr (list_ascii_of_string "(a (b) 3)" ++ ["010"%char])).
Proof.
  apply (println_writes_line 10 (eval 10) 1%nat 36%nat 27%nat s_pr 29%nat s_pr
           (vlist [VSym "a"; vlist [VSym "b"]; VInt 3])).
  - vm_compute; reflexivity.
  - vm_compute; reflexivity.
  - vm_compute; reflexivity.
  - split; vm_compute; reflexivity.
  - unfold vlist. simpl. prove_repr.
  - reflexivity.
  - simpl; lia.
  - lia.
Defined.

Definition s_if : State := state_of (load 30 1 "(if (< 1 2) 10 undefined)").

(** The argument list of [(if (< 1 2) 10 undefined)] is the cell at
    address 32: condition at 27, branches at 33 and 35.  The
    condition evaluates to [True]. *)
Lemma if_selects_branch_witness :
  primitive_if 10 (eval 10) 1%nat 32%nat s_if
  = if (True' =? Nil)%nat
    then match [35%nat] with
         | [] => Ok Nil (state_of (eval 10 1%nat 27%nat s_if))
         | e :: _ => eval 10 1%nat e (state_of (eval 10 1%nat 27%nat s_if))
         end
    else eval 10 1%nat 33%nat (state_of (eval 10 1%nat 27%nat s_if)).
Proof.
  apply (if_selects_branch 10 (eval 10) 1%nat 32%nat 27%nat 33%nat [35%nat] s_if True'
           (state_of (eval 10 1%nat 27%nat s_if))).
  - vm_compute; reflexivity.
  - prove_cells.
  - simpl; lia.
  - lia.
  - vm_compute; reflexivity.
  - prove_cells.
Defined.

(** The call [((lambda (x)) 1)], after its operator has been
    evaluated to the closure at address 32. *)
Definition s_body : State :=
  state_of (eval 10 1%nat 25%nat (state_of (load 30 1 "((lambda (x)) 1)"))).

Lemma apply_empty_body_witness :
  apply 10 (eval 10) 1%nat 32%nat 31%nat s_body = Crash.
Proof.
  apply (apply_empty_body 10 (eval 10) 1%nat 32%nat 31%nat s_body 27%nat 33%nat
           (state_of (eval_args 10 (eval 10) 1%nat 31%nat s_body))
           [26%nat] Nil ["x"] [30%nat] Nil).
  - vm_compute; reflexivity.
  - vm_compute; reflexivity.
  - vm_compute; reflexivity.
  - prove_cells.
  - exists O_NIL. split; [vm_compute; reflexivity|discriminate].
  - repeat constructor.
  - prove_cells.
  - simpl; lia.
  - simpl; lia.
Defined.

Lemma evaluation_writes_pairs_only_witness :
  stable s_set (state_of (eval 10 1%nat 25%nat s_set)).
Proof.
  apply (evaluation_writes_pairs_only 10 1%nat 25%nat s_set
           (value_of (eval 10 1%nat 25%nat s_set))).
  vm_compute. reflexivity.
Defined.


(** * Reading and evaluating a quoted text *)

(** X30.  Where [quote] resolves to its primitive, the text of a readable
    tree [v] behind an apostrophe, read and then evaluated, gives the
    tree read from the text of [v]: the evaluation allocates nothing
    and changes nothing. *)
Theorem quoted_text_evaluates_to_tree junk n m v s rest env pq d :
  junk <> 0 -> readable v = true -> delimited rest = true ->
  stdin s = "'"%char :: text v ++ rest ->
  obj_at s Nil = Some O_NIL -> (length (text v) + 2 <= n)%nat ->
  resolves (frames s) env "quote" pq d ->
  obj_at s pq = Some (O_PRIMITIVE P_quote) -> (d + 2 < m)%nat ->
  exists q s' e,
    read junk (S n) s = Ok q s'
    /\ eval (S m) env q s' = Ok e s'
    /\ repr s' e (norm v).
Proof.
  intros Hjunk Hv Hrest Hin HNil Hn Hres Hpq Hm.
  destruct (read_quote_tree junk n v s rest Hjunk Hv Hrest Hin (Nil_allocated s HNil) Hn)
    as (q & s' & ext & Hread & _ & Hh & Hrepr).
  destruct (rk_read (heap s) junk (S n) s q s' ltac:(reflexivity) Hread)
    as (Hpre & Hfr & _ & _).
  inversion Hrepr as [| | | |? a d0 ? ? Hq Ha Hd0]; subst.
  inversion Ha as [|? ? Hsym| | |]; subst.
  inversion Hd0 as [| | | |? e t ? ? Hcell He Ht]; subst.
  inversion Ht; subst.
  exists q, s', e. split; [exact Hread|]. split; [|exact He].
  pose proof (prefix_obj_at s s' _ _ Hpre HNil) as HNil'.
  pose proof (prefix_obj_at s s' _ _ Hpre Hpq) as Hpq'.
  destruct m as [|m']; [lia|].
  assert (Hop : eval (S m') env a s' = Ok pq s').
  { rewrite (eval_symbol m' env a s' "quote" Hsym).
    apply (resolves_lookup s' env "quote" pq d); [now rewrite Hfr|lia]. }
  rewrite (eval_primitive_call (S m') env q s' a d0 pq P_quote (O_CONS e Nil)
             Hq Hop Hpq' Hcell ltac:(now left)).
  cbn [call_primitive].
  rewrite (quote_list (S m') (eval (S m')) env d0 s' [e] HNil'
             ltac:(econstructor; [exact Hcell|constructor]) ltac:(simpl; lia)).
  reflexivity.
Qed.

(** The root environment, with the text ['(a 1)] to be read. *)
Definition s_quoted_text : State :=
  state_of (env_init (initial_state (list_ascii_of_string "'(a 1)"))).

Lemma quoted_text_evaluates_to_tree_witness :
  exists q s' e,
    read 1 9 s_quoted_text = Ok q s'
    /\ eval 4 1%nat q s' = Ok e s'
    /\ repr s' e (norm (vlist [VSym "a"; VInt 1])).
Proof.
  apply (quoted_text_evaluates_to_tree 1 8 3 (vlist [VSym "a"; VInt 1]) s_quoted_text []
           1%nat 22%nat 0).
  - discriminate.
  - reflexivity.
  - reflexivity.
  - reflexivity.
  - vm_compute; reflexivity.
  - vm_compute. lia.
  - eapply (resolves_here _ 0%nat); vm_compute; reflexivity.
  - vm_compute; reflexivity.
  - lia.
Defined.
